(** * persistent-cookiejar: the persistence transaction and the value codec

    A shallow embedding of [serialize.go] (Save, save, load, mergeFrom,
    writeTo, allPersistentEntries, MarshalJSON, encrypt, decrypt) and of
    [internal.LockFile], together with executable models of the library
    code they call: encoding/base64 (StdEncoding), crypto/aes, the GCM
    mode of crypto/cipher, and the value scanner of encoding/json's
    Decoder.

    Conventions.
    - A Go [string] is a [string]; a [[]byte] is a [list byte]; the
      conversions [[]byte(s)] and [string(b)] are [list_byte_of_string] and
      [string_of_list_byte].
    - A Go call that can return an error returns a [result]; a run-time
      panic is the third outcome [Panic].
    - Lengths are unbounded naturals: memory limits, and the 64 GiB cap
      of GCM on one message, are outside the model.
    - A lock attempt takes no time: the clock advances by the waits of
      the retry loop only.
    - The process is sequential: [j.mu] is not modelled. *)

From Stdlib Require Import ZArith NArith List String Ascii Bool Lia Permutation.
From Stdlib.Strings Require Import Byte.
From stdpp Require Import gmap strings list fin_maps.
Import ListNotations.

Local Open Scope string_scope.
Local Open Scope list_scope.

(** ** Errors and results *)

(** Error numbers of failed system calls. *)
Inductive Errno := ENOENT | EACCES | EIO | ENOSPC | EOTHER (n : Z).

(** The error values that reach this package, by the Go type or variable
    that creates them. *)
Inductive error :=
| errors_New (msg : string)                        (* pkg/errors.New *)
| errors_WithMessage (cause : error) (msg : string) (* pkg/errors.WithMessage *)
| io_EOF
| io_ErrUnexpectedEOF
| context_DeadlineExceeded
| os_PathError (op path : string) (errno : Errno)
| json_SyntaxError (c : byte) (context : string) (offset : Z)
| json_UnmarshalError (msg : string)
| base64_CorruptInputError (offset : Z)
| aes_KeySizeError (size : Z)
| cipher_errOpen                                   (* "cipher: message authentication failed" *)
| store_error (msg : string).                      (* an error of the entry store's merge *)

Inductive result (A : Type) :=
| Ok (a : A)
| Err (e : error)
| Panic (msg : string).
Arguments Ok {A} a.
Arguments Err {A} e.
Arguments Panic {A} msg.

(** ** Bytes *)

(** [byte(n)]: the conversion of an unsigned integer to a byte keeps the
    low eight bits. *)
Definition byte_of_N (n : N) : byte :=
  match Byte.of_N (n mod 256) with
  | Some b => b
  | None => x00
  end.

Definition byte_xor (a b : byte) : byte :=
  byte_of_N (N.lxor (Byte.to_N a) (Byte.to_N b)).

(** [xorBytes(dst, a, b)]: the bytewise xor of the common prefix. *)
Fixpoint xorBytes (a b : list byte) : list byte :=
  match a, b with
  | x :: a', y :: b' => byte_xor x y :: xorBytes a' b'
  | _, _ => []
  end.

(** ** encoding/base64, StdEncoding *)

Module base64.

Definition encodeStd : string :=
  "ABCDEFGHIJKLMNOPQRSTUVWXYZabcdefghijklmnopqrstuvwxyz0123456789+/".

Definition padChar : byte := "=".
Definition LF : byte := x0a.
Definition CR : byte := x0d.

(** [enc.encode[i]] *)
Definition encode (i : N) : byte :=
  nth (N.to_nat i) (list_byte_of_string encodeStd) x00.

Fixpoint index_of (c : byte) (l : list byte) (i : N) : N :=
  match l with
  | [] => 255
  | x :: l' => if Byte.eqb x c then i else index_of c l' (N.succ i)
  end.

(** [enc.decodeMap[c]]: the position of [c] in the alphabet, 0xff for a
    byte outside it. *)
Definition decodeMap (c : byte) : N :=
  index_of c (list_byte_of_string encodeStd) 0.

(** [EncodedLen(n)] with padding. *)
Definition EncodedLen (n : nat) : nat := (n + 2) / 3 * 4.

(** [DecodedLen(n)] with padding. *)
Definition DecodedLen (n : nat) : nat := n / 4 * 3.

Definition sextet (val : N) (shift : N) : byte :=
  encode (N.land (N.shiftr val shift) 63).

(** [enc.Encode(dst, src)], returning the bytes written to [dst]. *)
Fixpoint Encode (src : list byte) : list byte :=
  match src with
  | [] => []
  | [b0] =>
      let val := N.shiftl (Byte.to_N b0) 16 in
      [sextet val 18; sextet val 12; padChar; padChar]
  | [b0; b1] =>
      let val := N.lor (N.shiftl (Byte.to_N b0) 16) (N.shiftl (Byte.to_N b1) 8) in
      [sextet val 18; sextet val 12; sextet val 6; padChar]
  | b0 :: b1 :: b2 :: rest =>
      let val := N.lor (N.lor (N.shiftl (Byte.to_N b0) 16)
                              (N.shiftl (Byte.to_N b1) 8)) (Byte.to_N b2) in
      sextet val 18 :: sextet val 12 :: sextet val 6 :: sextet val 0 :: Encode rest
  end.

(** The streaming encoder of [NewEncoder(StdEncoding, w)] over a
    [bytes.Buffer]: [nbuf] holds the bytes of an incomplete 3-byte group,
    [out] what has been written to [w] so far. Writes to a
    [bytes.Buffer] do not fail, so [e.err] stays nil. *)
Record encoder := { out : list byte; nbuf : list byte }.

Definition NewEncoder (w : list byte) : encoder := {| out := w; nbuf := [] |}.

(** The bytes of [p] that lie in complete 3-byte groups. *)
Definition whole_groups (p : list byte) : nat := List.length p / 3 * 3.

(** [e.Write(p)]: the leading fringe completes a pending group, the
    interior is encoded in whole groups, the trailing fringe is kept. *)
Definition Write (e : encoder) (p : list byte) : encoder :=
  let need := 3 - List.length (nbuf e) in
  if (0 <? List.length (nbuf e))%nat && (List.length p <? need)%nat then
    {| out := out e; nbuf := nbuf e ++ p |}
  else
    let '(o1, p1) :=
      if (0 <? List.length (nbuf e))%nat
      then (out e ++ Encode (nbuf e ++ firstn need p), skipn need p)
      else (out e, p) in
    {| out := o1 ++ Encode (firstn (whole_groups p1) p1);
       nbuf := skipn (whole_groups p1) p1 |}.

(** [e.Close()]: flushes the pending group with padding. *)
Definition Close (e : encoder) : encoder :=
  {| out := out e ++ Encode (nbuf e); nbuf := [] |}.

Definition EncodeToString (src : list byte) : string :=
  string_of_list_byte (Encode src).

Definition is_newline (c : byte) : bool := Byte.eqb c LF || Byte.eqb c CR.

Fixpoint skip_newlines (src : list byte) : list byte :=
  match src with
  | c :: rest => if is_newline c then skip_newlines rest else src
  | [] => []
  end.

(** The three bytes of a quantum of four sextets. *)
Definition quantum (d0 d1 d2 d3 : N) : list byte :=
  let val := N.lor (N.lor (N.lor (N.shiftl d0 18) (N.shiftl d1 12)) (N.shiftl d2 6)) d3 in
  [byte_of_N (N.shiftr val 16); byte_of_N (N.shiftr val 8); byte_of_N val].

Definition corrupt (offset : nat) : option error :=
  Some (base64_CorruptInputError (Z.of_nat offset)).

(** [enc.Decode(dst, src)]: [decode total src dbuf] reads [src], the
    suffix of an input of [total] bytes, with the sextets of the current
    quantum in [dbuf]; it returns the bytes written to [dst] and the
    error. The offset [si] of the next byte is [total - length src]. *)
Fixpoint decode (total : nat) (src : list byte) (dbuf : list N)
  : list byte * option error :=
  let si := (total - List.length src)%nat in
  match src with
  | [] =>
      match dbuf with
      | [] => ([], None)
      | _ => ([], corrupt (si - List.length dbuf))
      end
  | c :: rest =>
      let o := decodeMap c in
      if negb (o =? 255)%N then
        match dbuf with
        | [d0; d1; d2] =>
            let '(bs, err) := decode total rest [] in
            (quantum d0 d1 d2 o ++ bs, err)
        | _ => decode total rest (dbuf ++ [o])
        end
      else if is_newline c then decode total rest dbuf
      else if negb (Byte.eqb c padChar) then ([], corrupt si)
      else
        match dbuf with
        | [d0; d1] =>
            (* "==" is expected, the first "=" is already consumed *)
            let r1 := skip_newlines rest in
            match r1 with
            | [] => ([], corrupt total)
            | c2 :: r2 =>
                if negb (Byte.eqb c2 padChar)
                then ([], corrupt (total - List.length r1 - 1))
                else
                  let r3 := skip_newlines r2 in
                  (firstn 1 (quantum d0 d1 0 0),
                   match r3 with
                   | [] => None
                   | _ => corrupt (total - List.length r3)
                   end)
            end
        | [d0; d1; d2] =>
            let r3 := skip_newlines rest in
            (firstn 2 (quantum d0 d1 d2 0),
             match r3 with
             | [] => None
             | _ => corrupt (total - List.length r3)
             end)
        | _ => ([], corrupt si)
        end
  end.

Definition Decode (src : list byte) : list byte * option error :=
  decode (List.length src) src [].

End base64.

(** ** Big-endian integers *)

(** The unsigned integer a byte string denotes, most significant byte
    first. *)
Fixpoint be_value (acc : N) (bs : list byte) : N :=
  match bs with
  | [] => acc
  | b :: bs' => be_value (acc * 256 + Byte.to_N b) bs'
  end.

(** The [n] low bytes of [x], most significant first. *)
Fixpoint be_bytes (n : nat) (x : N) : list byte :=
  match n with
  | O => []
  | S n' => be_bytes n' (N.shiftr x 8) ++ [byte_of_N x]
  end.

(** ** crypto/aes: the block cipher of FIPS 197, encryption direction *)

Module aes.

Definition BlockSize : nat := 16.

(** Multiplication by x in GF(2^8) modulo x^8 + x^4 + x^3 + x + 1. *)
Definition xtime (b : N) : N :=
  N.lxor (N.land (N.shiftl b 1) 255) (if N.testbit b 7 then 27 else 0).

Fixpoint gmul_loop (n : nat) (a b : N) : N :=
  match n with
  | O => 0
  | S n' => N.lxor (if N.odd b then a else 0) (gmul_loop n' (xtime a) (N.shiftr b 1))
  end.

Definition gmul (a b : N) : N := gmul_loop 8 a b.

(** The multiplicative inverse, a^254 (0 for 0). *)
Definition ginv (a : N) : N :=
  let a2 := gmul a a in
  let a4 := gmul a2 a2 in
  let a8 := gmul a4 a4 in
  let a16 := gmul a8 a8 in
  let a32 := gmul a16 a16 in
  let a64 := gmul a32 a32 in
  let a128 := gmul a64 a64 in
  gmul a2 (gmul a4 (gmul a8 (gmul a16 (gmul a32 (gmul a64 a128))))).

Definition rotl8 (x : N) (k : N) : N :=
  N.land (N.lor (N.shiftl x k) (N.shiftr x (8 - k))) 255.

Definition sbox_of (a : N) : N :=
  let s := ginv a in
  N.lxor (N.lxor (N.lxor (N.lxor (N.lxor s (rotl8 s 1)) (rotl8 s 2)) (rotl8 s 3)) (rotl8 s 4)) 99.

(** The substitution table [sbox0]. *)
Definition sbox0 : list N :=
  Eval vm_compute in List.map (fun i => sbox_of (N.of_nat i)) (seq 0 256).

Definition sbox (a : N) : N := nth (N.to_nat a) sbox0 0%N.

(** A 32-bit word is an [N]; its bytes, most significant first. *)
Definition word_bytes (w : N) : list N :=
  [N.land (N.shiftr w 24) 255; N.land (N.shiftr w 16) 255;
   N.land (N.shiftr w 8) 255; N.land w 255].

Definition word_of (b0 b1 b2 b3 : N) : N :=
  N.lor (N.lor (N.lor (N.shiftl b0 24) (N.shiftl b1 16)) (N.shiftl b2 8)) b3.

Definition subw (w : N) : N :=
  match word_bytes w with
  | [b0; b1; b2; b3] => word_of (sbox b0) (sbox b1) (sbox b2) (sbox b3)
  | _ => 0
  end.

Definition rotw (w : N) : N :=
  N.lor (N.land (N.shiftl w 8) 4294967295) (N.shiftr w 24).

Fixpoint key_words (key : list byte) : list N :=
  match key with
  | b0 :: b1 :: b2 :: b3 :: rest =>
      word_of (Byte.to_N b0) (Byte.to_N b1) (Byte.to_N b2) (Byte.to_N b3) :: key_words rest
  | _ => []
  end.

(** The key schedule: [expand nk i rcon n w] appends words [i], [i+1],
    ... ([n] of them) to the schedule [w]. *)
Fixpoint expand (nk : nat) (i : nat) (rcon : N) (n : nat) (w : list N) : list N :=
  match n with
  | O => w
  | S n' =>
      let t := nth (i - 1) w 0%N in
      let '(t', rcon') :=
        if (i mod nk =? 0)%nat
        then (N.lxor (subw (rotw t)) (N.shiftl rcon 24), xtime rcon)
        else if (6 <? nk)%nat && (i mod nk =? 4)%nat
             then (subw t, rcon)
             else (t, rcon) in
      expand nk (S i) rcon' n' (w ++ [N.lxor (nth (i - nk) w 0%N) t'])
  end.

(** [expandKey]: 4 * (rounds + 1) words, rounds = len(key)/4 + 6. *)
Definition expandKey (key : list byte) : list N :=
  let nk := (List.length key / 4)%nat in
  expand nk nk 1 (4 * (nk + 7) - nk) (key_words key).

Definition shift_rows (s : list N) : list N :=
  List.map (fun i => nth ((i + 4 * (i mod 4)) mod 16) s 0%N) (seq 0 16).

Definition mix_column (a0 a1 a2 a3 : N) : list N :=
  [N.lxor (N.lxor (N.lxor (gmul 2 a0) (gmul 3 a1)) a2) a3;
   N.lxor (N.lxor (N.lxor a0 (gmul 2 a1)) (gmul 3 a2)) a3;
   N.lxor (N.lxor (N.lxor a0 a1) (gmul 2 a2)) (gmul 3 a3);
   N.lxor (N.lxor (N.lxor (gmul 3 a0) a1) a2) (gmul 2 a3)].

Fixpoint mix_columns (s : list N) : list N :=
  match s with
  | a0 :: a1 :: a2 :: a3 :: rest => mix_column a0 a1 a2 a3 ++ mix_columns rest
  | _ => []
  end.

Fixpoint xor_state (s k : list N) : list N :=
  match s, k with
  | x :: s', y :: k' => N.lxor x y :: xor_state s' k'
  | _, _ => []
  end.

(** The 16 bytes of round key [r]. *)
Definition round_key (w : list N) (r : nat) : list N :=
  List.flat_map word_bytes (firstn 4 (skipn (4 * r) w)).

Fixpoint rounds (w : list N) (r n : nat) (s : list N) : list N :=
  match n with
  | O => s
  | S n' =>
      rounds w (S r) n'
        (xor_state (mix_columns (shift_rows (List.map sbox s))) (round_key w r))
  end.

(** A cipher.Block made by [NewCipher]: the expanded key. *)
Record Block := { enc : list N }.

Definition nrounds (c : Block) : nat := (List.length (enc c) / 4 - 1)%nat.

(** [c.Encrypt(dst, src)] on one 16-byte block. *)
Definition Encrypt (c : Block) (src : list byte) : list byte :=
  let w := enc c in
  let nr := nrounds c in
  let s0 := xor_state (List.map Byte.to_N src) (round_key w 0) in
  let s1 := rounds w 1 (nr - 1) s0 in
  let s2 := xor_state (shift_rows (List.map sbox s1)) (round_key w nr) in
  List.map byte_of_N s2.

(** [aes.NewCipher(key)] *)
Definition NewCipher (key : list byte) : result Block :=
  let k := List.length key in
  if (k =? 16)%nat || (k =? 24)%nat || (k =? 32)%nat
  then Ok {| enc := expandKey key |}
  else Err (aes_KeySizeError (Z.of_nat k)).

End aes.

(** ** crypto/cipher: Galois/Counter Mode over a 128-bit block cipher *)

Module cipher.

Definition gcmBlockSize : nat := 16.
Definition gcmTagSize : nat := 16.
Definition gcmStandardNonceSize : nat := 12.

(** An AEAD made by [NewGCM]. *)
Record AEAD := { block : aes.Block; nonceSize : nat; tagSize : nat }.

(** [cipher.NewGCM(block)] *)
Definition NewGCM (b : aes.Block) : result AEAD :=
  if (aes.BlockSize =? gcmBlockSize)%nat
  then Ok {| block := b; nonceSize := gcmStandardNonceSize; tagSize := gcmTagSize |}
  else Err (errors_New "cipher: NewGCM requires 128-bit block cipher").

Definition NonceSize (g : AEAD) : nat := nonceSize g.
Definition Overhead (g : AEAD) : nat := tagSize g.

(** The reduction constant of GF(2^128) in GCM's bit order. *)
Definition gcmR : N := N.shiftl 225 120.

(** [mul_loop n x v z]: the product in GF(2^128); bit 127 of the integer
    is the coefficient of degree 0. *)
Fixpoint mul_loop (n : nat) (x v z : N) : N :=
  match n with
  | O => z
  | S n' =>
      let z' := if N.testbit x (N.of_nat n') then N.lxor z v else z in
      let v' := if N.odd v then N.lxor (N.shiftr v 1) gcmR else N.shiftr v 1 in
      mul_loop n' x v' z'
  end.

Definition gcmMul (x y : N) : N := mul_loop 128 x y 0.

(** [updateBlocks]: absorbs [data] into [y], 16 bytes at a time, the
    last block padded with zeros. *)
Fixpoint update (fuel : nat) (h y : N) (data : list byte) : N :=
  match fuel, data with
  | S fuel', _ :: _ =>
      let blk := firstn 16 data in
      let x := be_value 0 (blk ++ repeat x00 (16 - List.length blk)) in
      update fuel' h (gcmMul (N.lxor y x) h) (skipn 16 data)
  | _, _ => y
  end.

(** [g.auth(out, ciphertext, additionalData, tagMask)] *)
Definition auth (g : AEAD) (ciphertext additionalData tagMask : list byte) : list byte :=
  let h := be_value 0 (aes.Encrypt (block g) (repeat x00 16)) in
  let y1 := update (List.length additionalData) h 0 additionalData in
  let y2 := update (List.length ciphertext) h y1 ciphertext in
  let lens := N.lor (N.shiftl (N.of_nat (List.length additionalData) * 8) 64)
                    (N.of_nat (List.length ciphertext) * 8) in
  let y3 := gcmMul (N.lxor y2 lens) h in
  xorBytes (be_bytes 16 y3) tagMask.

(** [g.deriveCounter(counter, nonce)] for the standard nonce size. *)
Definition deriveCounter (nonce : list byte) : list byte :=
  nonce ++ [x00; x00; x00; x01].

(** [gcmInc32]: the last four bytes, as a big-endian integer, plus one
    modulo 2^32. *)
Definition gcmInc32 (counter : list byte) : list byte :=
  firstn 12 counter ++ be_bytes 4 (be_value 0 (skipn 12 counter) + 1).

(** [g.counterCrypt(out, in, counter)] *)
Fixpoint counterCrypt (fuel : nat) (g : AEAD) (input counter : list byte) : list byte :=
  match fuel, input with
  | S fuel', _ :: _ =>
      let mask := aes.Encrypt (block g) counter in
      xorBytes (firstn 16 input) mask
        ++ counterCrypt fuel' g (skipn 16 input) (gcmInc32 counter)
  | _, _ => []
  end.

(** [g.Seal(nil, nonce, plaintext, data)]. GCM's cap on the message
    length, (2^32 - 2) blocks or 64 GiB, is outside the model, as memory
    limits are. *)
Definition Seal (g : AEAD) (nonce plaintext data : list byte) : result (list byte) :=
  if negb (List.length nonce =? nonceSize g)%nat
  then Panic "crypto/cipher: incorrect nonce length given to GCM"
  else
    let counter := deriveCounter nonce in
    let tagMask := aes.Encrypt (block g) counter in
    let out := counterCrypt (List.length plaintext) g plaintext (gcmInc32 counter) in
    let tag := auth g out data tagMask in
    Ok (out ++ tag).

(** [subtle.ConstantTimeCompare(x, y) == 1] *)
Definition ConstantTimeCompare (x y : list byte) : bool :=
  (List.length x =? List.length y)%nat
  && forallb (fun p => Byte.eqb (fst p) (snd p)) (combine x y).

(** [g.Open(nil, nonce, ciphertext, data)], with the same proviso. *)
Definition Open (g : AEAD) (nonce ciphertext data : list byte) : result (list byte) :=
  if negb (List.length nonce =? nonceSize g)%nat
  then Panic "crypto/cipher: incorrect nonce length given to GCM"
  else if (List.length ciphertext <? tagSize g)%nat
  then Err cipher_errOpen
  else
    let n := (List.length ciphertext - tagSize g)%nat in
    let tag := skipn n ciphertext in
    let ct := firstn n ciphertext in
    let counter := deriveCounter nonce in
    let tagMask := aes.Encrypt (block g) counter in
    let expectedTag := auth g ct data tagMask in
    if negb (ConstantTimeCompare (firstn (tagSize g) expectedTag) tag)
    then Err cipher_errOpen
    else Ok (counterCrypt (List.length ct) g ct (gcmInc32 counter)).

End cipher.

(** ** Readers and slices *)

(** An [io.Reader] is the finite sequence of bytes it delivers before
    end of file. [io.ReadFull(r, buf)] fills [buf] or fails: with
    [io.EOF] when nothing could be read, with [io.ErrUnexpectedEOF] when
    the reader ends early. It returns what is left of the reader. *)
Definition io_ReadFull (r : list byte) (n : nat) : result (list byte) * list byte :=
  if (n <=? List.length r)%nat then (Ok (firstn n r), skipn n r)
  else match r with
       | [] => (Err io_EOF, [])
       | _ => (Err io_ErrUnexpectedEOF, [])
       end.

(** A byte slice: the backing array from the slice's first element on
    (its length is the capacity) and the slice's length. *)
Record slice := { arr : list byte; len : nat }.

Definition cap (s : slice) : nat := List.length (arr s).

(** [make([]byte, n)] *)
Definition make (n : nat) : slice := {| arr := repeat x00 n; len := n |}.

(** The elements of a slice. *)
Definition elems (s : slice) : list byte := firstn (len s) (arr s).

(** [s[:hi]]: the bound is the capacity. *)
Definition slice_to (s : slice) (hi : nat) : result slice :=
  if (cap s <? hi)%nat then Panic "slice bounds out of range"
  else Ok {| arr := arr s; len := hi |}.

(** [s[lo:]]: the bound is the length. *)
Definition slice_from (s : slice) (lo : nat) : result slice :=
  if (len s <? lo)%nat then Panic "slice bounds out of range"
  else Ok {| arr := skipn lo (arr s); len := len s - lo |}.

(** [n, err := base64.StdEncoding.Decode(dst, src)]: the decoded bytes
    overwrite the front of [dst]; writing past its end panics. *)
Definition Decode_into (dst : slice) (src : list byte)
  : result (slice * nat * option error) :=
  let '(written, err) := base64.Decode src in
  let n := List.length written in
  if (cap dst <? n)%nat then Panic "index out of range"
  else Ok ({| arr := written ++ skipn n (arr dst); len := len dst |}, n, err).

(** ** The value codec (serialize.go) *)

(** [encrypt(plaintext, key)]; [rand] is crypto/rand.Reader, returned
    with the nonce consumed. *)
Definition encrypt (plaintext key : list byte) (rand : list byte)
  : result string * list byte :=
  match aes.NewCipher key with
  | Err e => (Err (errors_WithMessage e "invalid encrypt key"), rand)
  | Panic m => (Panic m, rand)
  | Ok block =>
      match cipher.NewGCM block with
      | Err e => (Err (errors_WithMessage e "GCM error"), rand)
      | Panic m => (Panic m, rand)
      | Ok mode =>
          match io_ReadFull rand (cipher.NonceSize mode) with
          | (Err e, rand') => (Err (errors_WithMessage e "make nonce error"), rand')
          | (Panic m, rand') => (Panic m, rand')
          | (Ok nonce, rand') =>
              match cipher.Seal mode nonce plaintext [] with
              | Err e => (Err e, rand')
              | Panic m => (Panic m, rand')
              | Ok encrypted =>
                  (* use base64 encoding nonce and encrypted data *)
                  let buf := list_byte_of_string "v01" in
                  let encoder := base64.NewEncoder buf in
                  let encoder := base64.Write encoder nonce in
                  let encoder := base64.Write encoder encrypted in
                  let encoder := base64.Close encoder in
                  (Ok (string_of_list_byte (base64.out encoder)), rand')
              end
          end
      end
  end.

(** [decrypt(encryptedText, key)] *)
Definition decrypt (encryptedText : string) (key : list byte) : result (list byte) :=
  if negb (String.prefix "v01" encryptedText)
  then Err (errors_New "invalid value")
  else
    let encryptedData := make (base64.DecodedLen (String.length encryptedText - 3)) in
    match Decode_into encryptedData (skipn 3 (list_byte_of_string encryptedText)) with
    | Panic m => Panic m
    | Err e => Err e
    | Ok (_, _, Some err) => Err (errors_WithMessage err "base64 decode error")
    | Ok (encryptedData, n, None) =>
        match slice_to encryptedData n with
        | Panic m => Panic m
        | Err e => Err e
        | Ok encryptedData =>
            match aes.NewCipher key with
            | Panic m => Panic m
            | Err _ => Err (errors_New "invalid decrypt key")
            | Ok block =>
                match cipher.NewGCM block with
                | Panic m => Panic m
                | Err e => Err (errors_WithMessage e "GCM error")
                | Ok mode =>
                    match slice_to encryptedData (cipher.NonceSize mode) with
                    | Panic m => Panic m
                    | Err e => Err e
                    | Ok nonce =>
                        match slice_from encryptedData (cipher.NonceSize mode) with
                        | Panic m => Panic m
                        | Err e => Err e
                        | Ok ciphertext =>
                            cipher.Open mode (elems nonce) (elems ciphertext) []
                        end
                    end
                end
            end
        end
    end.

(** ** encoding/json: the scanner and [Decoder.Decode] into a RawMessage *)

Module json.

(** The scanner's opcodes. *)
Inductive scan :=
| scanContinue | scanBeginLiteral | scanBeginObject | scanObjectKey
| scanObjectValue | scanEndObject | scanBeginArray | scanArrayValue
| scanEndArray | scanSkipSpace | scanEnd | scanError.

Inductive parse := parseObjectKey | parseObjectValue | parseArrayValue.

(** The scanner's step functions, as a state. *)
Inductive state :=
| stateBeginValueOrEmpty | stateBeginValue | stateBeginStringOrEmpty
| stateBeginString | stateEndValue | stateEndTop
| stateInString | stateInStringEsc | stateInStringEscU | stateInStringEscU1
| stateInStringEscU12 | stateInStringEscU123
| stateNeg | state1 | state0 | stateDot | stateDot0 | stateE | stateESign | stateE0
| stateT | stateTr | stateTru | stateF | stateFa | stateFal | stateFals
| stateN | stateNu | stateNul | stateError.

(** The scanner; [parseState] has the innermost composite first. *)
Record scanner := {
  step : state;
  endTop : bool;
  parseState : list parse;
  err : option error;
  bytes : Z
}.

Definition maxNestingDepth : N := 10000.

(** [s.reset()] on a new scanner. *)
Definition reset : scanner :=
  {| step := stateBeginValue; endTop := false; parseState := []; err := None; bytes := 0 |}.

Definition set_step (s : scanner) (st : state) : scanner :=
  {| step := st; endTop := endTop s; parseState := parseState s; err := err s; bytes := bytes s |}.

Definition set_parse (s : scanner) (ps : list parse) : scanner :=
  {| step := step s; endTop := endTop s; parseState := ps; err := err s; bytes := bytes s |}.

Definition count_byte (s : scanner) (d : Z) : scanner :=
  {| step := step s; endTop := endTop s; parseState := parseState s; err := err s;
     bytes := bytes s + d |}.

(** [s.error(c, context)] *)
Definition error_at (s : scanner) (c : byte) (context : string) : scanner * scan :=
  ({| step := stateError; endTop := endTop s; parseState := parseState s;
      err := Some (json_SyntaxError c context (bytes s)); bytes := bytes s |},
   scanError).

Definition isSpace (c : byte) : bool :=
  match c with
  | " " | "009" | "013" | "010" => true
  | _ => false
  end%byte.

Definition isDigit (c : byte) : bool :=
  (48 <=? Byte.to_N c)%N && (Byte.to_N c <=? 57)%N.

Definition isDigit19 (c : byte) : bool :=
  (49 <=? Byte.to_N c)%N && (Byte.to_N c <=? 57)%N.

Definition isHex (c : byte) : bool :=
  isDigit c
  || ((97 <=? Byte.to_N c)%N && (Byte.to_N c <=? 102)%N)
  || ((65 <=? Byte.to_N c)%N && (Byte.to_N c <=? 70)%N).

(** [s.pushParseState(c, newParseState, successState)] *)
Definition pushParseState (s : scanner) (c : byte) (p : parse) (ok : scan)
  : scanner * scan :=
  let s' := set_parse s (p :: parseState s) in
  if (N.of_nat (List.length (parseState s')) <=? maxNestingDepth)%N
  then (s', ok)
  else error_at s' c "exceeded max depth".

(** [s.popParseState()] *)
Definition popParseState (s : scanner) : scanner :=
  match tl (parseState s) with
  | [] => {| step := stateEndTop; endTop := true; parseState := [];
             err := err s; bytes := bytes s |}
  | ps => {| step := stateEndValue; endTop := endTop s; parseState := ps;
             err := err s; bytes := bytes s |}
  end.

Definition do_stateEndTop (s : scanner) (c : byte) : scanner * scan :=
  if negb (isSpace c)
  then (fst (error_at s c "after top-level value"), scanEnd)
  else (s, scanEnd).

Definition do_stateEndValue (s : scanner) (c : byte) : scanner * scan :=
  match parseState s with
  | [] =>
      do_stateEndTop {| step := stateEndTop; endTop := true; parseState := [];
                        err := err s; bytes := bytes s |} c
  | ps :: rest =>
      if isSpace c then (set_step s stateEndValue, scanSkipSpace)
      else
        match ps with
        | parseObjectKey =>
            if Byte.eqb c ":"
            then (set_step (set_parse s (parseObjectValue :: rest)) stateBeginValue,
                  scanObjectKey)
            else error_at s c "after object key"
        | parseObjectValue =>
            if Byte.eqb c ","
            then (set_step (set_parse s (parseObjectKey :: rest)) stateBeginString,
                  scanObjectValue)
            else if Byte.eqb c "}"
            then (popParseState s, scanEndObject)
            else error_at s c "after object key:value pair"
        | parseArrayValue =>
            if Byte.eqb c ","
            then (set_step s stateBeginValue, scanArrayValue)
            else if Byte.eqb c "]"
            then (popParseState s, scanEndArray)
            else error_at s c "after array element"
        end
  end.

Definition do_stateBeginValue (s : scanner) (c : byte) : scanner * scan :=
  if isSpace c then (s, scanSkipSpace)
  else
    match c with
    | "{" => pushParseState (set_step s stateBeginStringOrEmpty) c parseObjectKey scanBeginObject
    | "[" => pushParseState (set_step s stateBeginValueOrEmpty) c parseArrayValue scanBeginArray
    | x22 => (set_step s stateInString, scanBeginLiteral)
    | "-" => (set_step s stateNeg, scanBeginLiteral)
    | "0" => (set_step s state0, scanBeginLiteral)
    | "t" => (set_step s stateT, scanBeginLiteral)
    | "f" => (set_step s stateF, scanBeginLiteral)
    | "n" => (set_step s stateN, scanBeginLiteral)
    | _ =>
        if isDigit19 c then (set_step s state1, scanBeginLiteral)
        else error_at s c "looking for beginning of value"
    end%byte.

Definition do_stateBeginString (s : scanner) (c : byte) : scanner * scan :=
  if isSpace c then (s, scanSkipSpace)
  else if Byte.eqb c x22
  then (set_step s stateInString, scanBeginLiteral)
  else error_at s c "looking for beginning of object key string".

Definition do_state0 (s : scanner) (c : byte) : scanner * scan :=
  if Byte.eqb c "." then (set_step s stateDot, scanContinue)
  else if Byte.eqb c "e" || Byte.eqb c "E" then (set_step s stateE, scanContinue)
  else do_stateEndValue s c.

Definition do_stateESign (s : scanner) (c : byte) : scanner * scan :=
  if isDigit c then (set_step s stateE0, scanContinue)
  else error_at s c "in exponent of numeric literal".

(** A state of the form "expect byte [want], go to [next]". *)
Definition expect (s : scanner) (c want : byte) (next : state) (context : string)
  : scanner * scan :=
  if Byte.eqb c want then (set_step s next, scanContinue)
  else error_at s c context.

Definition expect_hex (s : scanner) (c : byte) (next : state) : scanner * scan :=
  if isHex c then (set_step s next, scanContinue)
  else error_at s c "in \u hexadecimal character escape".

(** [s.step(s, c)] *)
Definition do_step (s : scanner) (c : byte) : scanner * scan :=
  match step s with
  | stateBeginValueOrEmpty =>
      if isSpace c then (s, scanSkipSpace)
      else if Byte.eqb c "]" then do_stateEndValue s c
      else do_stateBeginValue s c
  | stateBeginValue => do_stateBeginValue s c
  | stateBeginStringOrEmpty =>
      if isSpace c then (s, scanSkipSpace)
      else if Byte.eqb c "}"
      then do_stateEndValue (set_parse s (parseObjectValue :: tl (parseState s))) c
      else do_stateBeginString s c
  | stateBeginString => do_stateBeginString s c
  | stateEndValue => do_stateEndValue s c
  | stateEndTop => do_stateEndTop s c
  | stateInString =>
      if Byte.eqb c x22 then (set_step s stateEndValue, scanContinue)
      else if Byte.eqb c x5c then (set_step s stateInStringEsc, scanContinue)
      else if (Byte.to_N c <? 32)%N then error_at s c "in string literal"
      else (s, scanContinue)
  | stateInStringEsc =>
      match c with
      | "b" | "f" | "n" | "r" | "t" | x5c | "/" | x22 =>
          (set_step s stateInString, scanContinue)
      | "u" => (set_step s stateInStringEscU, scanContinue)
      | _ => error_at s c "in string escape code"
      end%byte
  | stateInStringEscU => expect_hex s c stateInStringEscU1
  | stateInStringEscU1 => expect_hex s c stateInStringEscU12
  | stateInStringEscU12 => expect_hex s c stateInStringEscU123
  | stateInStringEscU123 => expect_hex s c stateInString
  | stateNeg =>
      if Byte.eqb c "0" then (set_step s state0, scanContinue)
      else if isDigit19 c then (set_step s state1, scanContinue)
      else error_at s c "in numeric literal"
  | state1 =>
      if isDigit c then (set_step s state1, scanContinue)
      else do_state0 s c
  | state0 => do_state0 s c
  | stateDot =>
      if isDigit c then (set_step s stateDot0, scanContinue)
      else error_at s c "after decimal point in numeric literal"
  | stateDot0 =>
      if isDigit c then (s, scanContinue)
      else if Byte.eqb c "e" || Byte.eqb c "E" then (set_step s stateE, scanContinue)
      else do_stateEndValue s c
  | stateE =>
      if Byte.eqb c "+" || Byte.eqb c "-" then (set_step s stateESign, scanContinue)
      else do_stateESign s c
  | stateESign => do_stateESign s c
  | stateE0 =>
      if isDigit c then (s, scanContinue)
      else do_stateEndValue s c
  | stateT => expect s c "r" stateTr "in literal true (expecting 'r')"
  | stateTr => expect s c "u" stateTru "in literal true (expecting 'u')"
  | stateTru => expect s c "e" stateEndValue "in literal true (expecting 'e')"
  | stateF => expect s c "a" stateFa "in literal false (expecting 'a')"
  | stateFa => expect s c "l" stateFal "in literal false (expecting 'l')"
  | stateFal => expect s c "s" stateFals "in literal false (expecting 's')"
  | stateFals => expect s c "e" stateEndValue "in literal false (expecting 'e')"
  | stateN => expect s c "u" stateNu "in literal null (expecting 'u')"
  | stateNu => expect s c "l" stateNul "in literal null (expecting 'l')"
  | stateNul => expect s c "l" stateEndValue "in literal null (expecting 'l')"
  | stateError => (s, scanError)
  end.

(** [nonSpace(b)] *)
Definition nonSpace (b : list byte) : bool := existsb (fun c => negb (isSpace c)) b.

(** [dec.readValue()] on a decoder whose reader delivers [rest] after
    the [scanp] bytes already scanned: the length of the first value,
    or the error. The result does not depend on how the reader cuts the
    stream into reads; [buf] is the whole stream. *)
Fixpoint readValue (buf : list byte) (s : scanner) (scanp : nat) (rest : list byte)
  : result nat :=
  match rest with
  | [] =>
      (* the reader returned io.EOF *)
      if match snd (do_step s " ") with scanEnd => true | _ => false end
      then Ok scanp
      else if nonSpace buf then Err io_ErrUnexpectedEOF
      else Err io_EOF
  | c :: rest' =>
      let '(s', code) := do_step (count_byte s 1) c in
      match code with
      | scanEnd => Ok scanp
      | scanEndObject | scanEndArray =>
          match do_stateEndValue s' " " with
          | (_, scanEnd) => Ok (S scanp)
          | (s'', _) => readValue buf s'' (S scanp) rest'
          end
      | scanError =>
          match err s' with
          | Some e => Err e
          | None => Err (json_SyntaxError c EmptyString (bytes s'))
          end
      | _ => readValue buf s' (S scanp) rest'
      end
  end.

Fixpoint skip_space (b : list byte) : list byte :=
  match b with
  | c :: b' => if isSpace c then skip_space b' else b
  | [] => []
  end.

(** [json.NewDecoder(r).Decode(&data)] for [data] a [json.RawMessage]:
    the text of the first JSON value of the stream, without the white
    space before it. *)
Definition Decode (r : list byte) : result (list byte) :=
  match readValue r reset 0 r with
  | Ok n => Ok (skip_space (firstn n r))
  | Err e => Err e
  | Panic m => Panic m
  end.

End json.

(** ** Entries and the jar *)

(** Instants and durations are integers, in microseconds. *)
Definition Time := Z.

(** Modelled from the spec: the [entry] struct of jar.go, with the fields
    the data model names (Domain, Path, Name identify the cookie; Value
    holds plaintext; EncryptedValue holds the ciphertext text form;
    Persistent; Expires) and the canonical host the entries are sorted
    by. *)
Record entry := {
  Name : string;
  Value : string;
  EncryptedValue : string;
  Domain : string;
  Path : string;
  Persistent : bool;
  Expires : Time;
  CanonicalHost : string
}.

(** Modelled from the spec: the [Jar] struct of jar.go: the target
    filename, the optional encryption key, and the mapping from canonical
    host to a sub-collection of entries (keyed by entry id). *)
Record Jar := {
  filename : string;
  encryptedKey : list byte;
  entries : gmap string (gmap string entry)
}.

Definition with_entries (j : Jar) (m : gmap string (gmap string entry)) : Jar :=
  {| filename := filename j; encryptedKey := encryptedKey j; entries := m |}.

(** Modelled from the spec: [deleteExpired] of jar.go, "purges from the
    in-memory store all entries whose Expires is at or before now". *)
Definition deleteExpired (j : Jar) (now : Time) : Jar :=
  with_entries j (filter (fun kv => (now < Expires (snd kv))%Z) <$> entries j).

(** Modelled from the spec: the order [byCanonicalHost] of jar.go,
    "sorted primarily by canonical host name (ascending) and secondarily
    by descending path length". *)
Definition byCanonicalHost_Less (e0 e1 : entry) : bool :=
  if negb (String.eqb (CanonicalHost e0) (CanonicalHost e1))
  then String.ltb (CanonicalHost e0) (CanonicalHost e1)
  else (String.length (Path e1) <? String.length (Path e0))%nat.

Fixpoint sort_insert (e : entry) (l : list entry) : list entry :=
  match l with
  | [] => [e]
  | x :: l' => if byCanonicalHost_Less e x then e :: l else x :: sort_insert e l'
  end.

(** [sort.Sort(byCanonicalHost{entries})]. Go's sort leaves the order of
    entries that compare equal unspecified; an insertion sort fixes one. *)
Definition sort_Sort (l : list entry) : list entry := foldr sort_insert [] l.

(** The entries met by [for _, submap := range j.entries { for _, e :=
    range submap {...} }]. Go leaves the iteration order of a map
    unspecified; the order of [map_to_list] fixes one. *)
Definition range_entries (j : Jar) : list entry :=
  concat (List.map (fun kv => List.map snd (map_to_list (snd kv))) (map_to_list (entries j))).

Definition set_encrypted (e : entry) (text : string) : entry :=
  {| Name := Name e; Value := EmptyString; EncryptedValue := text; Domain := Domain e;
     Path := Path e; Persistent := Persistent e; Expires := Expires e;
     CanonicalHost := CanonicalHost e |}.

(** The loop of [allPersistentEntries] over the entries [es]. *)
Fixpoint collect (key : list byte) (es : list entry) (rand : list byte)
  : result (list entry) * list byte :=
  match es with
  | [] => (Ok [], rand)
  | e :: es' =>
      if Persistent e then
        if (0 <? List.length key)%nat then
          match encrypt (list_byte_of_string (Value e)) key rand with
          | (Err err, rand') => (Err (errors_WithMessage err "encrypt value error"), rand')
          | (Panic m, rand') => (Panic m, rand')
          | (Ok text, rand') =>
              match collect key es' rand' with
              | (Ok l, rand'') => (Ok (set_encrypted e text :: l), rand'')
              | r => r
              end
          end
        else
          match collect key es' rand with
          | (Ok l, rand') => (Ok (e :: l), rand')
          | r => r
          end
      else collect key es' rand
  end.

(** [j.allPersistentEntries()] *)
Definition allPersistentEntries (j : Jar) (rand : list byte)
  : result (list entry) * list byte :=
  match collect (encryptedKey j) (range_entries j) rand with
  | (Ok l, rand') => (Ok (sort_Sort l), rand')
  | r => r
  end.

(** ** The world: clock, file system, lock holders, entropy, log *)

Inductive sysop :=
| OpStat (path : string)
| OpOpen (path : string)
| OpOpenFile (path : string)
| OpTruncate (path : string)
| OpSeek (path : string)
| OpWrite (path : string)
| OpRemove (path : string).

(** What one non-blocking [TryLock] finds. *)
Inductive TryResult := TryLocked | TryBusy | TryFailed (errno : Errno).

(** A line written by [log.Printf(format, err)]. *)
Inductive log_line := log_Printf (format : string) (arg : error).

Record World := {
  now : Time;                             (* time.Now() *)
  windows : bool;                         (* the build includes the Windows file *)
  files : gmap string (list byte);        (* regular files and their content *)
  dirs : gset string;                     (* directories *)
  fault : sysop -> option Errno;          (* system calls that fail, and how *)
  flock : string -> nat -> TryResult;     (* what the i-th TryLock on a path finds *)
  timer_first : bool;                     (* a timer and a deadline due at the same
                                             instant: the timer is seen first *)
  rand : list byte;                       (* crypto/rand.Reader *)
  log : list log_line                     (* the standard logger's output *)
}.

Definition set_files (w : World) (fs : gmap string (list byte)) : World :=
  {| now := now w; windows := windows w; files := fs; dirs := dirs w; fault := fault w;
     flock := flock w; timer_first := timer_first w; rand := rand w; log := log w |}.

Definition set_rand (w : World) (r : list byte) : World :=
  {| now := now w; windows := windows w; files := files w; dirs := dirs w; fault := fault w;
     flock := flock w; timer_first := timer_first w; rand := r; log := log w |}.

Definition set_now (w : World) (t : Time) : World :=
  {| now := t; windows := windows w; files := files w; dirs := dirs w; fault := fault w;
     flock := flock w; timer_first := timer_first w; rand := rand w; log := log w |}.

Definition log_Print (w : World) (l : log_line) : World :=
  {| now := now w; windows := windows w; files := files w; dirs := dirs w; fault := fault w;
     flock := flock w; timer_first := timer_first w; rand := rand w; log := log w ++ [l] |}.

(** [os.IsNotExist(err)] *)
Definition os_IsNotExist (e : error) : bool :=
  match e with
  | os_PathError _ _ ENOENT => true
  | _ => false
  end.

(** [os.Stat(path)], the FileInfo dropped. *)
Definition os_Stat (w : World) (path : string) : result unit :=
  match fault w (OpStat path) with
  | Some errno => Err (os_PathError "stat" path errno)
  | None =>
      if bool_decide (path ∈ dirs w) || bool_decide (is_Some (files w !! path))
      then Ok tt
      else Err (os_PathError "stat" path ENOENT)
  end.

(** An open [*os.File]. *)
Record File := { file_path : string }.

(** [os.Open(path)] *)
Definition os_Open (w : World) (path : string) : result File :=
  match fault w (OpOpen path) with
  | Some errno => Err (os_PathError "open" path errno)
  | None =>
      match files w !! path with
      | Some _ => Ok {| file_path := path |}
      | None => Err (os_PathError "open" path ENOENT)
      end
  end.

(** The file at [path] exists afterwards: an open with O_CREATE. *)
Definition create (w : World) (path : string) : World :=
  match files w !! path with
  | Some _ => w
  | None => set_files w (<[path := []]> (files w))
  end.

(** [os.OpenFile(path, os.O_RDWR|os.O_CREATE, 0600)] *)
Definition os_OpenFile (w : World) (path : string) : result File * World :=
  match fault w (OpOpenFile path) with
  | Some errno => (Err (os_PathError "open" path errno), w)
  | None => (Ok {| file_path := path |}, create w path)
  end.

(** What a reader of the file delivers from offset 0. *)
Definition content (w : World) (f : File) : list byte :=
  default [] (files w !! file_path f).

(** [f.Truncate(0)] *)
Definition File_Truncate0 (w : World) (f : File) : result unit * World :=
  match fault w (OpTruncate (file_path f)) with
  | Some errno => (Err (os_PathError "truncate" (file_path f) errno), w)
  | None => (Ok tt, set_files w (<[file_path f := []]> (files w)))
  end.

(** [f.Seek(0, 0)] *)
Definition File_Seek0 (w : World) (f : File) : result unit :=
  match fault w (OpSeek (file_path f)) with
  | Some errno => Err (os_PathError "seek" (file_path f) errno)
  | None => Ok tt
  end.

(** [f.Write(b)] on a file truncated to zero length and rewound: the
    bytes are appended to what the handle wrote before. *)
Definition File_Write (w : World) (f : File) (b : list byte) : result unit * World :=
  match fault w (OpWrite (file_path f)) with
  | Some errno => (Err (os_PathError "write" (file_path f) errno), w)
  | None => (Ok tt, set_files w (<[file_path f := content w f ++ b]> (files w)))
  end.

(** [os.Remove(path)], the error dropped. *)
Definition os_Remove (w : World) (path : string) : World :=
  match fault w (OpRemove path) with
  | Some _ => w
  | None => set_files w (delete path (files w))
  end.

(** ** internal.LockFile *)

Module internal.

(** [lockFileName(path)]: the Windows file's [init] replaces the default. *)
Definition lockFileName (w : World) (path : string) : string :=
  if windows w then path ++ ".lock" else path.

(** [100*time.Millisecond], the timeout of the context. *)
Definition lockTimeout : Time := 100000%Z.

(** [100*time.Microsecond], the delay between two attempts. *)
Definition retryDelay : Time := 100%Z.

(** How many times [time.After(retryDelay)] is seen before [ctx.Done()]:
    the k-th timer is due [k * retryDelay] after the start, the deadline
    [lockTimeout] after it; an attempt takes no time. *)
Definition timers (timer_first : bool) : nat :=
  Z.to_nat (if timer_first then lockTimeout / retryDelay
            else (lockTimeout - 1) / retryDelay)%Z.

(** The loop of [lock.TryLockContext(ctx, retryDelay)]: [fn] is the
    non-blocking attempt, [t] the time since the context was made. It
    returns [ok], [err] and the time of the return. *)
Fixpoint tryCtx (fn : nat -> TryResult) (name : string) (timers attempt : nat) (t : Time)
  : bool * option error * Time :=
  match fn attempt with
  | TryLocked => (true, None, t)
  | TryFailed errno => (false, Some (os_PathError "flock" name errno), t)
  | TryBusy =>
      match timers with
      | O => (false, Some context_DeadlineExceeded, lockTimeout)  (* <-ctx.Done() *)
      | S timers' => tryCtx fn name timers' (S attempt) (t + retryDelay)%Z
      end
  end.

(** [errors.Is(err, context.DeadlineExceeded)] *)
Fixpoint is_DeadlineExceeded (e : error) : bool :=
  match e with
  | context_DeadlineExceeded => true
  | errors_WithMessage cause _ => is_DeadlineExceeded cause
  | _ => false
  end.

(** The [io.Closer] made by [newCloser(lock)]. *)
Record Closer := { lock_path : string }.

(** [LockFile(path)]. An attempt opens the lock file with O_CREATE
    before it asks for the lock. *)
Definition LockFile (w : World) (path : string) : result Closer * World :=
  let name := lockFileName w path in
  let '(_, err, t) := tryCtx (flock w name) name (timers (timer_first w)) 0 0%Z in
  let w1 := match flock w name 0 with
            | TryFailed _ => w
            | _ => create w name
            end in
  let w2 := set_now w1 (now w + t)%Z in
  match err with
  | Some e =>
      if is_DeadlineExceeded e
      then (Err (errors_New "try lock timeout"), w2)
      else (Err e, w2)
  | None => (Ok {| lock_path := name |}, w2)
  end.

(** [closer.Close()], the error dropped: [flockCloserWin] closes the lock
    and removes the lock file; elsewhere the closer is the lock itself. *)
Definition Close (w : World) (c : Closer) : World :=
  if windows w then os_Remove w (lock_path c) else w.

End internal.

(** ** The persistence transaction (serialize.go) *)

Section PersistStore.

(** [json.Unmarshal(data, &entries)] for [entries] a [[]entry]; the JSON
    form of an entry belongs to jar.go. *)
Variable json_Unmarshal : list byte -> result (list entry).

(** [json.Marshal(entries)]; "marshaling entries can never fail". *)
Variable json_Marshal : list entry -> list byte.

(** [j.merge(entries)] of jar.go, the entry store's merge. *)
Variable merge : Jar -> list entry -> result unit * Jar.

(** [filepath.Dir(path)] *)
Variable filepath_Dir : string -> string.

Definition invalid_format : string :=
  "warning: discarding cookies in invalid format (error: %v)".

Definition cannot_read : string :=
  "cannot read cookie file to merge it; ignoring it: %v".

(** [j.mergeFrom(r)] *)
Definition mergeFrom (j : Jar) (r : list byte) (w : World) : result unit * Jar * World :=
  match json.Decode r with
  | Err io_EOF => (Ok tt, j, w)              (* Empty file. *)
  | Err err => (Err err, j, w)
  | Panic m => (Panic m, j, w)
  | Ok data =>
      match json_Unmarshal data with
      | Err err => (Ok tt, j, log_Print w (log_Printf invalid_format err))
      | Panic m => (Panic m, j, w)
      | Ok entries =>
          let '(r, j') := merge j entries in
          (r, j', w)
      end
  end.

(** [j.writeTo(w)]: [encoder.Encode] writes the JSON text and a newline. *)
Definition writeTo (j : Jar) (f : File) (w : World) : result unit * World :=
  match allPersistentEntries j (rand w) with
  | (Ok entries, rand') =>
      File_Write (set_rand w rand') f (json_Marshal entries ++ [base64.LF])
  | (Err err, rand') => (Err err, set_rand w rand')
  | (Panic m, rand') => (Panic m, set_rand w rand')
  end.

(** [j.MarshalJSON()] *)
Definition MarshalJSON (j : Jar) (w : World) : result (list byte) * World :=
  match allPersistentEntries j (rand w) with
  | (Ok entries, rand') => (Ok (json_Marshal entries), set_rand w rand')
  | (Err err, rand') => (Err err, set_rand w rand')
  | (Panic m, rand') => (Panic m, set_rand w rand')
  end.

(** The body of [save] once the file is open. *)
Definition save_locked (j : Jar) (now : Time) (f : File) (w : World)
  : result unit * Jar * World :=
  let '(merged, j1, w1) := mergeFrom j (content w f) w in
  let w2 := match merged with
            | Err err => log_Print w1 (log_Printf cannot_read err)
            | _ => w1
            end in
  match merged with
  | Panic m => (Panic m, j1, w2)
  | _ =>
      let j2 := deleteExpired j1 now in
      match File_Truncate0 w2 f with
      | (Err err, w3) => (Err (errors_WithMessage err "cannot truncate file"), j2, w3)
      | (Panic m, w3) => (Panic m, j2, w3)
      | (Ok _, w3) =>
          match File_Seek0 w3 f with
          | Err err => (Err err, j2, w3)
          | Panic m => (Panic m, j2, w3)
          | Ok _ =>
              let '(r, w4) := writeTo j2 f w3 in
              (r, j2, w4)
          end
      end
  end.

(** [j.save(now)]; the deferred [locked.Close()] runs on every return
    after the lock was taken. *)
Definition save (j : Jar) (now : Time) (w : World) : result unit * Jar * World :=
  match internal.LockFile w (filename j) with
  | (Err err, w1) => (Err err, j, w1)
  | (Panic m, w1) => (Panic m, j, w1)
  | (Ok locked, w1) =>
      match os_OpenFile w1 (filename j) with
      | (Err err, w2) => (Err err, j, internal.Close w2 locked)
      | (Panic m, w2) => (Panic m, j, internal.Close w2 locked)
      | (Ok f, w2) =>
          let '(r, j', w3) := save_locked j now f w2 in
          (r, j', internal.Close w3 locked)
      end
  end.

(** [j.Save()] *)
Definition Save (j : Jar) (w : World) : result unit * Jar * World :=
  if String.eqb (filename j) EmptyString
  then (Ok tt, j, w)
  else save j (now w) w.

(** [j.load()] *)
Definition load (j : Jar) (w : World) : result unit * Jar * World :=
  if match os_Stat w (filepath_Dir (filename j)) with
     | Err err => os_IsNotExist err
     | _ => false
     end
  then (Ok tt, j, w)
  else
    match internal.LockFile w (filename j) with
    | (Err err, w1) => (Err err, j, w1)
    | (Panic m, w1) => (Panic m, j, w1)
    | (Ok locked, w1) =>
        match os_Open w1 (filename j) with
        | Err err =>
            if os_IsNotExist err
            then (Ok tt, j, internal.Close w1 locked)
            else (Err err, j, internal.Close w1 locked)
        | Panic m => (Panic m, j, internal.Close w1 locked)
        | Ok f =>
            let '(r, j', w2) := mergeFrom j (content w1 f) w1 in
            (r, j', internal.Close w2 locked)
        end
    end.

End PersistStore.

(** ** What the serialized entries are *)

(** [serialized key e0 e]: [e] is what [allPersistentEntries] appends for
    the persistent entry [e0] of the jar: [e0] itself without a key; with
    a key, [e0] with its Value encrypted into EncryptedValue (under some
    nonce) and its Value cleared. *)
Definition serialized (key : list byte) (e0 e : entry) : Prop :=
  if (0 <? List.length key)%nat
  then exists rand rand',
         encrypt (list_byte_of_string (Value e0)) key rand = (Ok (EncryptedValue e), rand')
         /\ e = set_encrypted e0 (EncryptedValue e)
  else e = e0.

(** The entries of the jar, by lookup. *)
Definition in_jar (j : Jar) (e : entry) : Prop :=
  exists host submap id, entries j !! host = Some submap /\ submap !! id = Some e.

(** ** A small entry store and world, for examples *)

Module example.

(** Entries are written as the list of their names. *)
Definition Marshal (l : list entry) : list byte :=
  list_byte_of_string ("[" ++ String.concat "," (List.map Name l) ++ "]").

(** Only the empty array and null are read back. *)
Definition Unmarshal (data : list byte) : result (list entry) :=
  if String.eqb (string_of_list_byte data) "[]" || String.eqb (string_of_list_byte data) "null"
  then Ok []
  else Err (json_UnmarshalError "json: cannot unmarshal into Go value of type []cookiejar.entry").

(** The given entries replace the jar's entries of the same host and name. *)
Definition merge (j : Jar) (l : list entry) : result unit * Jar :=
  (Ok tt,
   foldr (fun e j' =>
            with_entries j'
              (<[CanonicalHost e :=
                   <[Name e := e]> (default ∅ (entries j' !! CanonicalHost e))]> (entries j')))
         j l).

Definition Dir (path : string) : string := ".".

Definition session : entry :=
  {| Name := "sid"; Value := "abc"; EncryptedValue := EmptyString; Domain := "example.com";
     Path := "/"; Persistent := true; Expires := 500%Z; CanonicalHost := "example.com" |}.

Definition transient : entry :=
  {| Name := "tmp"; Value := "x"; EncryptedValue := EmptyString; Domain := "example.com";
     Path := "/a"; Persistent := false; Expires := 500%Z; CanonicalHost := "example.com" |}.

Definition stale : entry :=
  {| Name := "old"; Value := "y"; EncryptedValue := EmptyString; Domain := "a.org";
     Path := "/b"; Persistent := true; Expires := 50%Z; CanonicalHost := "a.org" |}.

Definition jar (key : list byte) : Jar :=
  {| filename := "cookies"; encryptedKey := key;
     entries := {[ "example.com" := {[ "sid" := session; "tmp" := transient ]};
                   "a.org" := {[ "old" := stale ]} ]} |}.

(** A world at time 100 where the cookie file holds [text] and the lock
    is busy for the first [busy] attempts. *)
Definition world (text : string) (busy : nat) : World :=
  {| now := 100%Z; windows := false;
     files := {[ "cookies" := list_byte_of_string text ]};
     dirs := {[ "." ]};
     fault := fun _ => None;
     flock := fun _ i => if (i <? busy)%nat then TryBusy else TryLocked;
     timer_first := false;
     rand := repeat x07 64;
     log := [] |}.

End example.

(** [encrypted_entry j e]: [e] is a persistent entry of [j] in the form
    it is serialized in under a key: Value empty, EncryptedValue the
    non-empty text [encrypt] returned for the entry's Value. *)
Definition encrypted_entry (j : Jar) (e : entry) : Prop :=
  Persistent e = true /\ Value e = EmptyString /\ EncryptedValue e <> EmptyString /\
  exists e0 rand rand',
    in_jar j e0 /\
    encrypt (list_byte_of_string (Value e0)) (encryptedKey j) rand
      = (Ok (EncryptedValue e), rand') /\
    e = set_encrypted e0 (EncryptedValue e).

(** ** Auxiliary predicates of the proofs *)

(** [unchanged w w']: the build target, the failing system calls and the
    random source of [w'] are those of [w]. *)
Definition unchanged (w w' : World) : Prop :=
  windows w' = windows w /\ fault w' = fault w /\ rand w' = rand w.

(** The scanner holds no [io.EOF]: its own errors are syntax errors. *)
Definition no_EOF (s : json.scanner) : Prop := json.err s <> Some io_EOF.

(** [touches_only p lock w w']: going from [w] to [w'], no file other
    than [p] and [lock] changed, and the directories, the build target
    and the failing system calls are the same. *)
Definition touches_only (p lock : string) (w w' : World) : Prop :=
  (forall q, q <> p -> q <> lock -> files w' !! q = files w !! q) /\
  dirs w' = dirs w /\ windows w' = windows w /\ fault w' = fault w.

(** ** More worlds, for examples *)

Module scenario.

(** A Windows build: the lock file is "cookies.lock". *)
Definition on_windows : World :=
  {| now := 100%Z; windows := true;
     files := {[ "cookies" := list_byte_of_string "[]" ]};
     dirs := {[ "." ]};
     fault := fun _ => None;
     flock := fun _ _ => TryLocked;
     timer_first := false;
     rand := repeat x07 64;
     log := [] |}.

(** The cookie file cannot be truncated. *)
Definition no_truncate : World :=
  {| now := 100%Z; windows := false;
     files := {[ "cookies" := list_byte_of_string "[]"; "other" := [x01] ]};
     dirs := {[ "." ]};
     fault := fun op => match op with OpTruncate _ => Some EACCES | _ => None end;
     flock := fun _ _ => TryLocked;
     timer_first := false;
     rand := repeat x07 64;
     log := [] |}.

(** No cookie file yet; with or without the directory it goes to. *)
Definition fresh (with_directory on_windows : bool) : World :=
  {| now := 100%Z; windows := on_windows;
     files := ∅;
     dirs := if with_directory then {[ "." ]} else ∅;
     fault := fun _ => None;
     flock := fun _ _ => TryLocked;
     timer_first := false;
     rand := [];
     log := [] |}.

End scenario.

(** * Known answers

    The models of the library code agree with the published test
    vectors. *)

(** RFC 4648, section 10. *)
Example base64_rfc4648 :
  List.map (fun s => base64.EncodeToString (list_byte_of_string s))
           ["f"; "fo"; "foo"; "foob"; "fooba"; "foobar"]
  = ["Zg=="; "Zm8="; "Zm9v"; "Zm9vYg=="; "Zm9vYmE="; "Zm9vYmFy"].
Proof. vm_compute. reflexivity. Qed.

Example base64_decode_ignores_newlines :
  base64.Decode (list_byte_of_string "Zm9v" ++ [base64.CR; base64.LF]
                 ++ list_byte_of_string "YmE=")
  = (list_byte_of_string "fooba", None).
Proof. vm_compute. reflexivity. Qed.

Example base64_decode_missing_padding :
  base64.Decode (list_byte_of_string "Zm9vYg=")
  = (list_byte_of_string "foo", Some (base64_CorruptInputError 7)).
Proof. vm_compute. reflexivity. Qed.

(** FIPS 197, appendix C.1. *)
Example aes128_fips197 :
  match aes.NewCipher
          [x00; x01; x02; x03; x04; x05; x06; x07; x08; x09; x0a; x0b; x0c;
          x0d; x0e; x0f] with
  | Ok c => aes.Encrypt c
          [x00; x11; x22; x33; x44; x55; x66; x77; x88; x99; xaa; xbb; xcc;
          xdd; xee; xff]
  | _ => []
  end
  =
    [x69; xc4; xe0; xd8; x6a; x7b; x04; x30; xd8; xcd; xb7; x80; x70; xb4;
    xc5; x5a].
Proof. vm_compute. reflexivity. Qed.

(** FIPS 197, appendix C.2. *)
Example aes192_fips197 :
  match aes.NewCipher
          [x00; x01; x02; x03; x04; x05; x06; x07; x08; x09; x0a; x0b; x0c;
          x0d; x0e; x0f; x10; x11; x12; x13; x14; x15; x16; x17] with
  | Ok c => aes.Encrypt c
          [x00; x11; x22; x33; x44; x55; x66; x77; x88; x99; xaa; xbb; xcc;
          xdd; xee; xff]
  | _ => []
  end
  =
    [xdd; xa9; x7c; xa4; x86; x4c; xdf; xe0; x6e; xaf; x70; xa0; xec; x0d;
    x71; x91].
Proof. vm_compute. reflexivity. Qed.

(** FIPS 197, appendix C.3. *)
Example aes256_fips197 :
  match aes.NewCipher
          [x00; x01; x02; x03; x04; x05; x06; x07; x08; x09; x0a; x0b; x0c;
          x0d; x0e; x0f; x10; x11; x12; x13; x14; x15; x16; x17; x18; x19;
          x1a; x1b; x1c; x1d; x1e; x1f] with
  | Ok c => aes.Encrypt c
          [x00; x11; x22; x33; x44; x55; x66; x77; x88; x99; xaa; xbb; xcc;
          xdd; xee; xff]
  | _ => []
  end
  =
    [x8e; xa2; xb7; xca; x51; x67; x45; xbf; xea; xfc; x49; x90; x4b; x49;
    x60; x89].
Proof. vm_compute. reflexivity. Qed.

(** The GCM specification (McGrew and Viega), test case 2: a zero key, a
    zero nonce, one zero block. *)
Example gcm_test_case_2 :
  match aes.NewCipher (repeat x00 16) with
  | Ok c =>
      match cipher.NewGCM c with
      | Ok g => cipher.Seal g (repeat x00 12) (repeat x00 16) []
      | _ => Err cipher_errOpen
      end
  | _ => Err cipher_errOpen
  end
  = Ok
      [x03; x88; xda; xce; x60; xb6; xa3; x92; xf3; x28; xc2; xb9; x71; xb2;
      xfe; x78; xab; x6e; x47; xd4; x2c; xec; x13; xbd; xf5; x3a; x67; xb2;
      x12; x57; xbd; xdf].
Proof. vm_compute. reflexivity. Qed.

(** The same, test case 4: a partial last block and additional data. *)
Example gcm_test_case_4 :
  match aes.NewCipher
          [xfe; xff; xe9; x92; x86; x65; x73; x1c; x6d; x6a; x8f; x94; x67;
          x30; x83; x08] with
  | Ok c =>
      match cipher.NewGCM c with
      | Ok g =>
          cipher.Seal g
            [xca; xfe; xba; xbe; xfa; xce; xdb; xad; xde; xca; xf8; x88]
            [xd9; x31; x32; x25; xf8; x84; x06; xe5; xa5; x59; x09; xc5; xaf;
            xf5; x26; x9a; x86; xa7; xa9; x53; x15; x34; xf7; xda; x2e; x4c;
            x30; x3d; x8a; x31; x8a; x72; x1c; x3c; x0c; x95; x95; x68; x09;
            x53; x2f; xcf; x0e; x24; x49; xa6; xb5; x25; xb1; x6a; xed; xf5;
            xaa; x0d; xe6; x57; xba; x63; x7b; x39]
            [xfe; xed; xfa; xce; xde; xad; xbe; xef; xfe; xed; xfa; xce; xde;
            xad; xbe; xef; xab; xad; xda; xd2]
      | _ => Err cipher_errOpen
      end
  | _ => Err cipher_errOpen
  end
  = Ok
      [x42; x83; x1e; xc2; x21; x77; x74; x24; x4b; x72; x21; xb7; x84; xd0;
      xd4; x9c; xe3; xaa; x21; x2f; x2c; x02; xa4; xe0; x35; xc1; x7e; x23;
      x29; xac; xa1; x2e; x21; xd5; x14; xb2; x54; x66; x93; x1c; x7d; x8f;
      x6a; x5a; xac; x84; xaa; x05; x1b; xa3; x0b; x39; x6a; x0a; xac; x97;
      x3d; x58; xe0; x91; x5b; xc9; x4f; xbc; x32; x21; xa5; xdb; x94; xfa;
      xe9; x5a; xe7; x12; x1a; x47].
Proof. vm_compute. reflexivity. Qed.

(** The decoder on streams the cookie file may hold. *)
Example json_Decode_streams :
  List.map (fun s => json.Decode (list_byte_of_string s))
           ["[1, 2] trailing"; "{}"; "123abc"; "garbage"; "[1,"; "tru"]
  = [Ok (list_byte_of_string "[1, 2]");
     Ok (list_byte_of_string "{}");
     Ok (list_byte_of_string "123");
     Err (json_SyntaxError "g" "looking for beginning of value" 1);
     Err io_ErrUnexpectedEOF;
     Err io_ErrUnexpectedEOF].
Proof. vm_compute. reflexivity. Qed.

(** A save over a corrupt file: the error is logged, the expired and the
    session entries are left out, the file is rewritten. *)
Example save_over_garbage :
  let '(r, _, w) :=
    save example.Unmarshal example.Marshal example.merge (example.jar [])
         100%Z (example.world "garbage" 0) in
  (r, files w !! "cookies", log w)
  = (Ok tt,
     Some (list_byte_of_string "[sid]" ++ [base64.LF]),
     [log_Printf cannot_read (json_SyntaxError "g" "looking for beginning of value" 1)]).
Proof. vm_compute. reflexivity. Qed.

(** A decryption of a text made with another key fails to authenticate. *)
Example decrypt_with_other_key :
  match encrypt (list_byte_of_string "abc") (repeat x2a 16) (repeat x07 12) with
  | (Ok text, _) => decrypt text (repeat x2b 16)
  | _ => Ok []
  end
  = Err cipher_errOpen.
Proof. vm_compute. reflexivity. Qed.

Lemma to_N_lt (b : byte) : (Byte.to_N b < 256)%N.
Proof. pose proof (Byte.to_N_bounded b). lia. Qed.

Lemma byte_of_to_N (b : byte) : byte_of_N (Byte.to_N b) = b.
Proof.
  unfold byte_of_N. rewrite N.mod_small by apply to_N_lt.
  now rewrite Byte.of_to_N.
Qed.

Lemma to_N_byte_of_N (n : N) : Byte.to_N (byte_of_N n) = (n mod 256)%N.
Proof.
  unfold byte_of_N.
  destruct (Byte.of_N (n mod 256)) as [b|] eqn:E.
  - now apply Byte.to_of_N.
  - apply Byte.of_N_None_iff in E.
    pose proof (N.mod_upper_bound n 256). lia.
Qed.

Lemma land_mul_pow2_small (x k y : N) :
  (y < 2 ^ k)%N -> N.land (x * 2 ^ k) y = 0%N.
Proof.
  intros Hy. apply N.bits_inj_0. intros n. rewrite N.land_spec.
  destruct (N.lt_ge_cases n k) as [Hn|Hn].
  - rewrite N.mul_pow2_bits_low by trivial. reflexivity.
  - destruct (N.eq_dec y 0%N) as [->|Hy0].
    + rewrite N.bits_0. apply andb_false_r.
    + rewrite (N.bits_above_log2 y n); [apply andb_false_r|].
      apply N.log2_lt_pow2; [lia|].
      apply N.lt_le_trans with (2 ^ k)%N; trivial.
      apply N.pow_le_mono_r; lia.
Qed.

Lemma lor_mul_add (x m y : N) (k : N) :
  m = (2 ^ k)%N -> (y < m)%N -> N.lor (x * m) y = (x * m + y)%N.
Proof.
  intros -> Hy.
  pose proof (land_mul_pow2_small x k y Hy) as H0.
  rewrite <- N.lxor_lor by exact H0.
  symmetry. apply N.add_nocarry_lxor. exact H0.
Qed.

Lemma land_63 (x : N) : N.land x 63 = (x mod 64)%N.
Proof. change 63%N with (N.ones 6). rewrite N.land_ones. reflexivity. Qed.

Ltac divlia := zify; Z.to_euclidean_division_equations; lia.

Lemma sextet_spec (val k : N) :
  base64.sextet val k = base64.encode ((val / 2 ^ k) mod 64).
Proof. unfold base64.sextet. now rewrite land_63, N.shiftr_div_pow2. Qed.

Lemma decodeMap_encode (i : N) : (i < 64)%N -> base64.decodeMap (base64.encode i) = i.
Proof.
  intros H. rewrite <- (N2Nat.id i). assert (Hn : (N.to_nat i < 64)%nat) by lia.
  generalize dependent (N.to_nat i). clear. intros n Hn.
  do 64 (destruct n as [|n]; [reflexivity|]). lia.
Qed.

Lemma val3 (a b c : byte) :
  N.lor (N.lor (N.shiftl (Byte.to_N a) 16) (N.shiftl (Byte.to_N b) 8)) (Byte.to_N c)
  = (Byte.to_N a * 65536 + Byte.to_N b * 256 + Byte.to_N c)%N.
Proof.
  pose proof (to_N_lt a). pose proof (to_N_lt b). pose proof (to_N_lt c).
  rewrite !N.shiftl_mul_pow2.
  change (2 ^ 16)%N with 65536%N; change (2 ^ 8)%N with 256%N.
  rewrite (lor_mul_add _ 65536 _ 16) by (reflexivity || lia).
  replace (Byte.to_N a * 65536 + Byte.to_N b * 256)%N
    with ((Byte.to_N a * 256 + Byte.to_N b) * 256)%N by lia.
  rewrite (lor_mul_add _ 256 _ 8) by (reflexivity || lia).
  reflexivity.
Qed.

Lemma val2 (a b : byte) :
  N.lor (N.shiftl (Byte.to_N a) 16) (N.shiftl (Byte.to_N b) 8)
  = (Byte.to_N a * 65536 + Byte.to_N b * 256)%N.
Proof.
  pose proof (to_N_lt a). pose proof (to_N_lt b).
  rewrite !N.shiftl_mul_pow2.
  change (2 ^ 16)%N with 65536%N; change (2 ^ 8)%N with 256%N.
  rewrite (lor_mul_add _ 65536 _ 16) by (reflexivity || lia).
  reflexivity.
Qed.

Lemma quantum_spec (d0 d1 d2 d3 : N) :
  (d0 < 64)%N -> (d1 < 64)%N -> (d2 < 64)%N -> (d3 < 64)%N ->
  base64.quantum d0 d1 d2 d3 =
  [byte_of_N ((d0 * 262144 + d1 * 4096 + d2 * 64 + d3) / 65536);
   byte_of_N ((d0 * 262144 + d1 * 4096 + d2 * 64 + d3) / 256);
   byte_of_N (d0 * 262144 + d1 * 4096 + d2 * 64 + d3)].
Proof.
  intros H0 H1 H2 H3. unfold base64.quantum.
  assert (E : N.lor (N.lor (N.lor (N.shiftl d0 18) (N.shiftl d1 12)) (N.shiftl d2 6)) d3
              = (d0 * 262144 + d1 * 4096 + d2 * 64 + d3)%N).
  { rewrite !N.shiftl_mul_pow2.
    change (2 ^ 18)%N with 262144%N; change (2 ^ 12)%N with 4096%N; change (2 ^ 6)%N with 64%N.
    rewrite (lor_mul_add _ 262144 _ 18) by (reflexivity || lia).
    replace (d0 * 262144 + d1 * 4096)%N with ((d0 * 64 + d1) * 4096)%N by lia.
    rewrite (lor_mul_add _ 4096 _ 12) by (reflexivity || lia).
    replace ((d0 * 64 + d1) * 4096 + d2 * 64)%N with (((d0 * 64 + d1) * 64 + d2) * 64)%N by lia.
    rewrite (lor_mul_add _ 64 _ 6) by (reflexivity || lia).
    lia. }
  cbv zeta. rewrite E, !N.shiftr_div_pow2. reflexivity.
Qed.

Lemma byte_of_N_mod (n : N) : byte_of_N (n mod 256) = byte_of_N n.
Proof. unfold byte_of_N. now rewrite N.Div0.mod_mod. Qed.

Lemma byte_of_N_eq (n : N) (b : byte) : (n mod 256 = Byte.to_N b)%N -> byte_of_N n = b.
Proof. intros H. rewrite <- byte_of_N_mod, H. apply byte_of_to_N. Qed.

(** Decoding the four characters of a full group. *)
Lemma quantum_of_group (a b c : byte) :
  let val := (Byte.to_N a * 65536 + Byte.to_N b * 256 + Byte.to_N c)%N in
  base64.quantum ((val / 2 ^ 18) mod 64) ((val / 2 ^ 12) mod 64)
                 ((val / 2 ^ 6) mod 64) ((val / 2 ^ 0) mod 64) = [a; b; c].
Proof.
  intros val.
  pose proof (to_N_lt a). pose proof (to_N_lt b). pose proof (to_N_lt c).
  rewrite quantum_spec by (apply N.mod_upper_bound; discriminate).
  change (2 ^ 18)%N with 262144%N; change (2 ^ 12)%N with 4096%N;
    change (2 ^ 6)%N with 64%N; change (2 ^ 0)%N with 1%N.
  f_equal; [|f_equal; [|f_equal]]; apply byte_of_N_eq; subst val; divlia.
Qed.

Lemma quantum_of_2 (a b : byte) :
  let val := (Byte.to_N a * 65536 + Byte.to_N b * 256)%N in
  firstn 2 (base64.quantum ((val / 2 ^ 18) mod 64) ((val / 2 ^ 12) mod 64)
                           ((val / 2 ^ 6) mod 64) 0) = [a; b].
Proof.
  intros val.
  pose proof (to_N_lt a). pose proof (to_N_lt b).
  rewrite quantum_spec by (try (apply N.mod_upper_bound; discriminate); reflexivity).
  change (2 ^ 18)%N with 262144%N; change (2 ^ 12)%N with 4096%N;
    change (2 ^ 6)%N with 64%N.
  cbn [firstn]. f_equal; [|f_equal]; apply byte_of_N_eq; subst val; divlia.
Qed.

Lemma quantum_of_1 (a : byte) :
  let val := N.shiftl (Byte.to_N a) 16 in
  firstn 1 (base64.quantum ((val / 2 ^ 18) mod 64) ((val / 2 ^ 12) mod 64) 0 0) = [a].
Proof.
  intros val. pose proof (to_N_lt a).
  rewrite quantum_spec by (try (apply N.mod_upper_bound; discriminate); reflexivity).
  subst val. rewrite N.shiftl_mul_pow2.
  change (2 ^ 18)%N with 262144%N; change (2 ^ 12)%N with 4096%N;
    change (2 ^ 16)%N with 65536%N.
  cbn [firstn]. f_equal. apply byte_of_N_eq. divlia.
Qed.

Lemma list_ind3 {A} (P : list A -> Prop) :
  P [] -> (forall a, P [a]) -> (forall a b, P [a; b]) ->
  (forall a b c l, P l -> P (a :: b :: c :: l)) ->
  forall l, P l.
Proof.
  intros H0 H1 H2 H3.
  fix IH 1. intros [|a [|b [|c l]]]; [exact H0 | apply H1 | apply H2 | apply H3, IH].
Qed.

Lemma decode_cons total c rest dbuf :
  base64.decode total (c :: rest) dbuf =
  let si := (total - List.length (c :: rest))%nat in
  let o := base64.decodeMap c in
  if negb (o =? 255)%N then
    match dbuf with
    | [d0; d1; d2] =>
        let '(bs, err) := base64.decode total rest [] in
        (base64.quantum d0 d1 d2 o ++ bs, err)
    | _ => base64.decode total rest (dbuf ++ [o])
    end
  else if base64.is_newline c then base64.decode total rest dbuf
  else if negb (Byte.eqb c base64.padChar) then ([], base64.corrupt si)
  else
    match dbuf with
    | [d0; d1] =>
        let r1 := base64.skip_newlines rest in
        match r1 with
        | [] => ([], base64.corrupt total)
        | c2 :: r2 =>
            if negb (Byte.eqb c2 base64.padChar)
            then ([], base64.corrupt (total - List.length r1 - 1))
            else
              let r3 := base64.skip_newlines r2 in
              (firstn 1 (base64.quantum d0 d1 0 0),
               match r3 with
               | [] => None
               | _ => base64.corrupt (total - List.length r3)
               end)
        end
    | [d0; d1; d2] =>
        let r3 := base64.skip_newlines rest in
        (firstn 2 (base64.quantum d0 d1 d2 0),
         match r3 with
         | [] => None
         | _ => base64.corrupt (total - List.length r3)
         end)
    | _ => ([], base64.corrupt si)
    end.
Proof. reflexivity. Qed.

(** Reading a character of the alphabet. *)
Lemma decode_sextet total val k rest dbuf :
  base64.decode total (base64.sextet val k :: rest) dbuf =
  match dbuf with
  | [d0; d1; d2] =>
      let '(bs, err) := base64.decode total rest [] in
      (base64.quantum d0 d1 d2 ((val / 2 ^ k) mod 64) ++ bs, err)
  | _ => base64.decode total rest (dbuf ++ [((val / 2 ^ k) mod 64)%N])
  end.
Proof.
  rewrite decode_cons. cbv zeta.
  rewrite sextet_spec, decodeMap_encode by (apply N.mod_upper_bound; discriminate).
  assert (Hlt : ((val / 2 ^ k) mod 64 < 64)%N) by (apply N.mod_upper_bound; discriminate).
  destruct (N.eqb_spec ((val / 2 ^ k) mod 64) 255) as [E|_]; [lia|].
  reflexivity.
Qed.

Lemma decode_Encode total (x : list byte) :
  base64.decode total (base64.Encode x) [] = (x, None).
Proof.
  induction x as [|a|a b|a b c l IH] using list_ind3.
  - reflexivity.
  - cbn [base64.Encode]. cbv zeta. rewrite !decode_sextet. cbn [app].
    rewrite decode_cons. cbn -[base64.quantum N.div N.modulo N.pow N.shiftl].
    now rewrite (quantum_of_1 a).
  - cbn [base64.Encode]. cbv zeta. rewrite val2, !decode_sextet. cbn [app].
    rewrite decode_cons. cbn -[base64.quantum N.div N.modulo N.pow].
    now rewrite (quantum_of_2 a b).
  - cbn [base64.Encode]. cbv zeta. rewrite val3, !decode_sextet. cbn [app].
    rewrite IH. now rewrite (quantum_of_group a b c).
Qed.

Lemma Decode_Encode (x : list byte) : base64.Decode (base64.Encode x) = (x, None).
Proof. apply decode_Encode. Qed.

Lemma Encode_app (x y : list byte) :
  (List.length x mod 3 = 0)%nat ->
  base64.Encode (x ++ y) = base64.Encode x ++ base64.Encode y.
Proof.
  induction x as [|a|a b|a b c l IH] using list_ind3; cbn [List.length]; intros H.
  - reflexivity.
  - discriminate.
  - discriminate.
  - change ((a :: b :: c :: l) ++ y) with (a :: b :: c :: (l ++ y)).
    cbn [base64.Encode]. cbv zeta. rewrite IH; [reflexivity|].
    change (S (S (S (List.length l)))) with (3 + List.length l)%nat in H.
    replace (3 + List.length l)%nat with (List.length l + 1 * 3)%nat in H by lia.
    now rewrite Nat.Div0.mod_add in H.
Qed.

(** ** The streaming encoder *)

Lemma whole_groups_le (p : list byte) : (base64.whole_groups p <= List.length p)%nat.
Proof. unfold base64.whole_groups. pose proof (Nat.div_mod_eq (List.length p) 3). lia. Qed.

Lemma whole_groups_mod (p : list byte) : (base64.whole_groups p mod 3 = 0)%nat.
Proof. apply Nat.Div0.mod_mul. Qed.

Lemma whole_groups_small (p : list byte) :
  (List.length p < 3)%nat -> base64.whole_groups p = 0%nat.
Proof. intros H. unfold base64.whole_groups. now rewrite Nat.div_small. Qed.

Lemma whole_groups_app (x y : list byte) :
  (List.length x mod 3 = 0)%nat ->
  base64.whole_groups (x ++ y) = (List.length x + base64.whole_groups y)%nat.
Proof.
  intros H. unfold base64.whole_groups. rewrite length_app.
  pose proof (Nat.div_mod_eq (List.length x) 3) as E. rewrite H in E.
  replace (List.length x + List.length y)%nat
    with (List.length y + (List.length x / 3) * 3)%nat by lia.
  rewrite Nat.div_add by discriminate. lia.
Qed.

Lemma take_whole_app (x y : list byte) :
  (List.length x mod 3 = 0)%nat ->
  firstn (base64.whole_groups (x ++ y)) (x ++ y) = x ++ firstn (base64.whole_groups y) y.
Proof.
  intros H. rewrite whole_groups_app by trivial.
  rewrite take_app_ge by lia. f_equal. f_equal. lia.
Qed.

Lemma drop_whole_app (x y : list byte) :
  (List.length x mod 3 = 0)%nat ->
  skipn (base64.whole_groups (x ++ y)) (x ++ y) = skipn (base64.whole_groups y) y.
Proof.
  intros H. rewrite whole_groups_app by trivial.
  rewrite drop_app_ge by lia. f_equal. lia.
Qed.

Lemma length_take_whole (p : list byte) :
  List.length (firstn (base64.whole_groups p) p) = base64.whole_groups p.
Proof. rewrite length_take. pose proof (whole_groups_le p). lia. Qed.

Lemma length_drop_whole (p : list byte) :
  (List.length (skipn (base64.whole_groups p) p) < 3)%nat.
Proof.
  rewrite length_drop. unfold base64.whole_groups.
  pose proof (Nat.div_mod_eq (List.length p) 3).
  pose proof (Nat.mod_upper_bound (List.length p) 3). lia.
Qed.

(** One [Write] on an encoder that has emitted the whole groups [D] and
    holds the fringe [r]. *)
Lemma Write_state (w D r p : list byte) :
  (List.length D mod 3 = 0)%nat -> (List.length r < 3)%nat ->
  base64.Write {| base64.out := w ++ base64.Encode D; base64.nbuf := r |} p =
  {| base64.out := w ++ base64.Encode (D ++ firstn (base64.whole_groups (r ++ p)) (r ++ p));
     base64.nbuf := skipn (base64.whole_groups (r ++ p)) (r ++ p) |}.
Proof.
  intros HD Hr. unfold base64.Write. cbn [base64.out base64.nbuf].
  destruct r as [|r0 r'].
  - cbn [List.length app]. cbn [Nat.ltb Nat.leb andb].
    rewrite Encode_app by trivial. now rewrite app_assoc.
  - set (r := r0 :: r') in *.
    assert (E0 : (0 <? List.length r)%nat = true) by (apply Nat.ltb_lt; cbn; lia).
    rewrite E0. cbn [andb].
    destruct (Nat.ltb_spec (List.length p) (3 - List.length r)) as [Hp|Hp].
    + rewrite whole_groups_small by (rewrite length_app; lia).
      cbn [firstn skipn]. now rewrite app_nil_r.
    + set (need := (3 - List.length r)%nat) in *.
      assert (Hx : List.length (r ++ firstn need p) = 3%nat).
      { rewrite length_app, length_take. subst need. lia. }
      assert (Ep : r ++ p = (r ++ firstn need p) ++ skipn need p).
      { now rewrite <- app_assoc, take_drop. }
      rewrite Ep, take_whole_app, drop_whole_app by now rewrite Hx.
      f_equal.
      rewrite (Encode_app D) by trivial.
      rewrite (Encode_app (r ++ firstn need p)) by now rewrite Hx.
      now rewrite !app_assoc.
Qed.

(** Two writes and a close emit the encoding of the concatenation. *)
Lemma stream_Encode (w a b : list byte) :
  base64.out (base64.Close (base64.Write (base64.Write (base64.NewEncoder w) a) b))
  = w ++ base64.Encode (a ++ b).
Proof.
  unfold base64.NewEncoder.
  replace w with (w ++ base64.Encode []) at 1 by apply app_nil_r.
  rewrite Write_state by (cbn; lia). cbn [app].
  rewrite Write_state by (try rewrite length_take_whole; auto using whole_groups_mod, length_drop_whole).
  unfold base64.Close. cbn [base64.out base64.nbuf].
  set (D := firstn (base64.whole_groups a) a).
  set (r := skipn (base64.whole_groups a) a).
  rewrite <- app_assoc. f_equal.
  rewrite <- Encode_app.
  - rewrite <- app_assoc, take_drop. subst D r. now rewrite app_assoc, take_drop.
  - rewrite length_app. subst D. rewrite !length_take_whole.
    rewrite <- Nat.Div0.add_mod_idemp_l, <- Nat.Div0.add_mod_idemp_r.
    now rewrite !whole_groups_mod.
Qed.

Lemma lxor_lt_256 (a b : N) : (a < 256)%N -> (b < 256)%N -> (N.lxor a b < 256)%N.
Proof.
  intros Ha Hb.
  destruct (N.eq_dec (N.lxor a b) 0%N) as [->|Hne]; [lia|].
  change 256%N with (2 ^ 8)%N. apply N.log2_lt_pow2; [lia|].
  eapply N.le_lt_trans; [apply N.log2_lxor|].
  assert (L : forall x, (x < 256)%N -> (N.log2 x < 8)%N).
  { intros x Hx. destruct (N.eq_dec x 0%N) as [->|Hx0]; [reflexivity|].
    apply N.log2_lt_pow2; [lia|exact Hx]. }
  apply N.max_lub_lt; auto.
Qed.

Lemma byte_xor_involutive (a m : byte) : byte_xor (byte_xor a m) m = a.
Proof.
  unfold byte_xor. rewrite to_N_byte_of_N.
  rewrite N.mod_small by (apply lxor_lt_256; apply to_N_lt).
  rewrite N.lxor_assoc, N.lxor_nilpotent, N.lxor_0_r.
  apply byte_of_to_N.
Qed.

Lemma length_xorBytes (a b : list byte) :
  List.length (xorBytes a b) = Nat.min (List.length a) (List.length b).
Proof.
  revert b. induction a as [|x a IH]; intros [|y b]; cbn; auto.
Qed.

Lemma xorBytes_involutive (a m : list byte) :
  (List.length a <= List.length m)%nat -> xorBytes (xorBytes a m) m = a.
Proof.
  revert m. induction a as [|x a IH]; intros [|y m] H; cbn in *; try lia; auto.
  rewrite byte_xor_involutive, IH by lia. reflexivity.
Qed.

(** ** Lengths in the block cipher *)

Lemma length_expand nk i rcon n w :
  List.length (aes.expand nk i rcon n w) = (List.length w + n)%nat.
Proof.
  revert i rcon w. induction n as [|n IH]; intros i rcon w; cbn [aes.expand].
  - lia.
  - destruct (if (i mod nk =? 0)%nat then _ else _) as [t' rcon'].
    rewrite IH, length_app. cbn. lia.
Qed.

Lemma length_key_words (key : list byte) :
  List.length (aes.key_words key) = (List.length key / 4)%nat.
Proof.
  assert (G : forall n (k : list byte), (List.length k <= n)%nat ->
              List.length (aes.key_words k) = (List.length k / 4)%nat).
  { induction n as [|n IH]; intros k Hk.
    - destruct k; [reflexivity|cbn in Hk; lia].
    - destruct k as [|b0 [|b1 [|b2 [|b3 rest]]]]; try reflexivity.
      cbn [aes.key_words List.length]. rewrite IH by (cbn in Hk; lia).
      replace (S (S (S (S (List.length rest))))) with (List.length rest + 1 * 4)%nat by lia.
      rewrite Nat.div_add by discriminate. lia. }
  eauto.
Qed.

(** The schedule of a block made by [NewCipher] has at least one round
    key. *)
Definition well_formed (c : aes.Block) : Prop := (4 <= List.length (aes.enc c))%nat.

Lemma NewCipher_well_formed key c : aes.NewCipher key = Ok c -> well_formed c.
Proof.
  unfold aes.NewCipher. destruct (_ || _); [|discriminate].
  intros [= <-]. unfold well_formed. cbn [aes.enc]. unfold aes.expandKey.
  rewrite length_expand. lia.
Qed.

Lemma length_xor_state (s k : list N) :
  List.length (aes.xor_state s k) = Nat.min (List.length s) (List.length k).
Proof.
  revert k. induction s as [|x s IH]; intros [|y k]; cbn; auto.
Qed.

Lemma length_round_key (w : list N) (r : nat) :
  (4 * r + 4 <= List.length w)%nat -> List.length (aes.round_key w r) = 16%nat.
Proof.
  intros H. unfold aes.round_key.
  assert (L : List.length (firstn 4 (skipn (4 * r) w)) = 4%nat).
  { rewrite length_take, length_drop. lia. }
  destruct (firstn 4 (skipn (4 * r) w)) as [|w0 [|w1 [|w2 [|w3 [|]]]]]; try discriminate.
  reflexivity.
Qed.

Lemma length_Encrypt (c : aes.Block) (src : list byte) :
  well_formed c -> List.length (aes.Encrypt c src) = 16%nat.
Proof.
  intros H. unfold aes.Encrypt. rewrite length_map, length_xor_state.
  rewrite length_round_key.
  - unfold aes.shift_rows. rewrite length_map, length_seq. reflexivity.
  - unfold well_formed in H. unfold aes.nrounds.
    pose proof (Nat.div_mod_eq (List.length (aes.enc c)) 4).
    assert (1 <= List.length (aes.enc c) / 4)%nat.
    { apply Nat.div_le_lower_bound; lia. }
    lia.
Qed.

(** ** Galois/Counter Mode: opening what was sealed *)

Lemma length_be_bytes (n : nat) (x : N) : List.length (be_bytes n x) = n.
Proof.
  revert x. induction n as [|n IH]; intros x; cbn [be_bytes]; [reflexivity|].
  rewrite length_app, IH. cbn. lia.
Qed.

Lemma length_auth g ct data mask :
  List.length mask = 16%nat -> List.length (cipher.auth g ct data mask) = 16%nat.
Proof.
  intros H. unfold cipher.auth. rewrite length_xorBytes, length_be_bytes, H. reflexivity.
Qed.

Lemma split_block (A B : list byte) :
  (List.length A <= 16)%nat -> (List.length A = 16%nat \/ B = []) ->
  firstn 16 (A ++ B) = A /\ skipn 16 (A ++ B) = B.
Proof.
  intros Hle [H | ->].
  - rewrite <- H. now rewrite take_app_length, drop_app_length.
  - rewrite app_nil_r. split; [apply take_ge; lia|apply drop_ge; lia].
Qed.

Lemma counterCrypt_nil fuel g counter : cipher.counterCrypt fuel g [] counter = [].
Proof. destruct fuel; reflexivity. Qed.

Lemma counterCrypt_cons fuel g x input counter :
  cipher.counterCrypt (S fuel) g (x :: input) counter =
  xorBytes (firstn 16 (x :: input)) (aes.Encrypt (cipher.block g) counter)
    ++ cipher.counterCrypt fuel g (skipn 16 (x :: input)) (cipher.gcmInc32 counter).
Proof. reflexivity. Qed.

Lemma length_counterCrypt fuel g input counter :
  (4 <= List.length (aes.enc (cipher.block g)))%nat ->
  (List.length input <= fuel)%nat ->
  List.length (cipher.counterCrypt fuel g input counter) = List.length input.
Proof.
  intros Hg. revert input counter.
  induction fuel as [|fuel IH]; intros input counter H.
  - destruct input; [reflexivity|cbn in H; lia].
  - destruct input as [|x input']; [reflexivity|].
    rewrite counterCrypt_cons. set (input := x :: input') in *.
    rewrite length_app, length_xorBytes, length_Encrypt by exact Hg.
    rewrite IH by (rewrite length_drop; subst input; cbn in *; lia).
    rewrite length_take, length_drop. lia.
Qed.

Lemma counterCrypt_involutive fuel g input counter :
  (4 <= List.length (aes.enc (cipher.block g)))%nat ->
  (List.length input <= fuel)%nat ->
  cipher.counterCrypt fuel g (cipher.counterCrypt fuel g input counter) counter = input.
Proof.
  intros Hg. revert input counter.
  induction fuel as [|fuel IH]; intros input counter H.
  - destruct input; [reflexivity|cbn in H; lia].
  - destruct input as [|x input']; [reflexivity|].
    rewrite counterCrypt_cons. set (input := x :: input') in *.
    assert (Hrest : (List.length (skipn 16 input) <= fuel)%nat).
    { rewrite length_drop. subst input. cbn in *. lia. }
    set (mask := aes.Encrypt (cipher.block g) counter).
    assert (Hmask : List.length mask = 16%nat) by (apply length_Encrypt; exact Hg).
    set (A := xorBytes (firstn 16 input) mask).
    set (B := cipher.counterCrypt fuel g (skipn 16 input) (cipher.gcmInc32 counter)).
    assert (HA : List.length A = Nat.min 16 (List.length input)).
    { subst A. rewrite length_xorBytes, length_take, Hmask. lia. }
    assert (Hsplit : firstn 16 (A ++ B) = A /\ skipn 16 (A ++ B) = B).
    { apply split_block; [lia|].
      destruct (Nat.le_gt_cases 16 (List.length input)) as [Hge|Hlt]; [left; lia|right].
      subst B. rewrite drop_ge by lia. apply counterCrypt_nil. }
    destruct Hsplit as [E1 E2].
    destruct (A ++ B) as [|y out'] eqn:Eout.
    { apply (f_equal (@List.length byte)) in Eout. rewrite length_app, HA in Eout.
      subst input. cbn in Eout. lia. }
    rewrite counterCrypt_cons. fold mask. rewrite E1, E2. subst A B. rewrite IH by exact Hrest.
    rewrite xorBytes_involutive by (rewrite length_take, Hmask; lia).
    apply take_drop.
Qed.

Lemma ConstantTimeCompare_refl (x : list byte) : cipher.ConstantTimeCompare x x = true.
Proof.
  unfold cipher.ConstantTimeCompare. rewrite Nat.eqb_refl. cbn [andb].
  induction x as [|b x IH]; [reflexivity|].
  cbn. rewrite IH. destruct (Byte.eqb b b) eqn:E; [reflexivity|].
  now apply Byte.eqb_false in E.
Qed.

(** [Open] returns the plaintext of what [Seal] made under the same
    nonce and additional data. *)
Lemma Open_Seal (b : aes.Block) (g : cipher.AEAD) (nonce plaintext data sealed : list byte) :
  (4 <= List.length (aes.enc b))%nat ->
  cipher.NewGCM b = Ok g ->
  cipher.Seal g nonce plaintext data = Ok sealed ->
  cipher.Open g nonce sealed data = Ok plaintext.
Proof.
  intros Hb [= <-]. unfold cipher.Seal, cipher.Open.
  set (g := {| cipher.block := b; cipher.nonceSize := _; cipher.tagSize := _ |}).
  change (cipher.nonceSize g) with 12%nat. change (cipher.tagSize g) with 16%nat.
  change (cipher.block g) with b.
  destruct (negb _); [discriminate|]. intros [= <-].
  set (counter := cipher.deriveCounter nonce).
  set (mask := aes.Encrypt b counter).
  set (out := cipher.counterCrypt _ g plaintext _).
  set (tag := cipher.auth g out data mask).
  assert (Hmask : List.length mask = 16%nat) by (apply length_Encrypt; exact Hb).
  assert (Htag : List.length tag = 16%nat) by (apply length_auth; exact Hmask).
  assert (Hout : List.length out = List.length plaintext).
  { apply length_counterCrypt; [exact Hb|lia]. }
  destruct (Nat.ltb_spec (List.length (out ++ tag)) 16) as [Hlt|_].
  { rewrite length_app in Hlt. lia. }
  replace (List.length (out ++ tag) - 16)%nat with (List.length out)
    by (rewrite length_app; lia).
  rewrite take_app_length, drop_app_length.
  fold tag. rewrite (take_ge tag) by lia.
  rewrite ConstantTimeCompare_refl. cbn [negb].
  rewrite Hout. subst out. f_equal.
  apply counterCrypt_involutive; [exact Hb|lia].
Qed.

(** ** Strings and byte slices *)

Lemma string_of_list_byte_app (a b : list byte) :
  string_of_list_byte (a ++ b) = (string_of_list_byte a ++ string_of_list_byte b)%string.
Proof.
  induction a as [|x a IH]; [reflexivity|].
  change (string_of_list_byte ((x :: a) ++ b))
    with (String (ascii_of_byte x) (string_of_list_byte (a ++ b))).
  now rewrite IH.
Qed.

Lemma list_byte_of_string_app (a b : string) :
  list_byte_of_string (a ++ b)%string = list_byte_of_string a ++ list_byte_of_string b.
Proof.
  induction a as [|x a IH]; [reflexivity|].
  change (list_byte_of_string (String x a ++ b))
    with (byte_of_ascii x :: list_byte_of_string (a ++ b)).
  now rewrite IH.
Qed.

Lemma length_list_byte_of_string (s : string) :
  List.length (list_byte_of_string s) = String.length s.
Proof.
  induction s as [|x s IH]; [reflexivity|].
  change (list_byte_of_string (String x s)) with (byte_of_ascii x :: list_byte_of_string s).
  cbn [List.length String.length]. now rewrite IH.
Qed.

(** The decoder never writes past [DecodedLen] bytes. *)
Lemma decode_fits total (src : list byte) (dbuf : list N) :
  (List.length (fst (base64.decode total src dbuf))
   <= (List.length src + List.length dbuf) / 4 * 3)%nat.
Proof.
  revert dbuf. induction src as [|c rest IH]; intros dbuf.
  - destruct dbuf; apply Nat.le_0_l.
  - rewrite decode_cons. cbv zeta.
    assert (Mono : forall a b, (a <= b)%nat -> (a / 4 * 3 <= b / 4 * 3)%nat).
    { intros a b Hab. apply Nat.mul_le_mono_r. apply Nat.Div0.div_le_mono. exact Hab. }
    assert (Four : forall a, (4 <= a)%nat -> (3 <= a / 4 * 3)%nat).
    { intros a Ha. specialize (Mono 4%nat a Ha). exact Mono. }
    destruct (negb (base64.decodeMap c =? 255)%N).
    + destruct dbuf as [|d0 [|d1 [|d2 [|d3 dbuf]]]];
        try (etransitivity; [apply IH|apply Mono; rewrite ?length_app; cbn; lia]).
      specialize (IH []). destruct (base64.decode total rest []) as [bs err].
      cbn [fst List.length] in IH. cbn [fst]. rewrite length_app. cbn [List.length base64.quantum].
      replace (S (List.length rest) + 3)%nat with (List.length rest + 0 + 1 * 4)%nat by lia.
      rewrite Nat.div_add by discriminate. lia.
    + destruct (base64.is_newline c).
      { etransitivity; [apply IH|apply Mono; cbn; lia]. }
      destruct (negb (Byte.eqb c base64.padChar)); [apply Nat.le_0_l|].
      destruct dbuf as [|d0 [|d1 [|d2 [|d3 dbuf]]]]; try apply Nat.le_0_l.
      * destruct (base64.skip_newlines rest) as [|c2 r2] eqn:E; [apply Nat.le_0_l|].
        destruct (negb (Byte.eqb c2 base64.padChar)); [apply Nat.le_0_l|].
        cbn [fst firstn base64.quantum List.length].
        destruct rest as [|c1 rest']; [discriminate E|].
        etransitivity; [|apply Four; cbn; lia]. lia.
      * cbn [fst firstn base64.quantum List.length].
        etransitivity; [|apply Four; cbn; lia]. lia.
Qed.

Lemma Decode_fits (src : list byte) :
  (List.length (fst (base64.Decode src)) <= base64.DecodedLen (List.length src))%nat.
Proof.
  unfold base64.Decode, base64.DecodedLen.
  etransitivity; [apply decode_fits|]. cbn [List.length]. now rewrite Nat.add_0_r.
Qed.

Lemma length_Encode (x : list byte) :
  List.length (base64.Encode x) = base64.EncodedLen (List.length x).
Proof.
  unfold base64.EncodedLen.
  induction x as [|a|a b|a b c l IH] using list_ind3; try reflexivity.
  cbn [base64.Encode List.length]. rewrite IH.
  replace (S (S (S (List.length l))) + 2)%nat with (List.length l + 2 + 1 * 3)%nat by lia.
  rewrite Nat.div_add by discriminate. lia.
Qed.

(** ** [decrypt] on a tagged text *)

(** What [decrypt] does once the tag is found and the rest decodes to
    [x]. *)
Lemma decrypt_tagged (s : string) (key x : list byte) :
  base64.Decode (list_byte_of_string s) = (x, None) ->
  decrypt ("v01" ++ s) key =
  match aes.NewCipher key with
  | Panic m => Panic m
  | Err _ => Err (errors_New "invalid decrypt key")
  | Ok block =>
      match cipher.NewGCM block with
      | Panic m => Panic m
      | Err e => Err (errors_WithMessage e "GCM error")
      | Ok mode =>
          if (base64.DecodedLen (String.length s) <? cipher.NonceSize mode)%nat
             || (List.length x <? cipher.NonceSize mode)%nat
          then Panic "slice bounds out of range"
          else cipher.Open mode (firstn (cipher.NonceSize mode) x)
                                (skipn (cipher.NonceSize mode) x) []
      end
  end.
Proof.
  intros HD. unfold decrypt.
  change (String.prefix "v01" ("v01" ++ s)) with (String.prefix EmptyString s).
  replace (String.prefix EmptyString s) with true by (destruct s; reflexivity).
  cbn [negb].
  change (String.length ("v01" ++ s) - 3)%nat with (String.length s - 0)%nat.
  rewrite Nat.sub_0_r.
  change (skipn 3 (list_byte_of_string ("v01" ++ s))) with (list_byte_of_string s).
  set (c := base64.DecodedLen (String.length s)).
  assert (Hfit : (List.length x <= c)%nat).
  { pose proof (Decode_fits (list_byte_of_string s)) as F.
    rewrite HD, length_list_byte_of_string in F. exact F. }
  unfold Decode_into. rewrite HD.
  assert (Hcap : cap (make c) = c) by (unfold cap, make; cbn; apply repeat_length).
  rewrite Hcap. destruct (Nat.ltb_spec c (List.length x)) as [?|_]; [lia|].
  cbn [arr len make].
  set (a := x ++ skipn (List.length x) (repeat x00 c)).
  assert (Ha : List.length a = c).
  { subst a. rewrite length_app, length_drop, repeat_length. lia. }
  unfold slice_to at 1. unfold cap. cbn [arr len]. rewrite Ha.
  destruct (Nat.ltb_spec c (List.length x)) as [?|_]; [lia|].
  destruct (aes.NewCipher key) as [block| |]; try reflexivity.
  destruct (cipher.NewGCM block) as [mode| |]; try reflexivity.
  unfold slice_to, slice_from, cap. cbn [arr len]. rewrite Ha.
  set (ns := cipher.NonceSize mode).
  destruct (Nat.ltb_spec c ns) as [Hc|Hc]; [reflexivity|].
  destruct (Nat.ltb_spec (List.length x) ns) as [Hx|Hx]; [reflexivity|].
  cbn [orb]. unfold elems. cbn [arr len]. f_equal.
  - subst a. apply take_app_le. exact Hx.
  - subst a. rewrite drop_app_le by exact Hx.
    rewrite take_app_ge by (rewrite length_drop; lia).
    rewrite length_drop. replace (_ - _ - _)%nat with 0%nat by lia.
    cbn [firstn]. apply app_nil_r.
Qed.

(** ** The codec *)

Lemma NewCipher_ok (key : list byte) :
  In (List.length key) [16; 24; 32]%nat ->
  exists block, aes.NewCipher key = Ok block /\ (4 <= List.length (aes.enc block))%nat.
Proof.
  intros Hk. unfold aes.NewCipher.
  assert (E : (List.length key =? 16)%nat || (List.length key =? 24)%nat
              || (List.length key =? 32)%nat = true).
  { cbn in Hk. destruct Hk as [<-|[<-|[<-|[]]]]; reflexivity. }
  rewrite E. eexists; split; [reflexivity|].
  cbn [aes.enc]. unfold aes.expandKey. rewrite length_expand. lia.
Qed.

Lemma io_ReadFull_ok (r : list byte) (n : nat) :
  (n <= List.length r)%nat -> io_ReadFull r n = (Ok (firstn n r), skipn n r).
Proof. intros H. unfold io_ReadFull. now destruct (Nat.leb_spec n (List.length r)); [|lia]. Qed.

(** What a successful [encrypt] returns. *)
Lemma encrypt_sealed (plaintext key rand : list byte) :
  In (List.length key) [16; 24; 32]%nat ->
  (12 <= List.length rand)%nat ->
  exists block mode sealed,
    aes.NewCipher key = Ok block /\ (4 <= List.length (aes.enc block))%nat /\
    cipher.NewGCM block = Ok mode /\
    cipher.Seal mode (firstn 12 rand) plaintext [] = Ok sealed /\
    List.length sealed = (List.length plaintext + 16)%nat /\
    encrypt plaintext key rand =
      (Ok ("v01" ++ base64.EncodeToString (firstn 12 rand ++ sealed))%string, skipn 12 rand).
Proof.
  intros Hk Hr. destruct (NewCipher_ok key Hk) as (block & Hb & Hwf).
  unfold encrypt. rewrite Hb.
  set (mode := {| cipher.block := block; cipher.nonceSize := cipher.gcmStandardNonceSize;
                  cipher.tagSize := cipher.gcmTagSize |}).
  change (cipher.NewGCM block) with (@Ok cipher.AEAD mode). cbv beta iota.
  change (cipher.NonceSize mode) with 12%nat.
  rewrite io_ReadFull_ok by exact Hr.
  assert (Hn : List.length (firstn 12 rand) = 12%nat) by (rewrite length_take; lia).
  unfold cipher.Seal. change (cipher.nonceSize mode) with 12%nat.
  rewrite Hn. cbn [Nat.eqb negb].
  eexists block, mode, _. repeat split; try reflexivity; try exact Hwf.
  - rewrite length_app, length_auth by (apply length_Encrypt; exact Hwf).
    rewrite length_counterCrypt by (trivial; lia). reflexivity.
  - rewrite stream_Encode, string_of_list_byte_app. reflexivity.
Qed.

(** C1: for every plaintext and every key of 16, 24 or 32 bytes,
    [encrypt] succeeds (given the twelve random bytes of the nonce) and
    [decrypt] of its text under the same key succeeds and returns the
    plaintext. *)
Theorem decrypt_encrypt (plaintext key rand : list byte) :
  In (List.length key) [16; 24; 32]%nat ->
  (12 <= List.length rand)%nat ->
  exists text, fst (encrypt plaintext key rand) = Ok text /\
               decrypt text key = Ok plaintext.
Proof.
  intros Hk Hr.
  destruct (encrypt_sealed plaintext key rand Hk Hr)
    as (block & mode & sealed & Hb & Hwf & Hm & Hs & Hl & He).
  eexists. split; [rewrite He; reflexivity|].
  set (x := firstn 12 rand ++ sealed).
  assert (Hn : List.length (firstn 12 rand) = 12%nat) by (rewrite length_take; lia).
  rewrite (decrypt_tagged _ key x).
  2:{ unfold base64.EncodeToString. rewrite list_byte_of_string_of_list_byte.
      apply Decode_Encode. }
  rewrite Hb, Hm. pose proof Hm as [= <-]. change (cipher.NonceSize _) with 12%nat.
  assert (Hx : (12 <= List.length x)%nat) by (subst x; rewrite length_app; lia).
  pose proof (Decode_fits (base64.Encode x)) as Hfit.
  rewrite Decode_Encode in Hfit. cbn [fst] in Hfit.
  unfold base64.EncodeToString.
  rewrite <- length_list_byte_of_string, list_byte_of_string_of_list_byte.
  destruct (Nat.ltb_spec (base64.DecodedLen (List.length (base64.Encode x))) 12); [lia|].
  destruct (Nat.ltb_spec (List.length x) 12); [lia|]. cbn [orb].
  subst x. rewrite take_app_length', drop_app_length' by (symmetry; exact Hn).
  eapply Open_Seal; eauto.
Qed.

Lemma decrypt_encrypt_witness :
  exists text,
    fst (encrypt (list_byte_of_string "session=42") (repeat x2a 16) (repeat x07 12)) = Ok text /\
    decrypt text (repeat x2a 16) = Ok (list_byte_of_string "session=42").
Proof.
  apply (decrypt_encrypt (list_byte_of_string "session=42") (repeat x2a 16) (repeat x07 12)).
  - cbn. auto.
  - cbn. lia.
Defined.

(** C2: for every plaintext and every key of 16, 24 or 32 bytes, the
    text [encrypt] returns is the tag "v01" followed by the standard
    base64 encoding of the nonce (the twelve bytes read from the random
    source) followed by what GCM's Seal returns for that nonce, the
    plaintext and no additional data: the ciphertext and its 16-byte
    tag. *)
Theorem encrypt_text_format (plaintext key rand : list byte) :
  In (List.length key) [16; 24; 32]%nat ->
  (12 <= List.length rand)%nat ->
  exists block mode sealed,
    aes.NewCipher key = Ok block /\
    cipher.NewGCM block = Ok mode /\
    cipher.Seal mode (firstn 12 rand) plaintext [] = Ok sealed /\
    List.length sealed = (List.length plaintext + cipher.Overhead mode)%nat /\
    encrypt plaintext key rand =
      (Ok ("v01" ++ base64.EncodeToString (firstn 12 rand ++ sealed))%string, skipn 12 rand).
Proof.
  intros Hk Hr.
  destruct (encrypt_sealed plaintext key rand Hk Hr)
    as (block & mode & sealed & Hb & Hwf & Hm & Hs & Hl & He).
  exists block, mode, sealed. pose proof Hm as [= <-]. auto.
Qed.

Lemma encrypt_text_format_witness :
  exists block mode sealed,
    aes.NewCipher (repeat x2a 16) = Ok block /\
    cipher.NewGCM block = Ok mode /\
    cipher.Seal mode (firstn 12 (repeat x07 20)) [x61; x62] [] = Ok sealed /\
    List.length sealed = (List.length [x61; x62] + cipher.Overhead mode)%nat /\
    encrypt [x61; x62] (repeat x2a 16) (repeat x07 20) =
      (Ok ("v01" ++ base64.EncodeToString (firstn 12 (repeat x07 20) ++ sealed))%string,
       skipn 12 (repeat x07 20)).
Proof.
  apply (encrypt_text_format [x61; x62] (repeat x2a 16) (repeat x07 20)).
  - cbn. auto.
  - cbn. lia.
Defined.

(** C9: for every key of 16, 24 or 32 bytes and every text "v01" + s
    where s is valid base64 that decodes to fewer than twelve bytes,
    [decrypt] returns no error value: it panics with a slice bound out
    of range. *)
Theorem decrypt_short_panics (s : string) (key x : list byte) :
  In (List.length key) [16; 24; 32]%nat ->
  base64.Decode (list_byte_of_string s) = (x, None) ->
  (List.length x < 12)%nat ->
  decrypt ("v01" ++ s) key = Panic "slice bounds out of range".
Proof.
  intros Hk HD Hx. rewrite (decrypt_tagged s key x HD).
  destruct (NewCipher_ok key Hk) as (block & -> & _).
  cbn [cipher.NewGCM Nat.eqb aes.BlockSize cipher.gcmBlockSize cipher.NonceSize cipher.nonceSize].
  change cipher.gcmStandardNonceSize with 12%nat.
  destruct (Nat.ltb_spec (List.length x) 12) as [_|?]; [|lia].
  now rewrite orb_true_r.
Qed.

Lemma decrypt_short_panics_witness :
  decrypt ("v01" ++ "AAAAAAAAAAAAAA==") (repeat x00 16) = Panic "slice bounds out of range".
Proof.
  apply (decrypt_short_panics "AAAAAAAAAAAAAA==" (repeat x00 16) (repeat x00 10)).
  - cbn. auto.
  - vm_compute. reflexivity.
  - cbn. lia.
Defined.

(** C8: a text that does not start with "v01" is rejected with the
    invalid-value error, whatever the key and the rest of the text: no
    base64 decoding and no cipher is involved. *)
Theorem decrypt_rejects_missing_tag (encryptedText : string) (key : list byte) :
  String.prefix "v01" encryptedText = false ->
  decrypt encryptedText key = Err (errors_New "invalid value").
Proof.
  intros H. unfold decrypt. rewrite H. reflexivity.
Qed.

Lemma decrypt_rejects_missing_tag_witness :
  decrypt "v02AAAA" [x00] = Err (errors_New "invalid value").
Proof.
  apply decrypt_rejects_missing_tag. reflexivity.
Defined.

(** ** The entries of a jar *)

Lemma range_entries_in_jar (j : Jar) (e : entry) : In e (range_entries j) <-> in_jar j e.
Proof.
  unfold range_entries, in_jar. rewrite in_concat. split.
  - intros (l & Hl & He). apply in_map_iff in Hl as ([host submap] & <- & Hkv).
    apply in_map_iff in He as ([id e'] & <- & Hid).
    apply list_elem_of_In, elem_of_map_to_list in Hkv.
    apply list_elem_of_In, elem_of_map_to_list in Hid.
    exists host, submap, id. auto.
  - intros (host & submap & id & Hh & Hid).
    exists (List.map snd (map_to_list submap)). split.
    + apply in_map_iff. exists (host, submap). split; [reflexivity|].
      now apply list_elem_of_In, elem_of_map_to_list.
    + apply in_map_iff. exists (id, e). split; [reflexivity|].
      now apply list_elem_of_In, elem_of_map_to_list.
Qed.

Lemma deleteExpired_in_jar (j : Jar) (now : Time) (e : entry) :
  in_jar (deleteExpired j now) e <-> in_jar j e /\ (now < Expires e)%Z.
Proof.
  unfold in_jar, deleteExpired. cbn [entries with_entries]. split.
  - intros (host & submap & id & Hh & Hid).
    apply lookup_fmap_Some in Hh as (submap0 & <- & Hh).
    apply map_lookup_filter_Some in Hid as [Hid Hlt]. cbn in Hlt.
    split; [|exact Hlt]. exists host, submap0, id. auto.
  - intros [(host & submap & id & Hh & Hid) Hlt].
    exists host, (filter (fun kv => (now < Expires (snd kv))%Z) submap), id. split.
    + apply lookup_fmap_Some. eauto.
    + apply map_lookup_filter_Some. auto.
Qed.

(** ** Sorting keeps the entries *)

Lemma sort_insert_perm (e : entry) (l : list entry) : Permutation (sort_insert e l) (e :: l).
Proof.
  induction l as [|x l IH]; cbn [sort_insert]; [reflexivity|].
  destruct (byCanonicalHost_Less e x); [reflexivity|].
  rewrite IH. apply perm_swap.
Qed.

Lemma sort_Sort_perm (l : list entry) : Permutation (sort_Sort l) l.
Proof.
  induction l as [|x l IH]; cbn; [reflexivity|].
  unfold sort_Sort in IH. now rewrite sort_insert_perm, IH.
Qed.

(** ** The loop of [allPersistentEntries] *)

Lemma collect_Forall2 (key : list byte) (es : list entry) :
  forall rand l rand',
    collect key es rand = (Ok l, rand') ->
    Forall2 (serialized key) (List.filter Persistent es) l.
Proof.
  induction es as [|e es IH]; intros rand l rand' H; cbn [collect List.filter] in *.
  - injection H as <- _. constructor.
  - destruct (Persistent e) eqn:Ep; [|eauto].
    destruct (0 <? List.length key)%nat eqn:Ek.
    + destruct (encrypt _ key rand) as [[text| |] rand1] eqn:Ee; try discriminate.
      destruct (collect key es rand1) as [[l1| |] rand2] eqn:Ec; try discriminate.
      injection H as <- _. constructor; [|eauto].
      unfold serialized. rewrite Ek. cbn [EncryptedValue set_encrypted]. eauto.
    + destruct (collect key es rand) as [[l1| |] rand2] eqn:Ec; try discriminate.
      injection H as <- _. constructor; [|eauto].
      unfold serialized. now rewrite Ek.
Qed.

Lemma allPersistentEntries_Ok (j : Jar) (rand : list byte) (l : list entry) rand' :
  allPersistentEntries j rand = (Ok l, rand') ->
  exists l0, Forall2 (serialized (encryptedKey j)) (List.filter Persistent (range_entries j)) l0
             /\ l = sort_Sort l0.
Proof.
  unfold allPersistentEntries.
  destruct (collect _ _ rand) as [[l0| |] rand0] eqn:Ec; try discriminate.
  intros [= <- _]. exists l0. split; [|reflexivity]. eapply collect_Forall2; eauto.
Qed.

(** Every entry returned comes from a persistent entry of the jar. *)
Lemma allPersistentEntries_from_jar (j : Jar) (rand : list byte) (l : list entry) rand' :
  allPersistentEntries j rand = (Ok l, rand') ->
  Forall (fun e => exists e0, in_jar j e0 /\ Persistent e0 = true
                              /\ serialized (encryptedKey j) e0 e) l.
Proof.
  intros H. apply allPersistentEntries_Ok in H as (l0 & HF & ->).
  eapply Permutation_Forall; [symmetry; apply sort_Sort_perm|].
  set (es := range_entries j) in *.
  assert (Hin : forall e0, In e0 (List.filter Persistent es) -> in_jar j e0 /\ Persistent e0 = true).
  { intros e0 He0. apply filter_In in He0 as [He0 Hp]. split; [|exact Hp].
    now apply range_entries_in_jar. }
  clear -HF Hin. induction HF as [|e0 e l1 l2 Hs HF IH]; constructor.
  - exists e0. destruct (Hin e0) as [? ?]; [now left|]. auto.
  - apply IH. intros e1 H1. apply Hin. now right.
Qed.

Lemma serialized_Expires key e0 e : serialized key e0 e -> Expires e = Expires e0.
Proof.
  unfold serialized. destruct (0 <? _)%nat.
  - intros (r & r' & _ & ->). reflexivity.
  - now intros ->.
Qed.

(** What an [encrypt] that succeeded returned. *)
Lemma encrypt_Ok_inv (plaintext key rand : list byte) text rand' :
  encrypt plaintext key rand = (Ok text, rand') ->
  exists rest, text = ("v01" ++ rest)%string.
Proof.
  unfold encrypt.
  destruct (aes.NewCipher key) as [block| |]; try discriminate.
  destruct (cipher.NewGCM block) as [mode| |]; try discriminate.
  destruct (io_ReadFull rand _) as [[nonce| |] r1]; try discriminate.
  destruct (cipher.Seal mode nonce plaintext []) as [sealed| |]; try discriminate.
  cbv zeta. rewrite stream_Encode, string_of_list_byte_app. intros [= <- _]. eauto.
Qed.

Lemma allPersistentEntries_encrypted (j : Jar) (rand : list byte) l rand' :
  (0 < List.length (encryptedKey j))%nat ->
  allPersistentEntries j rand = (Ok l, rand') ->
  Forall (encrypted_entry j) l.
Proof.
  intros Hk H. apply allPersistentEntries_from_jar in H.
  eapply Forall_impl; [exact H|]. clear H.
  intros e (e0 & Hin & Hp & Hs). unfold serialized in Hs.
  destruct (Nat.ltb_spec 0 (List.length (encryptedKey j))) as [_|?]; [|lia].
  destruct Hs as (r & r' & He & Heq). unfold encrypted_entry.
  repeat split.
  - rewrite Heq. exact Hp.
  - rewrite Heq. reflexivity.
  - apply encrypt_Ok_inv in He as (rest & ->). discriminate.
  - eauto 10.
Qed.

(** C7: with a non-empty encryption key, every entry produced for
    serialization, by [allPersistentEntries] and so by [MarshalJSON] and
    by [writeTo] (the writer of Save), is persistent, has an empty Value
    and a non-empty EncryptedValue that [encrypt] returned for the Value
    of the jar's entry. *)
Theorem serialized_entries_are_encrypted (j : Jar) :
  (0 < List.length (encryptedKey j))%nat ->
  (forall rand l rand',
      allPersistentEntries j rand = (Ok l, rand') -> Forall (encrypted_entry j) l) /\
  (forall json_Marshal w data w',
      MarshalJSON json_Marshal j w = (Ok data, w') ->
      exists l, data = json_Marshal l /\ Forall (encrypted_entry j) l) /\
  (forall json_Marshal f w w',
      writeTo json_Marshal j f w = (Ok tt, w') ->
      exists l, files w' !! file_path f = Some (content w f ++ json_Marshal l ++ [base64.LF])
                /\ Forall (encrypted_entry j) l).
Proof.
  intros Hk. split; [|split].
  - intros rand l rand'. now apply allPersistentEntries_encrypted.
  - intros ma w data w'. unfold MarshalJSON.
    destruct (allPersistentEntries j (rand w)) as [[l| |] r] eqn:E; try discriminate.
    intros [= <- _]. exists l. split; [reflexivity|].
    eapply allPersistentEntries_encrypted; eauto.
  - intros ma f w w'. unfold writeTo.
    destruct (allPersistentEntries j (rand w)) as [[l| |] r] eqn:E; try discriminate.
    unfold File_Write. cbn [fault set_rand].
    destruct (fault w (OpWrite (file_path f))); [discriminate|].
    intros [= <-]. exists l. split.
    + cbn [files set_files]. rewrite lookup_insert_eq. reflexivity.
    + eapply allPersistentEntries_encrypted; eauto.
Qed.

Lemma serialized_entries_are_encrypted_witness :
  (forall rand l rand',
      allPersistentEntries (example.jar (repeat x2a 16)) rand = (Ok l, rand') ->
      Forall (encrypted_entry (example.jar (repeat x2a 16))) l) /\
  (forall json_Marshal w data w',
      MarshalJSON json_Marshal (example.jar (repeat x2a 16)) w = (Ok data, w') ->
      exists l, data = json_Marshal l /\ Forall (encrypted_entry (example.jar (repeat x2a 16))) l) /\
  (forall json_Marshal f w w',
      writeTo json_Marshal (example.jar (repeat x2a 16)) f w = (Ok tt, w') ->
      exists l, files w' !! file_path f = Some (content w f ++ json_Marshal l ++ [base64.LF])
                /\ Forall (encrypted_entry (example.jar (repeat x2a 16))) l).
Proof.
  apply (serialized_entries_are_encrypted (example.jar (repeat x2a 16))).
  cbn. lia.
Defined.

(** C10: a jar whose filename is the empty string is not saved: [Save]
    returns nil at once, and the jar and the world (files, lock, clock,
    random source, log) are what they were. *)
Theorem Save_without_filename json_Unmarshal json_Marshal merge (j : Jar) (w : World) :
  filename j = EmptyString ->
  Save json_Unmarshal json_Marshal merge j w = (Ok tt, j, w).
Proof.
  intros H. unfold Save. rewrite H. reflexivity.
Qed.

Lemma Save_without_filename_witness :
  Save example.Unmarshal example.Marshal example.merge
       (with_entries {| filename := EmptyString; encryptedKey := []; entries := ∅ |}
                     (entries (example.jar [])))
       (example.world "[]" 0)
  = (Ok tt,
     with_entries {| filename := EmptyString; encryptedKey := []; entries := ∅ |}
                  (entries (example.jar [])),
     example.world "[]" 0).
Proof.
  apply Save_without_filename. reflexivity.
Defined.

(** ** Frame properties of the steps of a transaction *)

Lemma unchanged_refl w : unchanged w w.
Proof. repeat split. Qed.

Lemma unchanged_trans w1 w2 w3 : unchanged w1 w2 -> unchanged w2 w3 -> unchanged w1 w3.
Proof. unfold unchanged. intros (?&?&?) (?&?&?). repeat split; congruence. Qed.

Lemma create_unchanged w p : unchanged w (create w p).
Proof. unfold create. destruct (files w !! p); repeat split. Qed.

Lemma LockFile_Ok w p locked w1 :
  internal.LockFile w p = (Ok locked, w1) ->
  internal.lock_path locked = internal.lockFileName w p /\ unchanged w w1 /\ log w1 = log w.
Proof.
  unfold internal.LockFile.
  destruct (internal.tryCtx _ _ _ _ _) as [[ok err] t].
  destruct err as [e|].
  { destruct (internal.is_DeadlineExceeded e); discriminate. }
  intros [= <- <-]. split; [reflexivity|].
  destruct (flock w (internal.lockFileName w p) 0) as [| |errno];
    try (unfold create; destruct (files w !! _)); repeat split.
Qed.

Lemma OpenFile_Ok w p f w1 :
  os_OpenFile w p = (Ok f, w1) ->
  file_path f = p /\ unchanged w w1 /\ log w1 = log w /\ is_Some (files w1 !! p).
Proof.
  unfold os_OpenFile. destruct (fault w (OpOpenFile p)); [discriminate|].
  intros [= <- <-]. split; [reflexivity|]. split; [apply create_unchanged|].
  unfold create. destruct (files w !! p) eqn:E; cbn [files log set_files].
  - rewrite E. eauto.
  - rewrite lookup_insert_eq. eauto.
Qed.

Section Transaction.

Variable json_Unmarshal : list byte -> result (list entry).
Variable json_Marshal : list entry -> list byte.
Variable merge : Jar -> list entry -> result unit * Jar.

Lemma mergeFrom_frame j r w merged j1 w1 :
  mergeFrom json_Unmarshal merge j r w = (merged, j1, w1) ->
  unchanged w w1 /\ files w1 = files w.
Proof.
  unfold mergeFrom.
  destruct (json.Decode r) as [data|e|m].
  - destruct (json_Unmarshal data) as [es|e|m].
    + destruct (merge j es) as [r0 j']. intros [= _ _ <-]. repeat split.
    + intros [= _ _ <-]. repeat split.
    + intros [= _ _ <-]. repeat split.
  - destruct e; intros [= _ _ <-]; repeat split.
  - intros [= _ _ <-]. repeat split.
Qed.

(** An input the decoder rejects leaves the jar as it was. *)
Lemma mergeFrom_undecodable j r w e :
  json.Decode r = Err e ->
  exists merged, mergeFrom json_Unmarshal merge j r w = (merged, j, w)
                 /\ forall m, merged <> Panic m.
Proof.
  intros H. unfold mergeFrom. rewrite H.
  destruct e; eexists; (split; [reflexivity|discriminate]).
Qed.

Lemma String_append_length (a b : string) :
  String.length (a ++ b) = (String.length a + String.length b)%nat.
Proof.
  induction a as [|c a IH]; [reflexivity|].
  change (String.length (String c a ++ b)) with (S (String.length (a ++ b))).
  rewrite IH. reflexivity.
Qed.

Lemma lock_suffix_differs (p : string) : (p ++ ".lock")%string <> p.
Proof.
  intros H. apply (f_equal String.length) in H.
  rewrite String_append_length in H. cbn in H. lia.
Qed.

(** Closing the lock leaves the cookie file alone. *)
Lemma Close_keeps_file w p locked w1 w2 :
  internal.LockFile w p = (Ok locked, w1) ->
  windows w2 = windows w ->
  files (internal.Close w2 locked) !! p = files w2 !! p
  /\ log (internal.Close w2 locked) = log w2.
Proof.
  intros HL Hw. apply LockFile_Ok in HL as (Hp & _ & _).
  unfold internal.Close, os_Remove. rewrite Hw, Hp. unfold internal.lockFileName.
  destruct (windows w); [|auto].
  destruct (fault w2 _); [auto|]. cbn [files log set_files].
  rewrite lookup_delete_ne by apply lock_suffix_differs. auto.
Qed.

(** The steps of [save] after the merge, when they succeed. *)
Lemma save_locked_succeeds j now f w merged j1 w1 l rand' :
  mergeFrom json_Unmarshal merge j (content w f) w = (merged, j1, w1) ->
  (forall m, merged <> Panic m) ->
  fault w (OpTruncate (file_path f)) = None ->
  fault w (OpSeek (file_path f)) = None ->
  fault w (OpWrite (file_path f)) = None ->
  allPersistentEntries (deleteExpired j1 now) (rand w) = (Ok l, rand') ->
  exists w',
    save_locked json_Unmarshal json_Marshal merge j now f w
      = (Ok tt, deleteExpired j1 now, w')
    /\ files w' !! file_path f = Some (json_Marshal l ++ [base64.LF])
    /\ windows w' = windows w
    /\ (forall e, merged = Err e -> In (log_Printf cannot_read e) (log w')).
Proof.
  intros Hm Hnp Ht Hs Hw Hl. unfold save_locked. rewrite Hm.
  apply mergeFrom_frame in Hm as ((Hwin & Hf & Hr) & Hfiles).
  destruct merged as [u|e|m]; [| |now destruct (Hnp m)].
  all: cbv beta iota zeta.
  all: unfold File_Truncate0; cbn [fault log_Print]; rewrite Hf, Ht.
  all: unfold File_Seek0; cbn [fault set_files log_Print]; rewrite Hf, Hs.
  all: unfold writeTo; cbn [rand set_files log_Print]; rewrite Hr, Hl.
  all: unfold File_Write; cbn [fault set_rand set_files log_Print]; rewrite Hf, Hw.
  all: eexists; split; [reflexivity|].
  all: cbn [files set_files windows log set_rand log_Print].
  all: rewrite lookup_insert_eq; unfold content; cbn [files set_files set_rand log_Print].
  all: rewrite lookup_insert_eq; cbn [default app]; repeat split; auto.
  - discriminate.
  - intros e0 [= ->]. apply in_or_app. right. now left.
Qed.

(** What a [save_locked] that returned nil did. *)
Lemma save_locked_Ok_inv j now f w j' w' :
  save_locked json_Unmarshal json_Marshal merge j now f w = (Ok tt, j', w') ->
  exists merged j1 w1 l rand',
    mergeFrom json_Unmarshal merge j (content w f) w = (merged, j1, w1)
    /\ j' = deleteExpired j1 now
    /\ allPersistentEntries j' (rand w) = (Ok l, rand')
    /\ files w' !! file_path f = Some (json_Marshal l ++ [base64.LF])
    /\ windows w' = windows w.
Proof.
  unfold save_locked.
  destruct (mergeFrom json_Unmarshal merge j (content w f) w) as [[merged j1] w1] eqn:Hm.
  pose proof (mergeFrom_frame _ _ _ _ _ _ Hm) as ((Hwin & Hf & Hr) & Hfiles).
  intros H. exists merged, j1, w1. revert H.
  destruct merged as [u|e|m]; [| |discriminate].
  all: cbv beta iota zeta.
  all: unfold File_Truncate0; cbn [fault log_Print]; rewrite Hf.
  all: destruct (fault w (OpTruncate _)); [discriminate|].
  all: unfold File_Seek0; cbn [fault set_files log_Print]; rewrite Hf.
  all: destruct (fault w (OpSeek _)); [discriminate|].
  all: unfold writeTo; cbn [rand set_files log_Print]; rewrite Hr.
  all: destruct (allPersistentEntries (deleteExpired j1 now) (rand w))
         as [[l| |] rand'] eqn:Hl; try discriminate.
  all: unfold File_Write; cbn [fault set_rand set_files log_Print]; rewrite Hf.
  all: destruct (fault w (OpWrite _)); [discriminate|].
  all: intros [= <- <-]; exists l, rand'; repeat split; auto.
  all: cbn [files set_files windows set_rand log_Print]; auto.
  all: rewrite lookup_insert_eq; unfold content; cbn [files set_files set_rand log_Print].
  all: rewrite lookup_insert_eq; reflexivity.
Qed.

End Transaction.

(** What [save] reads: the content of the cookie file before the call,
    nothing if there was no file. *)
Lemma create_keeps_content w q p :
  default [] (files (create w q) !! p) = default [] (files w !! p).
Proof.
  unfold create. destruct (files w !! q) eqn:E; [reflexivity|].
  cbn [files set_files]. destruct (decide (q = p)) as [->|Hne].
  - now rewrite lookup_insert_eq, E.
  - now rewrite lookup_insert_ne.
Qed.

Lemma opened_content w p locked w1 f w2 :
  internal.LockFile w p = (Ok locked, w1) ->
  os_OpenFile w1 p = (Ok f, w2) ->
  content w2 f = default [] (files w !! p).
Proof.
  intros HL HO.
  assert (E1 : default [] (files w1 !! p) = default [] (files w !! p)).
  { revert HL. unfold internal.LockFile.
    destruct (internal.tryCtx _ _ _ _ _) as [[ok err] t].
    destruct err as [e|]; [destruct (internal.is_DeadlineExceeded e); discriminate|].
    intros [= _ <-]. cbn [files set_now].
    destruct (flock w _ 0); try reflexivity; apply create_keeps_content. }
  revert HO. unfold os_OpenFile. destruct (fault w1 _); [discriminate|].
  intros [= <- <-]. unfold content. cbn [file_path].
  now rewrite create_keeps_content.
Qed.

(** C3: whatever the cookie file holds, [save] does not fail because of
    the merge: once the lock is held and the file is open, an error of
    the merge step is logged and dropped, the jar is purged, the file is
    truncated and rewritten, and [save] returns nil with the file
    holding exactly the serialized persistent entries of the purged
    in-memory jar; when the content does not decode as JSON, that jar is
    the caller's own. *)
Theorem save_ignores_merge_errors json_Unmarshal json_Marshal merge
    (j : Jar) (now : Time) (w : World) locked w1 f w2 merged j1 w3 l rand' :
  internal.LockFile w (filename j) = (Ok locked, w1) ->
  os_OpenFile w1 (filename j) = (Ok f, w2) ->
  mergeFrom json_Unmarshal merge j (default [] (files w !! filename j)) w2
    = (merged, j1, w3) ->
  (forall m, merged <> Panic m) ->
  fault w (OpTruncate (filename j)) = None ->
  fault w (OpSeek (filename j)) = None ->
  fault w (OpWrite (filename j)) = None ->
  allPersistentEntries (deleteExpired j1 now) (rand w) = (Ok l, rand') ->
  exists w',
    save json_Unmarshal json_Marshal merge j now w = (Ok tt, deleteExpired j1 now, w')
    /\ files w' !! filename j = Some (json_Marshal l ++ [base64.LF])
    /\ (exists l0,
          Forall2 (serialized (encryptedKey j1))
                  (List.filter Persistent (range_entries (deleteExpired j1 now))) l0
          /\ l = sort_Sort l0)
    /\ (forall e, merged = Err e -> In (log_Printf cannot_read e) (log w'))
    /\ (forall e, json.Decode (default [] (files w !! filename j)) = Err e -> j1 = j).
Proof.
  intros HL HO Hm Hnp Ht Hs Hw Hl.
  pose proof (opened_content _ _ _ _ _ _ HL HO) as Hc.
  pose proof (LockFile_Ok _ _ _ _ HL) as (_ & U1 & _).
  pose proof (OpenFile_Ok _ _ _ _ HO) as (Hp & U2 & _ & _).
  destruct (unchanged_trans _ _ _ U1 U2) as (Hwin & Hf & Hr).
  rewrite <- Hc in Hm.
  destruct (save_locked_succeeds json_Unmarshal json_Marshal merge j now f w2
              merged j1 w3 l rand') as (w' & Hsave & Hfile & Hwin' & Hlog); trivial.
  1-3: rewrite Hf, Hp; assumption.
  { rewrite Hr. exact Hl. }
  exists (internal.Close w' locked).
  destruct (Close_keeps_file w (filename j) locked w1 w' HL) as [Hk Hlg]; [congruence|].
  split; [|split; [|split; [|split]]].
  - unfold save. rewrite HL, HO, Hsave. reflexivity.
  - rewrite Hk, <- Hp. exact Hfile.
  - apply allPersistentEntries_Ok in Hl. exact Hl.
  - intros e He. rewrite Hlg. auto.
  - intros e He. rewrite <- Hc in He.
    destruct (mergeFrom_undecodable json_Unmarshal merge j _ w2 e He) as (m' & Hm' & _).
    congruence.
Qed.

Lemma save_ignores_merge_errors_witness :
  exists w',
    save example.Unmarshal example.Marshal example.merge (example.jar []) 100%Z
         (example.world "not JSON" 3)
      = (Ok tt, deleteExpired (example.jar []) 100%Z, w')
    /\ files w' !! filename (example.jar [])
       = Some (example.Marshal [example.session] ++ [base64.LF])
    /\ (exists l0,
          Forall2 (serialized (encryptedKey (example.jar [])))
                  (List.filter Persistent
                     (range_entries (deleteExpired (example.jar []) 100%Z))) l0
          /\ [example.session] = sort_Sort l0)
    /\ (forall e, @Err unit (json_SyntaxError "o" "in literal null (expecting 'u')" 2) = Err e ->
                  In (log_Printf cannot_read e) (log w'))
    /\ (forall e,
          json.Decode (default [] (files (example.world "not JSON" 3)
                                     !! filename (example.jar []))) = Err e ->
          example.jar [] = example.jar []).
Proof.
  eapply (save_ignores_merge_errors example.Unmarshal example.Marshal example.merge
            (example.jar []) 100%Z (example.world "not JSON" 3)).
  - vm_compute. reflexivity.
  - vm_compute. reflexivity.
  - vm_compute. reflexivity.
  - intros m. vm_compute. discriminate.
  - reflexivity.
  - reflexivity.
  - reflexivity.
  - vm_compute. reflexivity.
Defined.

(** C6: when [save] returns nil, the jar it leaves holds no entry whose
    Expires is at or before [now] (it is the merged jar, purged), and the
    file it wrote holds only entries that expire after [now]: the purge
    comes before the rewrite. *)
Theorem save_purges_expired json_Unmarshal json_Marshal merge
    (j : Jar) (now : Time) (w : World) (j' : Jar) (w' : World) :
  save json_Unmarshal json_Marshal merge j now w = (Ok tt, j', w') ->
  (exists j1, j' = deleteExpired j1 now) /\
  (forall e, in_jar j' e -> (now < Expires e)%Z) /\
  exists l, files w' !! filename j = Some (json_Marshal l ++ [base64.LF])
            /\ Forall (fun e => (now < Expires e)%Z) l.
Proof.
  unfold save.
  destruct (internal.LockFile w (filename j)) as [[locked| |] w1] eqn:HL; try discriminate.
  destruct (os_OpenFile w1 (filename j)) as [[f| |] w2] eqn:HO; try discriminate.
  destruct (save_locked _ _ _ j now f w2) as [[r j2] w3] eqn:HS.
  intros [= -> -> <-].
  apply save_locked_Ok_inv in HS as (merged & j1 & w1' & l & rand' & _ & -> & Hl & Hfile & Hwin).
  pose proof (LockFile_Ok _ _ _ _ HL) as (_ & U1 & _).
  pose proof (OpenFile_Ok _ _ _ _ HO) as (Hp & U2 & _ & _).
  destruct (unchanged_trans _ _ _ U1 U2) as (Hwin2 & _ & _).
  destruct (Close_keeps_file w (filename j) locked w1 w3 HL) as [Hk _]; [congruence|].
  split; [eauto|]. split.
  - intros e He. now apply deleteExpired_in_jar in He.
  - exists l. split; [rewrite Hk, <- Hp; exact Hfile|].
    apply allPersistentEntries_from_jar in Hl.
    eapply Forall_impl; [exact Hl|]. intros e (e0 & Hin & _ & Hs).
    rewrite (serialized_Expires _ _ _ Hs). now apply deleteExpired_in_jar in Hin.
Qed.

Lemma save_purges_expired_witness :
  (exists j1,
     snd (fst (save example.Unmarshal example.Marshal example.merge (example.jar []) 50%Z
                    (example.world "[]" 0)))
     = deleteExpired j1 50%Z) /\
  (forall e,
     in_jar (snd (fst (save example.Unmarshal example.Marshal example.merge (example.jar [])
                            50%Z (example.world "[]" 0)))) e ->
     (50 < Expires e)%Z) /\
  exists l,
    files (snd (save example.Unmarshal example.Marshal example.merge (example.jar []) 50%Z
                     (example.world "[]" 0)))
      !! filename (example.jar [])
    = Some (example.Marshal l ++ [base64.LF])
    /\ Forall (fun e => (50 < Expires e)%Z) l.
Proof.
  apply (save_purges_expired example.Unmarshal example.Marshal example.merge
           (example.jar []) 50%Z (example.world "[]" 0)).
  vm_compute. reflexivity.
Defined.

(** ** The retry loop of the lock *)

Lemma timers_bound (tf : bool) :
  (Z.of_nat (internal.timers tf) * internal.retryDelay <= internal.lockTimeout)%Z.
Proof. destruct tf; vm_compute; discriminate. Qed.

Lemma timers_le (tf : bool) : (internal.timers tf <= 1000)%nat.
Proof. destruct tf; vm_compute; lia. Qed.

(** The loop returns between its start and the deadline. *)
Lemma tryCtx_time fn name n : forall attempt t ok err t',
  (0 <= t)%Z ->
  (t + Z.of_nat n * internal.retryDelay <= internal.lockTimeout)%Z ->
  internal.tryCtx fn name n attempt t = (ok, err, t') ->
  (t <= t' <= internal.lockTimeout)%Z.
Proof.
  unfold internal.retryDelay.
  induction n as [|n IH]; intros attempt t ok err t' H0 Hn; cbn [internal.tryCtx].
  - destruct (fn attempt); intros [= _ _ <-]; lia.
  - destruct (fn attempt); try (intros [= _ _ <-]; lia).
    intros H. apply IH in H; unfold internal.retryDelay in *; lia.
Qed.

(** A lock that stays busy makes the loop end at the deadline. *)
Lemma tryCtx_busy fn name n : forall attempt t,
  (forall i, (attempt <= i <= attempt + n)%nat -> fn i = TryBusy) ->
  internal.tryCtx fn name n attempt t
  = (false, Some context_DeadlineExceeded, internal.lockTimeout).
Proof.
  induction n as [|n IH]; intros attempt t H; cbn [internal.tryCtx].
  - rewrite H by lia. reflexivity.
  - rewrite H by lia. apply IH. intros i Hi. apply H. lia.
Qed.

(** The errors of the loop: the deadline, after busy attempts only, or
    the error of a failed attempt. *)
Lemma tryCtx_err fn name n : forall attempt t ok e t',
  internal.tryCtx fn name n attempt t = (ok, Some e, t') ->
  (e = context_DeadlineExceeded
   /\ forall i, (attempt <= i <= attempt + n)%nat -> fn i = TryBusy)
  \/ (exists errno i, e = os_PathError "flock" name errno /\ fn i = TryFailed errno).
Proof.
  induction n as [|n IH]; intros attempt t ok e t'; cbn [internal.tryCtx].
  - destruct (fn attempt) eqn:E; intros [= _ <- _].
    + left. split; [reflexivity|]. intros i Hi. replace i with attempt by lia. exact E.
    + right. eauto.
  - destruct (fn attempt) eqn:E.
    + discriminate.
    + intros H. apply IH in H as [[-> Hb]|H]; [left|now right].
      split; [reflexivity|]. intros i Hi.
      destruct (Nat.eq_dec i attempt) as [->|Hne]; [exact E|]. apply Hb. lia.
    + intros [= _ <- _]. right. eauto.
Qed.

(** C5: when the lock stays busy until the deadline, [LockFile] returns
    the error "try lock timeout", which is not the error of a failed
    system call, at the deadline; in every case it returns no later than
    100 ms after the call, and the only errors it returns are the
    timeout, after busy attempts only, and the error of a failed
    attempt. [save] returns these errors unchanged. *)
Theorem LockFile_timeout_is_distinct (w : World) (path : string) :
  let name := internal.lockFileName w path in
  let timeout := errors_New "try lock timeout" in
  (* it never blocks past the deadline *)
  (now w <= now (snd (internal.LockFile w path)) <= now w + internal.lockTimeout)%Z /\
  (* a lock busy up to the deadline gives the timeout error *)
  ((forall i, (i <= internal.timers (timer_first w))%nat -> flock w name i = TryBusy) ->
   fst (internal.LockFile w path) = Err timeout /\
   now (snd (internal.LockFile w path)) = (now w + internal.lockTimeout)%Z /\
   forall json_Unmarshal json_Marshal merge j t,
     filename j = path ->
     fst (fst (save json_Unmarshal json_Marshal merge j t w)) = Err timeout) /\
  (* the timeout error and the I/O errors are told apart *)
  (forall e, fst (internal.LockFile w path) = Err e ->
     (e = timeout
      /\ forall i, (i <= internal.timers (timer_first w))%nat -> flock w name i = TryBusy)
     \/ (exists errno i, e = os_PathError "flock" name errno
                         /\ flock w name i = TryFailed errno)) /\
  (forall op p errno, timeout <> os_PathError op p errno).
Proof.
  intros name timeout.
  unfold internal.LockFile. fold name.
  destruct (internal.tryCtx (flock w name) name (internal.timers (timer_first w)) 0 0%Z)
    as [[ok err] t] eqn:E.
  pose proof (tryCtx_time _ _ _ _ _ _ _ _ (Z.le_refl 0%Z) (timers_bound (timer_first w)) E) as Ht.
  split; [|split; [|split]].
  - destruct err as [e|]; [destruct (internal.is_DeadlineExceeded e)|];
      cbn [snd now set_now]; lia.
  - intros Hbusy.
    rewrite tryCtx_busy in E by (intros i Hi; apply Hbusy; lia).
    injection E as <- <- <-. cbn [internal.is_DeadlineExceeded fst snd now set_now].
    split; [reflexivity|]. split; [reflexivity|].
    intros um ma mg j t' <-. unfold save, internal.LockFile. fold name.
    rewrite tryCtx_busy by (intros i Hi; apply Hbusy; lia). reflexivity.
  - intros e. destruct err as [e0|]; [|discriminate].
    apply tryCtx_err in E as [[-> Hb]|(errno & i & -> & Hi)].
    + cbn. intros [= <-]. left. split; [reflexivity|]. intros i Hi. apply Hb. lia.
    + cbn. intros [= <-]. right. eauto.
  - discriminate.
Qed.

Lemma LockFile_timeout_is_distinct_witness :
  fst (internal.LockFile (example.world "[]" 2000) "cookies")
    = Err (errors_New "try lock timeout") /\
  now (snd (internal.LockFile (example.world "[]" 2000) "cookies")) = 100100%Z /\
  forall json_Unmarshal json_Marshal merge j t,
    filename j = "cookies" ->
    fst (fst (save json_Unmarshal json_Marshal merge j t (example.world "[]" 2000)))
    = Err (errors_New "try lock timeout").
Proof.
  apply (LockFile_timeout_is_distinct (example.world "[]" 2000) "cookies").
  intros i Hi. pose proof (timers_le (timer_first (example.world "[]" 2000))).
  cbn [flock example.world].
  destruct (Nat.ltb_spec i 2000) as [_|?]; [reflexivity|lia].
Defined.

(** ** The decoder and end of file *)

(** A stream of white space only ends in [io.EOF]. *)
Lemma readValue_blank (buf : list byte) : forall rest s scanp,
  json.step s = json.stateBeginValue ->
  json.nonSpace rest = false ->
  json.readValue buf s scanp rest
  = if json.nonSpace buf then Err io_ErrUnexpectedEOF else Err io_EOF.
Proof.
  induction rest as [|c rest IH]; intros s scanp Hs Hr.
  - cbn [json.readValue]. unfold json.do_step. rewrite Hs. reflexivity.
  - cbn [json.nonSpace existsb] in Hr. apply orb_false_elim in Hr as [Hc Hr].
    apply negb_false_iff in Hc.
    cbn [json.readValue]. unfold json.do_step.
    change (json.step (json.count_byte s 1)) with (json.step s). rewrite Hs.
    unfold json.do_stateBeginValue. rewrite Hc. apply IH; assumption.
Qed.

Lemma error_at_no_EOF s c ctx : no_EOF (fst (json.error_at s c ctx)).
Proof. discriminate. Qed.

Lemma push_no_EOF s c p ok : no_EOF s -> no_EOF (fst (json.pushParseState s c p ok)).
Proof.
  intros H. unfold json.pushParseState. destruct (_ <=? _)%N; [exact H|discriminate].
Qed.

Lemma pop_no_EOF s : no_EOF s -> no_EOF (json.popParseState s).
Proof. intros H. unfold json.popParseState. destruct (tl _); exact H. Qed.

Lemma endTop_no_EOF s c : no_EOF s -> no_EOF (fst (json.do_stateEndTop s c)).
Proof. intros H. unfold json.do_stateEndTop. destruct (negb _); [discriminate|exact H]. Qed.

Lemma endValue_no_EOF s c : no_EOF s -> no_EOF (fst (json.do_stateEndValue s c)).
Proof.
  intros H. unfold json.do_stateEndValue.
  destruct (json.parseState s) as [|ps rest].
  - apply endTop_no_EOF. exact H.
  - destruct (json.isSpace c); [exact H|].
    destruct ps; repeat (match goal with |- context [if ?b then _ else _] => destruct b end);
      try exact H; try discriminate; apply pop_no_EOF; exact H.
Qed.

Lemma beginValue_no_EOF s c : no_EOF s -> no_EOF (fst (json.do_stateBeginValue s c)).
Proof.
  intros H. unfold json.do_stateBeginValue.
  destruct (json.isSpace c); [exact H|].
  destruct c; try (apply push_no_EOF; exact H); try exact H;
    (destruct (json.isDigit19 _); [exact H|discriminate]).
Qed.

Lemma beginString_no_EOF s c : no_EOF s -> no_EOF (fst (json.do_stateBeginString s c)).
Proof.
  intros H. unfold json.do_stateBeginString.
  destruct (json.isSpace c); [exact H|]. destruct (Byte.eqb c x22); [exact H|discriminate].
Qed.

Lemma state0_no_EOF s c : no_EOF s -> no_EOF (fst (json.do_state0 s c)).
Proof.
  intros H. unfold json.do_state0.
  destruct (Byte.eqb c "."); [exact H|]. destruct (_ || _); [exact H|].
  apply endValue_no_EOF. exact H.
Qed.

Lemma ESign_no_EOF s c : no_EOF s -> no_EOF (fst (json.do_stateESign s c)).
Proof. intros H. unfold json.do_stateESign. destruct (json.isDigit c); [exact H|discriminate]. Qed.

Lemma expect_no_EOF s c want next ctx : no_EOF s -> no_EOF (fst (json.expect s c want next ctx)).
Proof. intros H. unfold json.expect. destruct (Byte.eqb c want); [exact H|discriminate]. Qed.

Lemma expect_hex_no_EOF s c next : no_EOF s -> no_EOF (fst (json.expect_hex s c next)).
Proof. intros H. unfold json.expect_hex. destruct (json.isHex c); [exact H|discriminate]. Qed.

Lemma do_step_no_EOF s c : no_EOF s -> no_EOF (fst (json.do_step s c)).
Proof.
  intros H. unfold json.do_step.
  destruct (json.step s);
    auto using beginValue_no_EOF, beginString_no_EOF, endValue_no_EOF, endTop_no_EOF,
               state0_no_EOF, ESign_no_EOF, expect_no_EOF, expect_hex_no_EOF.
  all: repeat (match goal with |- context [if ?b then _ else _] => destruct b end);
    auto using beginValue_no_EOF, beginString_no_EOF, endValue_no_EOF, endTop_no_EOF,
               state0_no_EOF, ESign_no_EOF, expect_no_EOF, expect_hex_no_EOF;
    try discriminate.
  all: try (apply (endValue_no_EOF (json.set_parse s _)); exact H).
  destruct c; try exact H; discriminate.
Qed.

(** Only a stream of white space ends in [io.EOF]. *)
Lemma readValue_EOF_blank (buf : list byte) : forall rest s scanp,
  no_EOF s ->
  json.readValue buf s scanp rest = Err io_EOF ->
  json.nonSpace buf = false.
Proof.
  induction rest as [|c rest IH]; intros s scanp Hs; cbn [json.readValue].
  - destruct (match snd (json.do_step s " ") with json.scanEnd => true | _ => false end);
      [discriminate|].
    destruct (json.nonSpace buf); [discriminate|reflexivity].
  - pose proof (do_step_no_EOF (json.count_byte s 1) c Hs) as Hs'.
    destruct (json.do_step (json.count_byte s 1) c) as [s' code]. cbn [fst] in Hs'.
    pose proof (endValue_no_EOF s' " " Hs') as Hs''.
    destruct code; try (apply IH; exact Hs'); try discriminate.
    + destruct (json.do_stateEndValue s' " ") as [s'' code2]. cbn [fst] in Hs''.
      destruct code2; try (apply IH; exact Hs''); discriminate.
    + destruct (json.do_stateEndValue s' " ") as [s'' code2]. cbn [fst] in Hs''.
      destruct code2; try (apply IH; exact Hs''); discriminate.
    + destruct (json.err s') as [e|] eqn:Ee; [|discriminate].
      intros [= ->]. now destruct Hs'.
Qed.

Lemma Decode_EOF_iff (r : list byte) : json.Decode r = Err io_EOF <-> json.nonSpace r = false.
Proof.
  unfold json.Decode. split.
  - destruct (json.readValue r json.reset 0 r) as [n|e|m] eqn:E; try discriminate.
    intros [= ->]. eapply readValue_EOF_blank; [|exact E]. discriminate.
  - intros H. rewrite (readValue_blank r r json.reset 0 eq_refl H), H. reflexivity.
Qed.

(** C4, as the code has it: [mergeFrom] returns nil and merges nothing on
    a stream that is empty or holds white space only; it returns the
    decoder's error on a stream with another byte whose first JSON value
    does not parse; it logs a warning, returns nil and merges nothing
    when the value parses but does not unmarshal as an array of entries;
    otherwise it merges the entries. [load] returns what [mergeFrom]
    returns on the content of the file. *)
Theorem mergeFrom_classification json_Unmarshal merge filepath_Dir
    (j : Jar) (r : list byte) (w : World) :
  (json.nonSpace r = false ->
   mergeFrom json_Unmarshal merge j r w = (Ok tt, j, w)) /\
  (json.nonSpace r = true ->
   forall e, json.Decode r = Err e ->
             e <> io_EOF /\ mergeFrom json_Unmarshal merge j r w = (Err e, j, w)) /\
  (forall data e,
     json.Decode r = Ok data -> json_Unmarshal data = Err e ->
     mergeFrom json_Unmarshal merge j r w
     = (Ok tt, j, log_Print w (log_Printf invalid_format e))) /\
  (forall data es,
     json.Decode r = Ok data -> json_Unmarshal data = Ok es ->
     mergeFrom json_Unmarshal merge j r w = (fst (merge j es), snd (merge j es), w)) /\
  (forall w0 locked f,
     match os_Stat w0 (filepath_Dir (filename j)) with
     | Err err => os_IsNotExist err
     | _ => false
     end = false ->
     internal.LockFile w0 (filename j) = (Ok locked, w) ->
     os_Open w (filename j) = Ok f ->
     content w f = r ->
     load json_Unmarshal merge filepath_Dir j w0
     = (fst (fst (mergeFrom json_Unmarshal merge j r w)),
        snd (fst (mergeFrom json_Unmarshal merge j r w)),
        internal.Close (snd (mergeFrom json_Unmarshal merge j r w)) locked)).
Proof.
  split; [|split; [|split; [|split]]].
  - intros H. apply Decode_EOF_iff in H. unfold mergeFrom. now rewrite H.
  - intros H e He.
    assert (Hne : e <> io_EOF).
    { intros ->. apply Decode_EOF_iff in He. congruence. }
    split; [exact Hne|]. unfold mergeFrom. rewrite He. destruct e; congruence.
  - intros data e Hd Hu. unfold mergeFrom. now rewrite Hd, Hu.
  - intros data es Hd Hu. unfold mergeFrom. rewrite Hd, Hu. now destruct (merge j es).
  - intros w0 locked f Hstat HL HO <-. unfold load. rewrite Hstat, HL, HO.
    now destruct (mergeFrom json_Unmarshal merge j (content w f) w) as [[res j'] w2].
Qed.

Lemma mergeFrom_classification_witness :
  mergeFrom example.Unmarshal example.merge (example.jar []) [x20; x0a] (example.world EmptyString 0)
    = (Ok tt, example.jar [], example.world EmptyString 0) /\
  (io_ErrUnexpectedEOF <> io_EOF /\
   mergeFrom example.Unmarshal example.merge (example.jar []) [x5b; x31] (example.world EmptyString 0)
     = (Err io_ErrUnexpectedEOF, example.jar [], example.world EmptyString 0)).
Proof.
  split.
  - apply (mergeFrom_classification example.Unmarshal example.merge example.Dir
             (example.jar []) [x20; x0a] (example.world EmptyString 0)).
    reflexivity.
  - apply (mergeFrom_classification example.Unmarshal example.merge example.Dir
             (example.jar []) [x5b; x31] (example.world EmptyString 0)); reflexivity.
Defined.

(** C4 as stated fails on a stream of one space: the stream is not
    empty and holds no JSON value, and [mergeFrom] returns nil, not a
    hard error. *)
Lemma mergeFrom_blank_stream_counterexample :
  [x20] <> [] /\
  (forall data, json.Decode [x20] <> Ok data) /\
  mergeFrom example.Unmarshal example.merge (example.jar []) [x20] (example.world EmptyString 0)
  = (Ok tt, example.jar [], example.world EmptyString 0).
Proof.
  split; [discriminate|]. split; [intros data; vm_compute; discriminate|].
  reflexivity.
Qed.

(** * Further properties of the codec *)

Lemma NewCipher_Ok_iff (key : list byte) :
  (exists block, aes.NewCipher key = Ok block) <-> In (List.length key) [16; 24; 32]%nat.
Proof.
  split.
  - intros [block H]. unfold aes.NewCipher in H. cbn [In].
    destruct (Nat.eqb_spec (List.length key) 16); [auto|].
    destruct (Nat.eqb_spec (List.length key) 24); [auto|].
    destruct (Nat.eqb_spec (List.length key) 32); [auto|]. discriminate.
  - intros H. destruct (NewCipher_ok key H) as (block & Hb & _). eauto.
Qed.

Lemma NewCipher_bad_key (key : list byte) :
  ~ In (List.length key) [16; 24; 32]%nat ->
  aes.NewCipher key = Err (aes_KeySizeError (Z.of_nat (List.length key))).
Proof.
  intros H. unfold aes.NewCipher. cbn [In] in H.
  destruct (Nat.eqb_spec (List.length key) 16) as [e|_]; [exfalso; apply H; rewrite e; auto|].
  destruct (Nat.eqb_spec (List.length key) 24) as [e|_]; [exfalso; apply H; rewrite e; auto|].
  destruct (Nat.eqb_spec (List.length key) 32) as [e|_]; [exfalso; apply H; rewrite e; auto|]. reflexivity.
Qed.

(** A key of a wrong size is refused before the random source is read. *)
Lemma encrypt_bad_key (plaintext key rand : list byte) :
  ~ In (List.length key) [16; 24; 32]%nat ->
  encrypt plaintext key rand
  = (Err (errors_WithMessage (aes_KeySizeError (Z.of_nat (List.length key)))
                             "invalid encrypt key"), rand).
Proof. intros H. unfold encrypt. now rewrite NewCipher_bad_key. Qed.

Lemma encrypt_short_rand (plaintext key rand : list byte) :
  In (List.length key) [16; 24; 32]%nat -> (List.length rand < 12)%nat ->
  exists cause,
    (cause = io_EOF \/ cause = io_ErrUnexpectedEOF) /\
    encrypt plaintext key rand = (Err (errors_WithMessage cause "make nonce error"), []).
Proof.
  intros Hk Hr. destruct (NewCipher_ok key Hk) as (block & Hb & _).
  unfold encrypt. rewrite Hb.
  change (cipher.NewGCM block)
    with (@Ok cipher.AEAD {| cipher.block := block;
                             cipher.nonceSize := cipher.gcmStandardNonceSize;
                             cipher.tagSize := cipher.gcmTagSize |}).
  cbv beta iota. change (cipher.NonceSize _) with 12%nat.
  unfold io_ReadFull. destruct (Nat.leb_spec 12 (List.length rand)) as [?|_]; [lia|].
  destruct rand; eauto.
Qed.

Lemma key_size_dec (key : list byte) :
  In (List.length key) [16; 24; 32]%nat \/ ~ In (List.length key) [16; 24; 32]%nat.
Proof.
  cbn [In]. destruct (Nat.eq_dec (List.length key) 16); [auto|].
  destruct (Nat.eq_dec (List.length key) 24); [auto|].
  destruct (Nat.eq_dec (List.length key) 32); [auto|]. right. intuition.
Qed.

Lemma encrypt_Ok_key_rand (plaintext key rand : list byte) text rand' :
  encrypt plaintext key rand = (Ok text, rand') ->
  In (List.length key) [16; 24; 32]%nat /\ (12 <= List.length rand)%nat.
Proof.
  intros H. destruct (key_size_dec key) as [Hk|Hk].
  - split; [exact Hk|]. destruct (Nat.le_gt_cases 12 (List.length rand)) as [Hr|Hr]; trivial.
    destruct (encrypt_short_rand plaintext key rand Hk Hr) as (c & _ & E). congruence.
  - rewrite (encrypt_bad_key plaintext key rand Hk) in H. discriminate.
Qed.

(** X1: [encrypt] never panics and succeeds exactly when the key has 16,
    24 or 32 bytes and the random source delivers the twelve bytes of
    the nonce. A key of another size is reported as "invalid encrypt
    key" around the key-size error, before anything is read from the
    random source; a random source that ends early is reported as "make
    nonce error". *)
Theorem encrypt_outcomes (plaintext key rand : list byte) :
  (forall m rand', encrypt plaintext key rand <> (Panic m, rand')) /\
  ((exists text rand', encrypt plaintext key rand = (Ok text, rand'))
   <-> In (List.length key) [16; 24; 32]%nat /\ (12 <= List.length rand)%nat) /\
  (~ In (List.length key) [16; 24; 32]%nat ->
   encrypt plaintext key rand
   = (Err (errors_WithMessage (aes_KeySizeError (Z.of_nat (List.length key)))
                              "invalid encrypt key"), rand)) /\
  (In (List.length key) [16; 24; 32]%nat -> (List.length rand < 12)%nat ->
   exists cause,
     (cause = io_EOF \/ cause = io_ErrUnexpectedEOF) /\
     encrypt plaintext key rand = (Err (errors_WithMessage cause "make nonce error"), [])).
Proof.
  split; [|split; [|split]].
  - intros m rand' H. destruct (key_size_dec key) as [Hk|Hk].
    + destruct (Nat.le_gt_cases 12 (List.length rand)) as [Hr|Hr].
      * destruct (encrypt_sealed plaintext key rand Hk Hr) as (?&?&?&_&_&_&_&_&E).
        congruence.
      * destruct (encrypt_short_rand plaintext key rand Hk Hr) as (c & _ & E). congruence.
    + rewrite (encrypt_bad_key plaintext key rand Hk) in H. discriminate.
  - split.
    + intros (text & rand' & H). exact (encrypt_Ok_key_rand _ _ _ _ _ H).
    + intros [Hk Hr].
      destruct (encrypt_sealed plaintext key rand Hk Hr) as (?&?&?&_&_&_&_&_&E). eauto.
  - apply encrypt_bad_key.
  - apply encrypt_short_rand.
Qed.

(** X2: the text of a successful [encrypt] has 3 + EncodedLen(12 + n + 16)
    characters for a plaintext of n bytes, the capacity the buffer was
    made with; each is "v", "0", "1" or, after them, a character of the
    base64 alphabet or "=". *)
Theorem encrypt_text_length (plaintext key rand : list byte) (text : string) rand' :
  encrypt plaintext key rand = (Ok text, rand') ->
  String.length text = (3 + base64.EncodedLen (12 + (List.length plaintext + 16)))%nat /\
  exists body,
    text = ("v01" ++ string_of_list_byte body)%string /\
    Forall (fun c => base64.decodeMap c <> 255%N \/ c = base64.padChar) body.
Proof.
  intros H.
  assert (Hok : In (List.length key) [16; 24; 32]%nat /\ (12 <= List.length rand)%nat).
  { exact (encrypt_Ok_key_rand _ _ _ _ _ H). }
  destruct Hok as [Hk Hr].
  destruct (encrypt_sealed plaintext key rand Hk Hr)
    as (block & mode & sealed & _ & _ & _ & _ & Hl & E).
  rewrite E in H. injection H as <- _.
  split.
  - rewrite String_append_length. unfold base64.EncodeToString.
    rewrite <- (length_list_byte_of_string (string_of_list_byte _)).
    rewrite list_byte_of_string_of_list_byte.
    rewrite length_Encode, length_app, length_take, Hl.
    replace (12 `min` List.length rand)%nat with 12%nat by lia. reflexivity.
  - exists (base64.Encode (firstn 12 rand ++ sealed)). split; [reflexivity|].
    generalize (firstn 12 rand ++ sealed). intros x.
    assert (S : forall val k, base64.decodeMap (base64.sextet val k) <> 255%N).
    { intros val k. rewrite sextet_spec, decodeMap_encode
        by (apply N.mod_upper_bound; discriminate).
      pose proof (N.mod_upper_bound (val / 2 ^ k) 64). lia. }
    induction x as [|a|a b|a b c l IH] using list_ind3; cbn [base64.Encode]; cbv zeta;
      repeat (apply Forall_cons; split; [first [left; apply S | right; reflexivity]|]);
      try exact IH; apply Forall_nil; exact I.
Qed.

Lemma prefix_v01 (t : string) :
  String.prefix "v01" t = true -> exists s, t = ("v01" ++ s)%string.
Proof.
  intros H. apply String.prefix_correct in H. cbn [String.length] in H.
  destruct t as [|a [|b [|c s]]]; try discriminate H.
  cbn [String.substring] in H. injection H as -> -> -> _. exists s. reflexivity.
Qed.

Lemma ConstantTimeCompare_true (x y : list byte) :
  cipher.ConstantTimeCompare x y = true -> x = y.
Proof.
  unfold cipher.ConstantTimeCompare. intros H. apply andb_prop in H as [Hl Hf].
  apply Nat.eqb_eq in Hl. revert y Hl Hf.
  induction x as [|a x IH]; intros [|b y] Hl Hf; try discriminate; [reflexivity|].
  cbn in Hf. apply andb_prop in Hf as [Hab Hf].
  apply Byte.byte_dec_bl in Hab. subst b. f_equal. apply IH; [now injection Hl|exact Hf].
Qed.

(** What [Open] accepts is what [Seal] makes of the plaintext it
    returns. *)
Lemma Open_Ok_inv (b : aes.Block) (g : cipher.AEAD) (nonce c data p : list byte) :
  (4 <= List.length (aes.enc b))%nat ->
  cipher.NewGCM b = Ok g ->
  cipher.Open g nonce c data = Ok p ->
  (16 <= List.length c)%nat /\ cipher.Seal g nonce p data = Ok c.
Proof.
  intros Hb [= <-]. unfold cipher.Seal, cipher.Open.
  set (g := {| cipher.block := b; cipher.nonceSize := _; cipher.tagSize := _ |}).
  change (cipher.nonceSize g) with 12%nat. change (cipher.tagSize g) with 16%nat.
  change (cipher.block g) with b.
  destruct (negb _); [discriminate|].
  destruct (Nat.ltb_spec (List.length c) 16) as [|Hc]; [discriminate|].
  set (n := (List.length c - 16)%nat).
  set (counter := cipher.deriveCounter nonce).
  set (mask := aes.Encrypt b counter).
  assert (Hmask : List.length mask = 16%nat) by (apply length_Encrypt; exact Hb).
  set (expected := cipher.auth g (firstn n c) data mask).
  assert (Hexp : List.length expected = 16%nat) by (apply length_auth; exact Hmask).
  rewrite (take_ge expected) by lia.
  destruct (cipher.ConstantTimeCompare expected (skipn n c)) eqn:E; [|discriminate].
  apply ConstantTimeCompare_true in E. cbn [negb]. intros [= <-].
  split; [exact Hc|]. f_equal.
  assert (Hn : List.length (firstn n c) = n) by (rewrite length_take; lia).
  rewrite length_counterCrypt by (trivial; lia).
  rewrite counterCrypt_involutive by (trivial; lia).
  fold expected. rewrite E. apply take_drop.
Qed.

(** What [decrypt] makes of an error of the base64 decoder. *)
Lemma decrypt_undecodable (s : string) (key written : list byte) (err : error) :
  base64.Decode (list_byte_of_string s) = (written, Some err) ->
  decrypt ("v01" ++ s) key = Err (errors_WithMessage err "base64 decode error").
Proof.
  intros HD. unfold decrypt.
  change (String.prefix "v01" ("v01" ++ s)) with (String.prefix EmptyString s).
  replace (String.prefix EmptyString s) with true by (destruct s; reflexivity).
  cbn [negb].
  change (String.length ("v01" ++ s) - 3)%nat with (String.length s - 0)%nat.
  rewrite Nat.sub_0_r.
  change (skipn 3 (list_byte_of_string ("v01" ++ s))) with (list_byte_of_string s).
  pose proof (Decode_fits (list_byte_of_string s)) as F.
  rewrite HD, length_list_byte_of_string in F. cbn [fst] in F.
  unfold Decode_into. rewrite HD.
  replace (cap (make _)) with (base64.DecodedLen (String.length s))
    by (unfold cap, make; cbn [arr]; now rewrite repeat_length).
  destruct (Nat.ltb_spec (base64.DecodedLen (String.length s)) (List.length written)); [lia|].
  reflexivity.
Qed.

(** X3: [decrypt] checks the tag, then the base64 text, then the key:
    a text "v01" + s whose s is not valid base64 is reported as "base64
    decode error" around the decoder's error, whatever the key. *)
Theorem decrypt_base64_error (s : string) (key written : list byte) (err : error) :
  base64.Decode (list_byte_of_string s) = (written, Some err) ->
  decrypt ("v01" ++ s) key = Err (errors_WithMessage err "base64 decode error").
Proof. apply decrypt_undecodable. Qed.

Lemma decrypt_base64_error_witness :
  decrypt ("v01" ++ "AAA*") [] = Err (errors_WithMessage (base64_CorruptInputError 3)
                                                         "base64 decode error").
Proof.
  apply (decrypt_base64_error "AAA*" [] []). vm_compute. reflexivity.
Defined.

(** X4: with valid base64 after the tag and a key that has not 16, 24 or
    32 bytes, [decrypt] returns the bare error "invalid decrypt key",
    also when the decoded bytes are too few for a nonce: the key is
    checked before the nonce is split off. *)
Theorem decrypt_invalid_key (s : string) (key x : list byte) :
  base64.Decode (list_byte_of_string s) = (x, None) ->
  ~ In (List.length key) [16; 24; 32]%nat ->
  decrypt ("v01" ++ s) key = Err (errors_New "invalid decrypt key").
Proof.
  intros HD Hk. rewrite (decrypt_tagged s key x HD), NewCipher_bad_key by exact Hk.
  reflexivity.
Qed.

Lemma decrypt_invalid_key_witness :
  decrypt ("v01" ++ "AAAA") (repeat x00 17) = Err (errors_New "invalid decrypt key").
Proof.
  apply (decrypt_invalid_key "AAAA" (repeat x00 17) (repeat x00 3)).
  - vm_compute. reflexivity.
  - cbn. lia.
Defined.

(** X5: with a valid key and a payload of at least 12 and fewer than 28
    bytes (a nonce, but no room for the 16-byte tag), [decrypt] returns
    the authentication error of the cipher. *)
Theorem decrypt_no_room_for_tag (s : string) (key x : list byte) :
  In (List.length key) [16; 24; 32]%nat ->
  base64.Decode (list_byte_of_string s) = (x, None) ->
  (12 <= List.length x < 28)%nat ->
  decrypt ("v01" ++ s) key = Err cipher_errOpen.
Proof.
  intros Hk HD Hx. rewrite (decrypt_tagged s key x HD).
  destruct (NewCipher_ok key Hk) as (block & -> & _).
  change (cipher.NewGCM block)
    with (@Ok cipher.AEAD {| cipher.block := block;
                             cipher.nonceSize := cipher.gcmStandardNonceSize;
                             cipher.tagSize := cipher.gcmTagSize |}).
  cbv beta iota. change (cipher.NonceSize _) with 12%nat.
  pose proof (Decode_fits (list_byte_of_string s)) as F.
  rewrite HD, length_list_byte_of_string in F. cbn [fst] in F.
  destruct (Nat.ltb_spec (base64.DecodedLen (String.length s)) 12); [lia|].
  destruct (Nat.ltb_spec (List.length x) 12); [lia|]. cbn [orb].
  unfold cipher.Open. cbn [cipher.nonceSize cipher.tagSize].
  change cipher.gcmStandardNonceSize with 12%nat. change cipher.gcmTagSize with 16%nat.
  rewrite length_take, length_drop.
  replace (12 `min` List.length x)%nat with 12%nat by lia. cbn [Nat.eqb negb].
  destruct (Nat.ltb_spec (List.length x - 12) 16); [reflexivity|lia].
Qed.

Lemma decrypt_no_room_for_tag_witness :
  decrypt ("v01" ++ "AAAAAAAAAAAAAAAA") (repeat x00 16) = Err cipher_errOpen.
Proof.
  apply (decrypt_no_room_for_tag "AAAAAAAAAAAAAAAA" (repeat x00 16) (repeat x00 12)).
  - cbn. auto.
  - vm_compute. reflexivity.
  - cbn. lia.
Defined.

(** X6: [decrypt] returns a plaintext only for a text that starts with
    "v01", continues with valid base64 of at least 28 bytes, and whose
    bytes after the nonce are exactly what GCM's Seal makes of that
    plaintext under that nonce and the key: [encrypt] of the returned
    plaintext with the same nonce gives the canonical encoding of the
    same payload. *)
Theorem decrypt_accepts_only_sealed (text : string) (key p : list byte) :
  decrypt text key = Ok p ->
  exists s x block mode,
    text = ("v01" ++ s)%string /\
    base64.Decode (list_byte_of_string s) = (x, None) /\
    (28 <= List.length x)%nat /\
    aes.NewCipher key = Ok block /\ cipher.NewGCM block = Ok mode /\
    cipher.Seal mode (firstn 12 x) p [] = Ok (skipn 12 x) /\
    fst (encrypt p key (firstn 12 x)) = Ok ("v01" ++ base64.EncodeToString x)%string.
Proof.
  intros H.
  destruct (String.prefix "v01" text) eqn:Ep.
  2:{ unfold decrypt in H. rewrite Ep in H. discriminate. }
  apply prefix_v01 in Ep as [s ->]. exists s.
  destruct (base64.Decode (list_byte_of_string s)) as [x [err|]] eqn:HD.
  { rewrite (decrypt_undecodable s key x err HD) in H. discriminate. }
  exists x. rewrite (decrypt_tagged s key x HD) in H.
  destruct (aes.NewCipher key) as [block| |] eqn:Hb; try discriminate.
  assert (Hk : In (List.length key) [16; 24; 32]%nat) by (apply NewCipher_Ok_iff; eauto).
  destruct (NewCipher_ok key Hk) as (block' & Hb' & Hwf).
  rewrite Hb in Hb'. injection Hb' as <-.
  destruct (cipher.NewGCM block) as [mode| |] eqn:Hm; try discriminate.
  pose proof Hm as [= Em]. rewrite <- Em in H.
  change (cipher.NonceSize _) with 12%nat in H. rewrite Em in H.
  destruct (Nat.ltb_spec (base64.DecodedLen (String.length s)) 12); [discriminate|].
  destruct (Nat.ltb_spec (List.length x) 12) as [|Hx]; [discriminate|]. cbn [orb] in H.
  apply (Open_Ok_inv block mode) in H as [Hc Hs]; trivial.
  rewrite length_drop in Hc.
  exists block, mode. repeat split; trivial; try lia.
  assert (Hn : List.length (firstn 12 x) = 12%nat) by (rewrite length_take; lia).
  destruct (encrypt_sealed p key (firstn 12 x) Hk) as (b2 & m2 & sealed & Hb2 & _ & Hm2 & Hs2 & _ & E);
    [lia|].
  rewrite Hb in Hb2. injection Hb2 as <-. rewrite Hm in Hm2. injection Hm2 as <-.
  rewrite (take_ge (firstn 12 x)) in Hs2, E by lia.
  rewrite Hs in Hs2. injection Hs2 as <-. rewrite E, take_drop. reflexivity.
Qed.

Lemma decrypt_accepts_only_sealed_witness :
  exists s x block mode,
    "v01BwcHBwcHBwcHBwcHrCcjz7Q2Sfu8RLhSNuoeWXqLvZR0L9tQLiI="
    = ("v01" ++ s)%string /\
    base64.Decode (list_byte_of_string s) = (x, None) /\
    (28 <= List.length x)%nat /\
    aes.NewCipher (repeat x2a 16) = Ok block /\ cipher.NewGCM block = Ok mode /\
    cipher.Seal mode (firstn 12 x) (list_byte_of_string "session=42") [] = Ok (skipn 12 x) /\
    fst (encrypt (list_byte_of_string "session=42") (repeat x2a 16) (firstn 12 x))
    = Ok ("v01" ++ base64.EncodeToString x)%string.
Proof.
  apply (decrypt_accepts_only_sealed _ (repeat x2a 16) (list_byte_of_string "session=42")).
  vm_compute. reflexivity.
Defined.

(** * Further properties of [allPersistentEntries] *)





Lemma collect_plain (es : list entry) (rand : list byte) :
  collect [] es rand = (Ok (List.filter Persistent es), rand).
Proof.
  induction es as [|e es IH]; cbn [collect List.filter]; [reflexivity|].
  destruct (Persistent e); [|exact IH]. cbn [List.length Nat.ltb Nat.leb]. now rewrite IH.
Qed.

(** X8: without a key, [allPersistentEntries] cannot fail and reads no
    random byte; it returns the persistent entries of the jar, each as
    it is in the jar, and no other entry. *)
Theorem allPersistentEntries_without_key (j : Jar) (rand : list byte) :
  encryptedKey j = [] ->
  exists l,
    allPersistentEntries j rand = (Ok l, rand) /\
    Permutation l (List.filter Persistent (range_entries j)) /\
    forall e, In e l <-> in_jar j e /\ Persistent e = true.
Proof.
  intros Hk. unfold allPersistentEntries. rewrite Hk, collect_plain.
  eexists. split; [reflexivity|]. split; [apply sort_Sort_perm|].
  intros e. rewrite <- range_entries_in_jar, <- filter_In.
  split; apply Permutation_in; [|symmetry]; apply sort_Sort_perm.
Qed.

Lemma allPersistentEntries_without_key_witness :
  exists l,
    allPersistentEntries (example.jar []) [] = (Ok l, []) /\
    Permutation l (List.filter Persistent (range_entries (example.jar []))) /\
    forall e, In e l <-> in_jar (example.jar []) e /\ Persistent e = true.
Proof.
  apply (allPersistentEntries_without_key (example.jar []) []). reflexivity.
Defined.

Lemma collect_bad_key (key : list byte) (es : list entry) (rand : list byte) :
  (0 < List.length key)%nat ->
  ~ In (List.length key) [16; 24; 32]%nat ->
  collect key es rand =
  if existsb Persistent es
  then (Err (errors_WithMessage
               (errors_WithMessage (aes_KeySizeError (Z.of_nat (List.length key)))
                                   "invalid encrypt key")
               "encrypt value error"), rand)
  else (Ok [], rand).
Proof.
  intros H0 Hk. induction es as [|e es IH]; cbn [collect existsb]; [reflexivity|].
  destruct (Persistent e); cbn [orb]; [|exact IH].
  destruct (Nat.ltb_spec 0 (List.length key)) as [_|?]; [|lia].
  now rewrite (encrypt_bad_key _ key rand Hk).
Qed.

Lemma allPersistentEntries_bad_key (j : Jar) (rand : list byte) :
  (0 < List.length (encryptedKey j))%nat ->
  ~ In (List.length (encryptedKey j)) [16; 24; 32]%nat ->
  (exists e, in_jar j e /\ Persistent e = true) ->
  allPersistentEntries j rand
  = (Err (errors_WithMessage
            (errors_WithMessage (aes_KeySizeError (Z.of_nat (List.length (encryptedKey j))))
                                "invalid encrypt key")
            "encrypt value error"), rand).
Proof.
  intros H0 Hk (e & Hin & Hp).
  unfold allPersistentEntries. rewrite (collect_bad_key _ _ _ H0 Hk).
  replace (existsb Persistent (range_entries j)) with true; [reflexivity|].
  symmetry. apply existsb_exists. exists e. split; [|exact Hp].
  now apply range_entries_in_jar.
Qed.

(** X9: a key of a wrong size is found out only when there is something
    to encrypt: with such a key, [allPersistentEntries] fails with
    "encrypt value error" around "invalid encrypt key" when the jar has
    a persistent entry, and returns no entry and no error when it has
    none. No random byte is read in either case. *)
Theorem bad_key_found_on_first_entry (j : Jar) (rand : list byte) :
  (0 < List.length (encryptedKey j))%nat ->
  ~ In (List.length (encryptedKey j)) [16; 24; 32]%nat ->
  ((exists e, in_jar j e /\ Persistent e = true) ->
   allPersistentEntries j rand
   = (Err (errors_WithMessage
             (errors_WithMessage (aes_KeySizeError (Z.of_nat (List.length (encryptedKey j))))
                                 "invalid encrypt key")
             "encrypt value error"), rand)) /\
  ((forall e, in_jar j e -> Persistent e = false) ->
   allPersistentEntries j rand = (Ok [], rand)).
Proof.
  intros H0 Hk. split.
  - now apply allPersistentEntries_bad_key.
  - intros Hnone. unfold allPersistentEntries. rewrite (collect_bad_key _ _ _ H0 Hk).
    replace (existsb Persistent (range_entries j)) with false; [reflexivity|].
    symmetry. apply not_true_is_false. intros Hex.
    apply existsb_exists in Hex as (e & Hin & Hp).
    apply range_entries_in_jar in Hin. rewrite (Hnone e Hin) in Hp. discriminate.
Qed.

Lemma bad_key_found_on_first_entry_witness :
  allPersistentEntries (example.jar [x01; x02; x03]) []
  = (Err (errors_WithMessage
            (errors_WithMessage (aes_KeySizeError 3) "invalid encrypt key")
            "encrypt value error"), []).
Proof.
  apply (bad_key_found_on_first_entry (example.jar [x01; x02; x03]) []).
  - cbn. lia.
  - cbn. lia.
  - exists example.session. split; [|reflexivity].
    exists "example.com", {[ "sid" := example.session; "tmp" := example.transient ]}, "sid".
    split; reflexivity.
Defined.

(** * Further properties of the lock and of the transaction *)

Lemma touches_only_refl p lock w : touches_only p lock w w.
Proof. repeat split. Qed.

Lemma touches_only_trans p lock w1 w2 w3 :
  touches_only p lock w1 w2 -> touches_only p lock w2 w3 -> touches_only p lock w1 w3.
Proof.
  intros (F1 & D1 & W1 & T1) (F2 & D2 & W2 & T2). repeat split; try congruence.
  intros q Hp Hl. rewrite F2, F1; trivial.
Qed.

Lemma create_touches w q p lock : q = p \/ q = lock -> touches_only p lock w (create w q).
Proof.
  intros Hq. unfold create. destruct (files w !! q); [apply touches_only_refl|].
  repeat split. intros q' Hp Hl. cbn [files set_files].
  apply lookup_insert_ne. destruct Hq; congruence.
Qed.

Lemma set_now_touches p lock w t : touches_only p lock w (set_now w t).
Proof. repeat split. Qed.

(** Whatever it returns, [LockFile] changes no file but the lock file,
    which it may create empty. *)
Lemma LockFile_frame w p r w1 :
  internal.LockFile w p = (r, w1) ->
  touches_only p (internal.lockFileName w p) w w1 /\
  rand w1 = rand w /\ log w1 = log w /\
  default [] (files w1 !! p) = default [] (files w !! p).
Proof.
  unfold internal.LockFile.
  destruct (internal.tryCtx _ _ _ _ _) as [[ok err] t].
  set (w0 := match flock w _ 0 with TryFailed _ => w | _ => create w _ end).
  assert (H0 : touches_only p (internal.lockFileName w p) w w0 /\
               rand w0 = rand w /\ log w0 = log w /\
               default [] (files w0 !! p) = default [] (files w !! p)).
  { subst w0. destruct (flock w _ 0).
    3: now repeat split.
    all: split; [apply create_touches; now right|].
    all: split; [|split; [|apply create_keeps_content]].
    all: unfold create; destruct (files w !! _); reflexivity. }
  destruct H0 as (T & R & L & C).
  intros H.
  assert (E : w1 = set_now w0 (now w + t)%Z).
  { destruct err as [e|]; [destruct (internal.is_DeadlineExceeded e)|];
      now injection H as _ <-. }
  subst w1. auto.
Qed.

(** A lock that was taken has created its lock file. *)
Lemma LockFile_Ok_files w p locked w1 :
  internal.LockFile w p = (Ok locked, w1) ->
  files w1 = files (create w (internal.lockFileName w p)).
Proof.
  unfold internal.LockFile.
  destruct (internal.tryCtx _ _ _ _ _) as [[ok err] t] eqn:E.
  destruct (flock w (internal.lockFileName w p) 0) eqn:E0.
  3:{ destruct (internal.timers (timer_first w)); cbn [internal.tryCtx] in E;
      rewrite E0 in E; injection E as <- <- <-; discriminate. }
  all: destruct err as [e|]; [destruct (internal.is_DeadlineExceeded e); discriminate|].
  all: intros [= _ <-]; reflexivity.
Qed.

Lemma Close_touches w p w2 locked :
  internal.lock_path locked = internal.lockFileName w p ->
  touches_only p (internal.lockFileName w p) w2 (internal.Close w2 locked)
  /\ rand (internal.Close w2 locked) = rand w2
  /\ log (internal.Close w2 locked) = log w2.
Proof.
  intros Hp. unfold internal.Close, os_Remove. rewrite Hp.
  destruct (windows w2); [|now repeat split].
  destruct (fault w2 _); [now repeat split|].
  repeat split. intros q _ Hl. cbn [files set_files]. now apply lookup_delete_ne.
Qed.

Lemma OpenFile_frame w p r w1 :
  os_OpenFile w p = (r, w1) ->
  touches_only p p w w1 /\ rand w1 = rand w /\ log w1 = log w /\
  default [] (files w1 !! p) = default [] (files w !! p).
Proof.
  unfold os_OpenFile. destruct (fault w _); intros [= _ <-].
  - repeat split.
  - split; [apply create_touches; now left|].
    split; [|split; [|apply create_keeps_content]];
      unfold create; destruct (files w !! p); reflexivity.
Qed.

Lemma touches_only_weaken p lock w w' : touches_only p p w w' -> touches_only p lock w w'.
Proof. intros (F & ?). split; [|assumption]. intros q Hp _. now apply F. Qed.

Section More.

Variable json_Unmarshal : list byte -> result (list entry).
Variable json_Marshal : list entry -> list byte.
Variable merge : Jar -> list entry -> result unit * Jar.

Lemma mergeFrom_world j r w merged j1 w1 :
  mergeFrom json_Unmarshal merge j r w = (merged, j1, w1) ->
  files w1 = files w /\ dirs w1 = dirs w /\ windows w1 = windows w /\
  fault w1 = fault w /\ rand w1 = rand w /\ now w1 = now w.
Proof.
  unfold mergeFrom.
  destruct (json.Decode r) as [data|e|m].
  - destruct (json_Unmarshal data) as [es|e|m].
    + destruct (merge j es) as [r0 j']. intros [= _ _ <-]. repeat split.
    + intros [= _ _ <-]. repeat split.
    + intros [= _ _ <-]. repeat split.
  - destruct e; intros [= _ _ <-]; repeat split.
  - intros [= _ _ <-]. repeat split.
Qed.

(** Whatever it returns, [save_locked] changes no file but the one it
    was given. *)
Lemma save_locked_frame j t f w r j' w' :
  save_locked json_Unmarshal json_Marshal merge j t f w = (r, j', w') ->
  touches_only (file_path f) (file_path f) w w'.
Proof.
  unfold save_locked.
  destruct (mergeFrom json_Unmarshal merge j (content w f) w) as [[merged j1] w1] eqn:Hm.
  apply mergeFrom_world in Hm as (F & D & W & T & _ & _).
  assert (T1 : touches_only (file_path f) (file_path f) w w1).
  { repeat split; congruence. }
  set (w2 := match merged with Err err => log_Print w1 _ | _ => w1 end).
  assert (T2 : touches_only (file_path f) (file_path f) w1 w2).
  { subst w2. destruct merged; repeat split. }
  pose proof (touches_only_trans _ _ _ _ _ T1 T2) as T12. clearbody w2.
  assert (Ins : forall w0 b,
             touches_only (file_path f) (file_path f) w0
               (set_files w0 (<[file_path f := b]> (files w0)))).
  { intros w0 b. repeat split. intros q Hq _. cbn [files set_files]. now apply lookup_insert_ne. }
  destruct merged as [u|e|m].
  3:{ intros [= _ _ <-]. exact T12. }
  all: unfold File_Truncate0; destruct (fault w2 (OpTruncate _));
    [intros [= _ _ <-]; exact T12|].
  all: unfold File_Seek0; cbn [fault set_files]; destruct (fault w2 (OpSeek _));
    [intros [= _ _ <-]; eapply touches_only_trans; [exact T12|apply Ins]|].
  all: unfold writeTo; cbn [rand set_files];
    destruct (allPersistentEntries _ _) as [[l| |] rand'].
  all: try (intros [= _ _ <-]; eapply touches_only_trans; [exact T12|];
            eapply touches_only_trans; [apply Ins|]; repeat split).
  all: unfold File_Write; cbn [fault set_rand set_files];
    destruct (fault w2 (OpWrite _)); intros [= _ _ <-].
  all: eapply touches_only_trans; [exact T12|];
    eapply touches_only_trans; [apply Ins|].
  all: try (repeat split; fail).
  all: repeat split; intros q Hq _; cbn [files set_files set_rand];
    now rewrite lookup_insert_ne.
Qed.

(** X10: whatever it returns, [save] changes no file but the cookie
    file and the lock file ([lockFileName]: the cookie file itself, or
    on Windows the cookie file's name with ".lock"), and no directory. *)
Theorem save_touches_only_its_files (j : Jar) (t : Time) (w : World) (q : string) :
  q <> filename j ->
  q <> internal.lockFileName w (filename j) ->
  files (snd (save json_Unmarshal json_Marshal merge j t w)) !! q = files w !! q
  /\ dirs (snd (save json_Unmarshal json_Marshal merge j t w)) = dirs w.
Proof.
  intros Hq Hl.
  assert (T : touches_only (filename j) (internal.lockFileName w (filename j)) w
                (snd (save json_Unmarshal json_Marshal merge j t w))).
  { unfold save.
    destruct (internal.LockFile w (filename j)) as [r w1] eqn:HL.
    pose proof (LockFile_frame _ _ _ _ HL) as (T1 & _).
    destruct r as [locked| |]; try exact T1.
    pose proof (LockFile_Ok _ _ _ _ HL) as (Hp & _ & _).
    destruct (os_OpenFile w1 (filename j)) as [r w2] eqn:HO.
    pose proof (OpenFile_frame _ _ _ _ HO) as (T2 & _).
    apply (touches_only_weaken _ (internal.lockFileName w (filename j))) in T2.
    pose proof (touches_only_trans _ _ _ _ _ T1 T2) as T12.
    destruct r as [f| |]; cbn [snd];
      try (eapply touches_only_trans; [exact T12|]; now apply Close_touches).
    assert (Hf : file_path f = filename j).
    { unfold os_OpenFile in HO. destruct (fault w1 _); [discriminate HO|].
      injection HO as <- _. reflexivity. }
    destruct (save_locked _ _ _ j t f w2) as [[r j'] w3] eqn:HS. cbn [snd].
    apply save_locked_frame in HS. rewrite Hf in HS.
    apply (touches_only_weaken _ (internal.lockFileName w (filename j))) in HS.
    eapply touches_only_trans; [exact T12|].
    eapply touches_only_trans; [exact HS|]. now apply Close_touches. }
  destruct T as (F & D & _). auto.
Qed.

End More.

Section Failures.

Variable json_Unmarshal : list byte -> result (list entry).
Variable json_Marshal : list entry -> list byte.
Variable merge : Jar -> list entry -> result unit * Jar.

(** The lock taken and the file open: what [save] has in hand when it
    starts to merge. *)
Lemma save_opened j t w locked w1 f w2 :
  internal.LockFile w (filename j) = (Ok locked, w1) ->
  os_OpenFile w1 (filename j) = (Ok f, w2) ->
  file_path f = filename j /\
  fault w2 = fault w /\ rand w2 = rand w /\ windows w2 = windows w /\
  content w2 f = default [] (files w !! filename j) /\
  save json_Unmarshal json_Marshal merge j t w
  = (fst (fst (save_locked json_Unmarshal json_Marshal merge j t f w2)),
     snd (fst (save_locked json_Unmarshal json_Marshal merge j t f w2)),
     internal.Close (snd (save_locked json_Unmarshal json_Marshal merge j t f w2)) locked).
Proof.
  intros HL HO.
  pose proof (opened_content _ _ _ _ _ _ HL HO) as Hc.
  pose proof (LockFile_Ok _ _ _ _ HL) as (_ & U1 & _).
  pose proof (OpenFile_Ok _ _ _ _ HO) as (Hp & U2 & _ & _).
  destruct (unchanged_trans _ _ _ U1 U2) as (Hwin & Hf & Hr).
  repeat split; trivial.
  unfold save. rewrite HL, HO.
  now destruct (save_locked _ _ _ j t f w2) as [[r j'] w3].
Qed.

(** X11: when [f.Truncate(0)] fails, [save] returns "cannot truncate
    file" around the cause and the cookie file keeps the content it had;
    the merge and the purge of the jar have happened. *)
Theorem save_truncate_failure (j : Jar) (t : Time) (w : World)
    locked w1 f w2 merged j1 w3 errno :
  internal.LockFile w (filename j) = (Ok locked, w1) ->
  os_OpenFile w1 (filename j) = (Ok f, w2) ->
  mergeFrom json_Unmarshal merge j (default [] (files w !! filename j)) w2
    = (merged, j1, w3) ->
  (forall m, merged <> Panic m) ->
  fault w (OpTruncate (filename j)) = Some errno ->
  exists w',
    save json_Unmarshal json_Marshal merge j t w
    = (Err (errors_WithMessage (os_PathError "truncate" (filename j) errno)
                               "cannot truncate file"),
       deleteExpired j1 t, w')
    /\ default [] (files w' !! filename j) = default [] (files w !! filename j)
    /\ rand w' = rand w.
Proof.
  intros HL HO Hm Hnp Ht.
  destruct (save_opened j t w locked w1 f w2 HL HO) as (Hp & Hf & Hr & Hwin & Hc & ->).
  rewrite <- Hc in Hm. unfold save_locked. rewrite Hm.
  pose proof (mergeFrom_world _ _ _ _ _ _ _ _ Hm) as (F3 & _ & W3 & T3 & R3 & _).
  destruct (Close_keeps_file w (filename j) locked w1 w3 HL) as [Hk _]; [congruence|].
  assert (Hk' : forall l, files (internal.Close (log_Print w3 l) locked) !! filename j
                          = files w3 !! filename j).
  { intros l.
    destruct (Close_keeps_file w (filename j) locked w1 (log_Print w3 l) HL) as [Hk' _];
      [cbn; congruence|exact Hk']. }
  assert (Hrand : forall w0, rand (internal.Close w0 locked) = rand w0).
  { intros w0. unfold internal.Close, os_Remove.
    destruct (windows w0); [destruct (fault w0 _)|]; reflexivity. }
  assert (Hcont : default [] (files w3 !! filename j) = default [] (files w !! filename j)).
  { rewrite F3, <- Hc. unfold content. now rewrite Hp. }
  destruct merged as [u|e|m]; [| |now destruct (Hnp m)].
  all: cbv beta iota zeta.
  all: unfold File_Truncate0; cbn [fault log_Print]; rewrite T3, Hf, Hp, Ht.
  all: eexists; split; [reflexivity|]; cbn [fst snd].
  all: rewrite ?Hk, ?Hk', Hrand; cbn [rand log_Print]; split; congruence.
Qed.

(** X12: [save] truncates the file before it serializes the jar. With a
    key of a wrong size and a persistent entry that has not expired,
    [save] returns "encrypt value error" around "invalid encrypt key"
    and leaves the cookie file empty, whatever it held before. *)
Theorem save_bad_key_empties_file (j : Jar) (t : Time) (w : World)
    locked w1 f w2 merged j1 w3 :
  internal.LockFile w (filename j) = (Ok locked, w1) ->
  os_OpenFile w1 (filename j) = (Ok f, w2) ->
  mergeFrom json_Unmarshal merge j (default [] (files w !! filename j)) w2
    = (merged, j1, w3) ->
  (forall m, merged <> Panic m) ->
  fault w (OpTruncate (filename j)) = None ->
  fault w (OpSeek (filename j)) = None ->
  (0 < List.length (encryptedKey j1))%nat ->
  ~ In (List.length (encryptedKey j1)) [16; 24; 32]%nat ->
  (exists e, in_jar j1 e /\ Persistent e = true /\ (t < Expires e)%Z) ->
  exists w',
    save json_Unmarshal json_Marshal merge j t w
    = (Err (errors_WithMessage
              (errors_WithMessage
                 (aes_KeySizeError (Z.of_nat (List.length (encryptedKey j1))))
                 "invalid encrypt key")
              "encrypt value error"),
       deleteExpired j1 t, w')
    /\ files w' !! filename j = Some [].
Proof.
  intros HL HO Hm Hnp Ht Hs H0 Hk (e0 & Hin & Hpers & Hexp).
  destruct (save_opened j t w locked w1 f w2 HL HO) as (Hp & Hf & Hr & Hwin & Hc & ->).
  rewrite <- Hc in Hm. unfold save_locked. rewrite Hm.
  pose proof (mergeFrom_world _ _ _ _ _ _ _ _ Hm) as (F3 & _ & W3 & T3 & R3 & _).
  assert (Hbad : forall rand0,
             allPersistentEntries (deleteExpired j1 t) rand0
             = (Err (errors_WithMessage
                       (errors_WithMessage
                          (aes_KeySizeError (Z.of_nat (List.length (encryptedKey j1))))
                          "invalid encrypt key")
                       "encrypt value error"), rand0)).
  { intros rand0.
    apply (allPersistentEntries_bad_key (deleteExpired j1 t) rand0 H0 Hk).
    exists e0. split; [|exact Hpers]. apply deleteExpired_in_jar. auto. }
  assert (Hk' : forall w0, windows w0 = windows w ->
                           files (internal.Close w0 locked) !! filename j
                           = files w0 !! filename j).
  { intros w0 Hw0. now destruct (Close_keeps_file w (filename j) locked w1 w0 HL Hw0). }
  destruct merged as [u|e|m]; [| |now destruct (Hnp m)].
  all: cbv beta iota zeta.
  all: unfold File_Truncate0; cbn [fault log_Print]; rewrite T3, Hf, Hp, Ht.
  all: unfold File_Seek0; cbn [fault set_files log_Print]; rewrite T3, Hf, ?Hp, Hs.
  all: unfold writeTo; cbn [rand set_files log_Print]; rewrite Hbad.
  all: eexists; split; [reflexivity|]; cbn [fst snd].
  all: rewrite Hk' by (cbn; congruence).
  all: cbn [files set_files set_rand log_Print]; rewrite ?Hp; apply lookup_insert_eq.
Qed.


(** X14: on Windows, where the lock file is the cookie file's name with
    ".lock", every [save] that took the lock removes the lock file when
    it returns (unless the removal itself fails), with an error or
    without. *)
Theorem save_removes_lock_file (j : Jar) (t : Time) (w : World) locked w1 :
  windows w = true ->
  internal.LockFile w (filename j) = (Ok locked, w1) ->
  fault w (OpRemove (filename j ++ ".lock")) = None ->
  files w1 !! (filename j ++ ".lock")%string = Some (default [] (files w !! (filename j ++ ".lock")%string))
  /\ files (snd (save json_Unmarshal json_Marshal merge j t w)) !! (filename j ++ ".lock")%string
     = None.
Proof.
  intros Hwin HL Hrm.
  pose proof (LockFile_Ok _ _ _ _ HL) as (Hp & (W1 & T1 & _) & _).
  unfold internal.lockFileName in Hp. rewrite Hwin in Hp.
  split.
  { rewrite (LockFile_Ok_files _ _ _ _ HL). unfold internal.lockFileName, create.
    rewrite Hwin. destruct (files w !! _) eqn:E; cbn [files set_files default].
    - exact E.
    - apply lookup_insert_eq. }
  assert (Hclose : forall w0, windows w0 = windows w -> fault w0 = fault w ->
                              files (internal.Close w0 locked) !! (filename j ++ ".lock")%string
                              = None).
  { intros w0 Hw0 Hf0. unfold internal.Close, os_Remove.
    rewrite Hw0, Hwin, Hp, Hf0, Hrm. cbn [files set_files]. apply lookup_delete_eq. }
  unfold save. rewrite HL.
  destruct (os_OpenFile w1 (filename j)) as [r w2] eqn:HO.
  pose proof (OpenFile_frame _ _ _ _ HO) as ((_ & _ & W2 & T2) & _).
  destruct r as [f| |]; cbn [snd]; try (apply Hclose; congruence).
  destruct (save_locked _ _ _ j t f w2) as [[r j'] w3] eqn:HS. cbn [snd].
  apply save_locked_frame in HS as (_ & _ & W3 & T3).
  apply Hclose; congruence.
Qed.

End Failures.

Lemma tryCtx_first_answer fn name : forall i n attempt t,
  (i <= n)%nat ->
  (forall k, (attempt <= k < attempt + i)%nat -> fn k = TryBusy) ->
  internal.tryCtx fn name n attempt t
  = match fn (attempt + i)%nat with
    | TryLocked => (true, None, (t + Z.of_nat i * internal.retryDelay)%Z)
    | TryFailed errno =>
        (false, Some (os_PathError "flock" name errno),
         (t + Z.of_nat i * internal.retryDelay)%Z)
    | TryBusy =>
        internal.tryCtx fn name (n - i) (attempt + i)
                        (t + Z.of_nat i * internal.retryDelay)%Z
    end.
Proof.
  induction i as [|i IH]; intros n attempt t Hi Hb.
  - rewrite Nat.add_0_r, Nat.sub_0_r. replace (t + Z.of_nat 0 * internal.retryDelay)%Z with t by lia.
    destruct n; cbn [internal.tryCtx]; destruct (fn attempt); reflexivity.
  - destruct n as [|n]; [lia|]. cbn [internal.tryCtx]. rewrite (Hb attempt) by lia.
    rewrite (IH n (S attempt) (t + internal.retryDelay)%Z) by (try lia; intros k Hk; apply Hb; lia).
    replace (S attempt + i)%nat with (attempt + S i)%nat by lia.
    replace (t + internal.retryDelay + Z.of_nat i * internal.retryDelay)%Z
      with (t + Z.of_nat (S i) * internal.retryDelay)%Z by lia.
    reflexivity.
Qed.

(** X15: the first attempt that does not find the lock busy decides
    [LockFile], if it comes before the deadline: after i busy attempts,
    100 microseconds apart, a free lock is taken (and the lock file
    exists), and a failing attempt's error is returned as it is; either
    way i * 100 microseconds after the call. *)
Theorem LockFile_first_answer (w : World) (path : string) (i : nat) :
  (i <= internal.timers (timer_first w))%nat ->
  (forall k, (k < i)%nat -> flock w (internal.lockFileName w path) k = TryBusy) ->
  (flock w (internal.lockFileName w path) i = TryLocked ->
   fst (internal.LockFile w path)
     = Ok {| internal.lock_path := internal.lockFileName w path |} /\
   now (snd (internal.LockFile w path)) = (now w + Z.of_nat i * 100)%Z /\
   is_Some (files (snd (internal.LockFile w path)) !! internal.lockFileName w path)) /\
  (forall errno,
     flock w (internal.lockFileName w path) i = TryFailed errno ->
     fst (internal.LockFile w path)
       = Err (os_PathError "flock" (internal.lockFileName w path) errno) /\
     now (snd (internal.LockFile w path)) = (now w + Z.of_nat i * 100)%Z).
Proof.
  intros Hi Hb. unfold internal.LockFile.
  set (name := internal.lockFileName w path) in *.
  rewrite (tryCtx_first_answer (flock w name) name i _ 0 0%Z Hi)
    by (intros k Hk; apply Hb; lia).
  cbn [Nat.add]. change internal.retryDelay with 100%Z. split.
  - intros E. rewrite E. cbv beta iota. cbn [fst snd now set_now].
    split; [reflexivity|]. split; [lia|].
    cbn [files set_now].
    assert (Hc : forall w0 q, is_Some (files (create w0 q) !! q)).
    { intros w0 q. unfold create. destruct (files w0 !! q) eqn:Eq; cbn [files set_files].
      - rewrite Eq. eauto.
      - rewrite lookup_insert_eq. eauto. }
    destruct (flock w name 0) eqn:E0; try apply Hc.
    destruct i; [congruence|]. rewrite Hb in E0 by lia. discriminate.
  - intros errno E. rewrite E. cbv beta iota.
    cbn [internal.is_DeadlineExceeded fst snd now set_now].
    split; [reflexivity|lia].
Qed.

Lemma LockFile_first_answer_witness :
  fst (internal.LockFile (example.world "[]" 3) "cookies")
    = Ok {| internal.lock_path := internal.lockFileName (example.world "[]" 3) "cookies" |} /\
  now (snd (internal.LockFile (example.world "[]" 3) "cookies")) = (100 + Z.of_nat 3 * 100)%Z /\
  is_Some (files (snd (internal.LockFile (example.world "[]" 3) "cookies"))
             !! internal.lockFileName (example.world "[]" 3) "cookies").
Proof.
  apply (LockFile_first_answer (example.world "[]" 3) "cookies" 3).
  - vm_compute. lia.
  - intros k Hk. cbn [flock example.world].
    destruct (Nat.ltb_spec k 3) as [_|?]; [reflexivity|lia].
  - reflexivity.
Defined.

Section Loading.

Variable json_Unmarshal : list byte -> result (list entry).
Variable merge : Jar -> list entry -> result unit * Jar.
Variable filepath_Dir : string -> string.

(** X16: when the directory of the cookie file does not exist, [load]
    returns nil and leaves the jar and the world as they are: it does
    not ask for the lock, so no lock file appears. *)
Theorem load_without_directory (j : Jar) (w : World) :
  fault w (OpStat (filepath_Dir (filename j))) = None ->
  filepath_Dir (filename j) ∉ dirs w ->
  files w !! filepath_Dir (filename j) = None ->
  load json_Unmarshal merge filepath_Dir j w = (Ok tt, j, w).
Proof.
  intros Hf Hd Hn. unfold load, os_Stat. rewrite Hf, Hn.
  rewrite bool_decide_eq_false_2 by exact Hd.
  rewrite bool_decide_eq_false_2 by (intros [x Hx]; discriminate). reflexivity.
Qed.

(** X17: when the directory exists and the cookie file does not, [load]
    returns nil and loads nothing (its doc comment). Where the lock file
    is the cookie file, taking the lock has created it, empty; on
    Windows there is still no cookie file. *)
Theorem load_without_file (j : Jar) (w : World) locked w1 :
  fault w (OpStat (filepath_Dir (filename j))) = None ->
  filepath_Dir (filename j) ∈ dirs w ->
  files w !! filename j = None ->
  internal.LockFile w (filename j) = (Ok locked, w1) ->
  fault w (OpOpen (filename j)) = None ->
  exists w',
    load json_Unmarshal merge filepath_Dir j w = (Ok tt, j, w') /\
    log w' = log w /\
    files w' !! filename j = if windows w then None else Some [].
Proof.
  intros Hst Hd Hn HL Hop. unfold load, os_Stat. rewrite Hst.
  rewrite bool_decide_eq_true_2 by exact Hd. cbn [orb]. rewrite HL.
  pose proof (LockFile_Ok _ _ _ _ HL) as (Hp & (W1 & T1 & _) & L1).
  pose proof (LockFile_Ok_files _ _ _ _ HL) as F1.
  assert (E : files w1 !! filename j = if windows w then None else Some []).
  { rewrite F1. unfold create, internal.lockFileName. destruct (windows w).
    - destruct (files w !! (filename j ++ ".lock")%string); cbn [files set_files];
        [exact Hn|].
      rewrite lookup_insert_ne by apply lock_suffix_differs. exact Hn.
    - rewrite Hn. cbn [files set_files]. apply lookup_insert_eq. }
  destruct (Close_keeps_file w (filename j) locked w1 w1 HL W1) as [Hk Hlg].
  unfold os_Open. rewrite T1, Hop, E. destruct (windows w).
  - cbn [os_IsNotExist]. eexists. split; [reflexivity|]. rewrite Hk, Hlg. auto.
  - unfold content. cbn [file_path]. rewrite E. cbn [default].
    change (mergeFrom json_Unmarshal merge j [] w1) with (@Ok unit tt, j, w1).
    eexists. split; [reflexivity|]. rewrite Hk, Hlg. auto.
Qed.

(** X18: [load] only reads: whatever it returns, the cookie file has the
    content it had (none and empty being the same), no other file but
    the lock file changed, and no random byte was read. *)
Theorem load_only_reads (j : Jar) (w : World) :
  default [] (files (snd (load json_Unmarshal merge filepath_Dir j w)) !! filename j)
    = default [] (files w !! filename j) /\
  rand (snd (load json_Unmarshal merge filepath_Dir j w)) = rand w /\
  forall q, q <> filename j -> q <> internal.lockFileName w (filename j) ->
            files (snd (load json_Unmarshal merge filepath_Dir j w)) !! q = files w !! q.
Proof.
  unfold load.
  destruct (match os_Stat w _ with Err err => os_IsNotExist err | _ => false end);
    [now repeat split|].
  destruct (internal.LockFile w (filename j)) as [r w1] eqn:HL.
  pose proof (LockFile_frame _ _ _ _ HL) as ((F1 & _ & W1 & _) & R1 & _ & C1).
  destruct r as [locked| |]; cbn [snd]; try (repeat split; assumption).
  pose proof (LockFile_Ok _ _ _ _ HL) as (Hp & _ & _).
  assert (Hclose : forall w2,
             windows w2 = windows w -> files w2 = files w1 -> rand w2 = rand w1 ->
             default [] (files (internal.Close w2 locked) !! filename j)
               = default [] (files w !! filename j) /\
             rand (internal.Close w2 locked) = rand w /\
             forall q, q <> filename j -> q <> internal.lockFileName w (filename j) ->
                       files (internal.Close w2 locked) !! q = files w !! q).
  { intros w2 Hw2 Hf2 Hr2.
    destruct (Close_keeps_file w (filename j) locked w1 w2 HL Hw2) as [Hk _].
    destruct (Close_touches w (filename j) w2 locked Hp) as ((Fc & _) & Rc & _).
    rewrite Hk, Rc, Hf2, Hr2. repeat split; trivial.
    intros q Hq Hl. rewrite Fc, Hf2 by trivial. now apply F1. }
  destruct (os_Open w1 (filename j)) as [f|e|m].
  - destruct (mergeFrom json_Unmarshal merge j (content w1 f) w1) as [[res j'] w2] eqn:Hm.
    apply (mergeFrom_world json_Unmarshal merge) in Hm as (F2 & _ & W2 & _ & R2 & _).
    cbn [snd]. apply Hclose; congruence.
  - destruct (os_IsNotExist e); cbn [snd]; apply Hclose; congruence.
  - cbn [snd]. apply Hclose; congruence.
Qed.

End Loading.

(** * The further properties at concrete inputs *)

Lemma encrypt_text_length_witness :
  String.length "v01BwcHBwcHBwcHBwcHrCcjz7Q2Sfu8RLhSNuoeWXqLvZR0L9tQLiI="
  = (3 + base64.EncodedLen (12 + (List.length (list_byte_of_string "session=42") + 16)))%nat /\
  exists body,
    "v01BwcHBwcHBwcHBwcHrCcjz7Q2Sfu8RLhSNuoeWXqLvZR0L9tQLiI="
    = ("v01" ++ string_of_list_byte body)%string /\
    Forall (fun c => base64.decodeMap c <> 255%N \/ c = base64.padChar) body.
Proof.
  apply (encrypt_text_length (list_byte_of_string "session=42") (repeat x2a 16)
           (repeat x07 12) _ []).
  vm_compute. reflexivity.
Defined.

Lemma save_touches_only_its_files_witness :
  files (snd (save example.Unmarshal example.Marshal example.merge (example.jar []) 100%Z
                   scenario.no_truncate)) !! "other"
    = files scenario.no_truncate !! "other"
  /\ dirs (snd (save example.Unmarshal example.Marshal example.merge (example.jar []) 100%Z
                     scenario.no_truncate))
     = dirs scenario.no_truncate.
Proof.
  apply (save_touches_only_its_files example.Unmarshal example.Marshal example.merge
           (example.jar []) 100%Z scenario.no_truncate "other").
  - vm_compute. discriminate.
  - vm_compute. discriminate.
Defined.

Lemma save_truncate_failure_witness :
  exists w',
    save example.Unmarshal example.Marshal example.merge (example.jar []) 100%Z
         scenario.no_truncate
    = (Err (errors_WithMessage (os_PathError "truncate" (filename (example.jar [])) EACCES)
                               "cannot truncate file"),
       deleteExpired (example.jar []) 100%Z, w')
    /\ default [] (files w' !! filename (example.jar []))
       = default [] (files scenario.no_truncate !! filename (example.jar []))
    /\ rand w' = rand scenario.no_truncate.
Proof.
  eapply (save_truncate_failure example.Unmarshal example.Marshal example.merge
            (example.jar []) 100%Z scenario.no_truncate).
  - vm_compute. reflexivity.
  - vm_compute. reflexivity.
  - vm_compute. reflexivity.
  - intros m. discriminate.
  - reflexivity.
Defined.

Lemma save_bad_key_empties_file_witness :
  exists w',
    save example.Unmarshal example.Marshal example.merge (example.jar [x01; x02; x03]) 100%Z
         (example.world "[]" 0)
    = (Err (errors_WithMessage
              (errors_WithMessage
                 (aes_KeySizeError
                    (Z.of_nat (List.length (encryptedKey (example.jar [x01; x02; x03])))))
                 "invalid encrypt key")
              "encrypt value error"),
       deleteExpired (example.jar [x01; x02; x03]) 100%Z, w')
    /\ files w' !! filename (example.jar [x01; x02; x03]) = Some [].
Proof.
  eapply (save_bad_key_empties_file example.Unmarshal example.Marshal example.merge
            (example.jar [x01; x02; x03]) 100%Z (example.world "[]" 0)).
  - vm_compute. reflexivity.
  - vm_compute. reflexivity.
  - vm_compute. reflexivity.
  - intros m. discriminate.
  - reflexivity.
  - reflexivity.
  - cbn. lia.
  - cbn. lia.
  - exists example.session. split; [|split; [reflexivity|reflexivity]].
    exists "example.com", {[ "sid" := example.session; "tmp" := example.transient ]}, "sid".
    split; reflexivity.
Defined.


Lemma save_removes_lock_file_witness :
  files (snd (internal.LockFile scenario.on_windows (filename (example.jar []))))
    !! (filename (example.jar []) ++ ".lock")%string
  = Some (default [] (files scenario.on_windows
                        !! (filename (example.jar []) ++ ".lock")%string))
  /\ files (snd (save example.Unmarshal example.Marshal example.merge (example.jar []) 100%Z
                      scenario.on_windows))
       !! (filename (example.jar []) ++ ".lock")%string
     = None.
Proof.
  apply (save_removes_lock_file example.Unmarshal example.Marshal example.merge
           (example.jar []) 100%Z scenario.on_windows
           (match fst (internal.LockFile scenario.on_windows (filename (example.jar []))) with
            | Ok c => c
            | _ => {| internal.lock_path := EmptyString |}
            end)).
  - reflexivity.
  - vm_compute. reflexivity.
  - reflexivity.
Defined.

Lemma load_without_directory_witness :
  load example.Unmarshal example.merge example.Dir (example.jar [])
       (scenario.fresh false false)
  = (Ok tt, example.jar [], scenario.fresh false false).
Proof.
  apply load_without_directory.
  - reflexivity.
  - vm_compute. intros H. inversion H.
  - reflexivity.
Defined.

Lemma load_without_file_witness :
  exists w',
    load example.Unmarshal example.merge example.Dir (example.jar [])
         (scenario.fresh true true)
    = (Ok tt, example.jar [], w') /\
    log w' = log (scenario.fresh true true) /\
    files w' !! filename (example.jar [])
    = if windows (scenario.fresh true true) then None else Some [].
Proof.
  eapply (load_without_file example.Unmarshal example.merge example.Dir (example.jar [])
            (scenario.fresh true true)).
  - reflexivity.
  - vm_compute. reflexivity.
  - reflexivity.
  - vm_compute. reflexivity.
  - reflexivity.
Defined.

(** * What the decoder does not read *)

(** A result reached before the end of the stream does not depend on
    what follows it. *)
Lemma readValue_decided (extra : list byte) : forall rest buf buf' s scanp,
  match json.readValue buf s scanp rest with
  | Ok n => (n < scanp + List.length rest)%nat
  | Err (json_SyntaxError _ _ _) => True
  | _ => False
  end ->
  json.readValue buf' s scanp (rest ++ extra) = json.readValue buf s scanp rest.
Proof.
  induction rest as [|c rest IH]; intros buf buf' s scanp; cbn [json.readValue app List.length].
  - destruct (match snd (json.do_step s " ") with json.scanEnd => true | _ => false end).
    + lia.
    + destruct (json.nonSpace buf); intros [].
  - assert (Rec : forall s0,
               match json.readValue buf s0 (S scanp) rest with
               | Ok n => (n < scanp + S (List.length rest))%nat
               | Err (json_SyntaxError _ _ _) => True
               | _ => False
               end ->
               json.readValue buf' s0 (S scanp) (rest ++ extra)
               = json.readValue buf s0 (S scanp) rest).
    { intros s0 H. apply (IH buf buf').
      destruct (json.readValue buf s0 (S scanp) rest) as [n|e|m]; [lia|exact H|exact H]. }
    destruct (json.do_step (json.count_byte s 1) c) as [s' code].
    destruct code; try apply Rec; try reflexivity.
    all: destruct (json.do_stateEndValue s' " ") as [s'' code2].
    all: destruct code2; try apply Rec; reflexivity.
Qed.

Lemma Decode_decided (r extra : list byte) :
  match json.readValue r json.reset 0 r with
  | Ok n => (n < List.length r)%nat
  | Err (json_SyntaxError _ _ _) => True
  | _ => False
  end ->
  json.Decode (r ++ extra) = json.Decode r.
Proof.
  intros H. unfold json.Decode.
  rewrite (readValue_decided extra r r (r ++ extra) json.reset 0) by exact H.
  destruct (json.readValue r json.reset 0 r) as [n|e|m]; trivial.
  now rewrite take_app_le by lia.
Qed.

Section Reading.

Variable json_Unmarshal : list byte -> result (list entry).
Variable merge : Jar -> list entry -> result unit * Jar.
Variable filepath_Dir : string -> string.

(** X19: [mergeFrom] reads one JSON value and no further. When the
    first value of the stream ends before the stream does, or a syntax
    error is found, the bytes that follow change nothing: not the
    result, not the jar, not the log. *)
Theorem mergeFrom_stops_at_first_value (j : Jar) (r extra : list byte) (w : World) :
  ((exists n, json.readValue r json.reset 0 r = Ok n /\ (n < List.length r)%nat) \/
   (exists c context offset,
      json.readValue r json.reset 0 r = Err (json_SyntaxError c context offset))) ->
  mergeFrom json_Unmarshal merge j (r ++ extra) w = mergeFrom json_Unmarshal merge j r w.
Proof.
  intros H. unfold mergeFrom. rewrite Decode_decided; [reflexivity|].
  destruct H as [(n & -> & Hn)|(c & ctx & off & ->)]; trivial.
Qed.

(** The result of [mergeFrom] and what it logs do not depend on the
    files. *)
Lemma mergeFrom_any_world (j : Jar) (r : list byte) (w w1 : World) :
  log w1 = log w ->
  fst (mergeFrom json_Unmarshal merge j r w1) = fst (mergeFrom json_Unmarshal merge j r w) /\
  log (snd (mergeFrom json_Unmarshal merge j r w1))
  = log (snd (mergeFrom json_Unmarshal merge j r w)) /\
  files (snd (mergeFrom json_Unmarshal merge j r w1)) = files w1 /\
  windows (snd (mergeFrom json_Unmarshal merge j r w1)) = windows w1.
Proof.
  intros Hl. unfold mergeFrom.
  destruct (json.Decode r) as [data|e|m].
  - destruct (json_Unmarshal data) as [es|e|m]; cbn [fst snd log log_Print].
    + destruct (merge j es) as [r0 j']. auto.
    + rewrite Hl. auto.
    + auto.
  - destruct e; auto.
  - auto.
Qed.

(** X20: with the directory there, the lock taken and the cookie file
    present and readable, [load] returns what [mergeFrom] returns for
    the content of the file, errors included, leaves the jar [mergeFrom]
    leaves, logs what it logs, and leaves the file as it was. *)
Theorem load_merges_the_file (j : Jar) (w : World) (r : list byte) locked w1 :
  fault w (OpStat (filepath_Dir (filename j))) = None ->
  filepath_Dir (filename j) ∈ dirs w ->
  internal.LockFile w (filename j) = (Ok locked, w1) ->
  files w !! filename j = Some r ->
  fault w (OpOpen (filename j)) = None ->
  fst (load json_Unmarshal merge filepath_Dir j w)
  = fst (mergeFrom json_Unmarshal merge j r w) /\
  log (snd (load json_Unmarshal merge filepath_Dir j w))
  = log (snd (mergeFrom json_Unmarshal merge j r w)) /\
  files (snd (load json_Unmarshal merge filepath_Dir j w)) !! filename j = Some r.
Proof.
  intros Hst Hd HL Hr Hop. unfold load, os_Stat. rewrite Hst.
  rewrite bool_decide_eq_true_2 by exact Hd. cbn [orb]. rewrite HL.
  pose proof (LockFile_Ok _ _ _ _ HL) as (Hp & (W1 & T1 & _) & L1).
  pose proof (LockFile_Ok_files _ _ _ _ HL) as F1.
  assert (E : files w1 !! filename j = Some r).
  { rewrite F1. unfold create. destruct (files w !! internal.lockFileName w (filename j)) eqn:El;
      cbn [files set_files]; [exact Hr|].
    destruct (decide (internal.lockFileName w (filename j) = filename j)) as [e|n].
    - rewrite e in El. congruence.
    - now rewrite lookup_insert_ne. }
  unfold os_Open. rewrite T1, Hop, E. unfold content. cbn [file_path]. rewrite E. cbn [default]. unfold id.
  destruct (mergeFrom_any_world j r w w1 L1) as (R & Lg & Fl & Wn).
  destruct (mergeFrom json_Unmarshal merge j r w1) as [[res j'] w2] eqn:Hm.
  cbn [fst snd] in *. split; [exact R|].
  destruct (Close_keeps_file w (filename j) locked w1 w2 HL) as [Hk Hlg]; [congruence|].
  rewrite Hk, Hlg, Fl. auto.
Qed.

Variable json_Marshal : list entry -> list byte.

(** X21: a [save] or a [load] that does not get the lock returns the
    error of [LockFile] and has done nothing: the jar is the same (not
    even purged of expired entries), the cookie file has the content it
    had, no random byte is read and nothing is logged. *)
Theorem no_lock_no_change (j : Jar) (t : Time) (w : World) (e : error) :
  fst (internal.LockFile w (filename j)) = Err e ->
  (fst (save json_Unmarshal json_Marshal merge j t w) = (Err e, j) /\
   default [] (files (snd (save json_Unmarshal json_Marshal merge j t w)) !! filename j)
   = default [] (files w !! filename j) /\
   rand (snd (save json_Unmarshal json_Marshal merge j t w)) = rand w /\
   log (snd (save json_Unmarshal json_Marshal merge j t w)) = log w) /\
  (fault w (OpStat (filepath_Dir (filename j))) = None ->
   filepath_Dir (filename j) ∈ dirs w ->
   fst (load json_Unmarshal merge filepath_Dir j w) = (Err e, j) /\
   default [] (files (snd (load json_Unmarshal merge filepath_Dir j w)) !! filename j)
   = default [] (files w !! filename j) /\
   log (snd (load json_Unmarshal merge filepath_Dir j w)) = log w).
Proof.
  intros HL.
  destruct (internal.LockFile w (filename j)) as [r w1] eqn:E. cbn [fst] in HL. subst r.
  pose proof (LockFile_frame _ _ _ _ E) as (_ & R1 & L1 & C1).
  split.
  - unfold save. rewrite E. cbn [fst snd]. auto.
  - intros Hst Hd. unfold load, os_Stat. rewrite Hst.
    rewrite bool_decide_eq_true_2 by exact Hd. cbn [orb]. rewrite E. cbn [fst snd]. auto.
Qed.

End Reading.

Lemma mergeFrom_stops_at_first_value_witness :
  mergeFrom example.Unmarshal example.merge (example.jar [])
            (list_byte_of_string "[] " ++ list_byte_of_string "}{ not json")
            (example.world "[]" 0)
  = mergeFrom example.Unmarshal example.merge (example.jar [])
              (list_byte_of_string "[] ") (example.world "[]" 0).
Proof.
  apply (mergeFrom_stops_at_first_value example.Unmarshal example.merge).
  left. exists 2%nat. split; [vm_compute; reflexivity|cbn; lia].
Defined.

Lemma load_merges_the_file_witness :
  fst (load example.Unmarshal example.merge example.Dir (example.jar [])
            (example.world "nul" 0))
  = fst (mergeFrom example.Unmarshal example.merge (example.jar [])
                   (list_byte_of_string "nul") (example.world "nul" 0)) /\
  log (snd (load example.Unmarshal example.merge example.Dir (example.jar [])
                 (example.world "nul" 0)))
  = log (snd (mergeFrom example.Unmarshal example.merge (example.jar [])
                        (list_byte_of_string "nul") (example.world "nul" 0))) /\
  files (snd (load example.Unmarshal example.merge example.Dir (example.jar [])
                   (example.world "nul" 0))) !! filename (example.jar [])
  = Some (list_byte_of_string "nul").
Proof.
  eapply (load_merges_the_file example.Unmarshal example.merge example.Dir (example.jar [])
            (example.world "nul" 0)).
  - reflexivity.
  - vm_compute. reflexivity.
  - vm_compute. reflexivity.
  - vm_compute. reflexivity.
  - reflexivity.
Defined.

Lemma no_lock_no_change_witness :
  let j := example.jar [] in
  let w := example.world "[]" 2000 in
  let e := errors_New "try lock timeout" in
  (fst (save example.Unmarshal example.Marshal example.merge j 100%Z w) = (Err e, j) /\
   default [] (files (snd (save example.Unmarshal example.Marshal example.merge j 100%Z w))
                 !! filename j)
   = default [] (files w !! filename j) /\
   rand (snd (save example.Unmarshal example.Marshal example.merge j 100%Z w)) = rand w /\
   log (snd (save example.Unmarshal example.Marshal example.merge j 100%Z w)) = log w) /\
  (fault w (OpStat (example.Dir (filename j))) = None ->
   example.Dir (filename j) ∈ dirs w ->
   fst (load example.Unmarshal example.merge example.Dir j w) = (Err e, j) /\
   default [] (files (snd (load example.Unmarshal example.merge example.Dir j w)) !! filename j)
   = default [] (files w !! filename j) /\
   log (snd (load example.Unmarshal example.merge example.Dir j w)) = log w).
Proof.
  cbv zeta.
  apply (no_lock_no_change example.Unmarshal example.merge example.Dir example.Marshal
           (example.jar []) 100%Z (example.world "[]" 2000)).
  vm_compute. reflexivity.
Defined.
